(** * kafka-client: the multi-cluster consumer coordinator and its options

    A shallow embedding of [consumerOptions.go] (package [kafkaclient]) and
    of [internal/consumer/multiclusterConsumer.go] (package [consumer]).

    Go objects reached through pointers live in stores keyed by location; a
    nil dereference, a close of a closed channel and the like are panics.
    Go maps are [gmap]s; a [range] loop over a map visits its entries in an
    order chosen by the runtime, which the model receives as an oracle. *)

From Stdlib Require Import ZArith List.
From stdpp Require Import base option list gmap strings pretty fin_maps.

Open Scope string_scope.
Open Scope list_scope.

(** ** Go basics *)

Module Go.

(** A value of the [error] interface, identified by what [Error()]
    returns. A nil [error] is [None] in [option error]. *)
Record error := mk_error { Error : string }.

(** [errors.New(text)] *)
Definition errors_New (text : string) : error := mk_error text.

#[global] Instance error_eq_dec : EqDecision error.
Proof. solve_decision. Defined.

(** A slice: [None] is the nil slice. *)
Definition slice (A : Type) := option (list A).

(** Locations of heap objects. *)
Abbreviation loc := positive.

(** The outcome of a call: it returns, or the goroutine panics. *)
Inductive result (A : Type) :=
  | Returns (a : A)
  | Panics.
Arguments Returns {A} a.
Arguments Panics {A}.

(** [fmt.Errorf(format, arg)] for a [format] that is a text followed by
    the one verb [%s], and a string [arg]. *)
Definition fmt_Errorf (text arg : string) : error := mk_error (text +:+ arg).

(** [strings.Join(elems, sep)] *)
Fixpoint strings_Join (elems : list string) (sep : string) : string :=
  match elems with
  | [] => ""
  | [s] => s
  | s :: rest => s +:+ sep +:+ strings_Join rest sep
  end.

(** [s] occurs in [t] as a contiguous substring. *)
Definition contains (t s : string) : Prop :=
  ∃ pre post, t = pre +:+ s +:+ post.

(** A channel is open or closed; the coordinator neither sends nor
    receives, so the buffered values are left out. *)
Inductive chan_state := ch_open | ch_closed.

#[global] Instance chan_state_eq_dec : EqDecision chan_state.
Proof. solve_decision. Defined.

(** A reference to a channel, by element type: [chan kafka.Message] or
    [chan struct{}]. *)
Inductive chan_ref :=
  | chan_Message (l : loc)
  | chan_struct (l : loc).

#[global] Instance chan_ref_eq_dec : EqDecision chan_ref.
Proof. solve_decision. Defined.

(** The order in which [for k, v := range m] visits the entries of [m].
    The runtime's choice is the oracle [pick]: when it is an ordering of
    the entries of [m] it is followed, and any other value stands for the
    canonical ordering. *)
Definition range_order `{Countable K} {V} `{EqDecision V}
    (m : gmap K V) (pick : list (K * V)) : list (K * V) :=
  if decide (pick ≡ₚ map_to_list m) then pick else map_to_list m.

End Go.
Export Go.

(** ** Package kafkaclient: consumerOptions.go *)

Module KafkaClient.

Section Options.

(** [ConsumerError] and the option types other than
    [*partialConstruction] are declared in files of the package that are
    not part of this development. *)
Context {ConsumerError OtherOption : Type}.

(** [consumerErrorList]: the struct behind [pe.errs], with its one field
    [errs []ConsumerError]. *)
Record consumerErrorList := { cel_errs : slice ConsumerError }.

(** [partialConstruction struct { enabled bool; errs *consumerErrorList }];
    a nil [errs] is [None]. *)
Record partialConstruction := {
  enabled : bool;
  errs : option loc;
  }.

(** A value of the interface [ConsumerOption]: the nil interface, a
    [*partialConstruction] (a nil pointer is [None]), or a value of
    another implementing type. *)
Inductive ConsumerOption :=
  | option_nil
  | option_partialConstruction (p : option loc)
  | option_other (o : OtherOption).

(** The heap: the [partialConstruction] and the [consumerErrorList]
    objects. *)
Record Heap := {
  h_partial : gmap loc partialConstruction;
  h_lists : gmap loc consumerErrorList;
  }.

(** [consumer.Options], as far as [apply] writes it. *)
Record Options := { PartialConstruction : bool }.

(** [func PartialConstructionError(option ConsumerOption) []ConsumerError] *)
Definition PartialConstructionError (h : Heap) (option : ConsumerOption)
    : result (slice ConsumerError) :=
  match option with
  | option_partialConstruction p =>
      (* pe, ok := option.( *partialConstruction ) with ok = true *)
      match p ≫= (h_partial h !!.) with
      | None => Panics                      (* pe.errs with pe == nil *)
      | Some pe =>
          match errs pe with
          | None => Panics                  (* pe.errs.errs with pe.errs == nil *)
          | Some l =>
              match h_lists h !! l with
              | Some el => Returns (cel_errs el)
              | None => Panics
              end
          end
      end
  | _ => Returns None                       (* !ok: return nil *)
  end.

(** [func EnablePartialConstruction() ConsumerOption]: allocates
    [&partialConstruction{enabled: true}]; [errs] keeps its zero value,
    nil. *)
Definition EnablePartialConstruction (h : Heap) : ConsumerOption * Heap :=
  let p := fresh (dom (h_partial h)) in
  (option_partialConstruction (Some p),
   {| h_partial := <[p := {| enabled := true; errs := None |}]> (h_partial h);
      h_lists := h_lists h |}).

(** [func (p *partialConstruction) apply(opt *consumer.Options)] *)
Definition apply (h : Heap) (p : option loc) (opt : Options) : result Options :=
  match p ≫= (h_partial h !!.) with
  | Some pe => Returns {| PartialConstruction := enabled pe |}
  | None => Panics
  end.

(** [func (c consumerBuildOptions) addPartialConstructionError(errs *consumerErrorList)] *)
Fixpoint addPartialConstructionError (c : list ConsumerOption)
    (errs' : option loc) (h : Heap) : result Heap :=
  match c with
  | [] => Returns h
  | option_partialConstruction p :: rest =>
      match p with
      | Some l =>
          match h_partial h !! l with
          | Some pe =>
              addPartialConstructionError rest errs'
                {| h_partial := <[l := {| enabled := enabled pe; errs := errs' |}]> (h_partial h);
                   h_lists := h_lists h |}
          | None => Panics
          end
      | None => Panics                      (* pe.errs = errs with pe == nil *)
      end
  | _ :: rest => addPartialConstructionError rest errs' h
  end.

(** The [partialConstruction] objects the options of a list point to. *)
Definition partial_locs (c : list ConsumerOption) : list loc :=
  omap (λ o, match o with option_partialConstruction p => p | _ => None end) c.

(** The option [o], when it is a [*partialConstruction], is a pointer to a
    live object (and not a nil pointer). *)
Definition live_option (h : Heap) (o : ConsumerOption) : Prop :=
  match o with
  | option_partialConstruction p => is_Some (p ≫= (h_partial h !!.))
  | _ => True
  end.

End Options.

End KafkaClient.

(** ** Package util: the lifecycle guard *)

Module Util.

(** Modelled from the spec: the phases of the lifecycle guard
    [util.RunLifecycle], whose source file is not part of this
    development: [NotStarted → Starting → Running → Stopping → Stopped],
    with [Stopped] terminal. *)
Inductive Phase := NotStarted | Starting | Running | Stopping | Stopped.

#[global] Instance Phase_eq_dec : EqDecision Phase.
Proof. solve_decision. Defined.

(** Modelled from the spec: the guard object, a name and the current
    phase. *)
Record RunLifecycle := { name : string; phase : Phase }.

(** Modelled from the spec: [util.NewRunLifecycle(name)] returns a guard
    that has not been started. *)
Definition NewRunLifecycle (name : string) : RunLifecycle :=
  {| name := name; phase := NotStarted |}.

(** Modelled from the spec: the guard [r] moved to the phase [ph]. *)
Definition to_phase (ph : Phase) (r : RunLifecycle) : RunLifecycle :=
  {| name := name r; phase := ph |}.

(** Modelled from the spec: the error with which the guard refuses a
    second start. *)
Definition errNotStartedTwice : error := errors_New "not started twice".

Section Guard.

(** The guard is a field of some larger state [S]. *)
Context {S : Type} (get : S → RunLifecycle) (set : RunLifecycle → S → S).

(** Modelled from the spec: [Start(fn)] transitions
    [NotStarted → Starting]; if the guard is already past [NotStarted]
    it returns at once with the error and does not invoke [fn].
    Otherwise [fn] is invoked exactly once; on success the guard
    becomes [Running]; on failure the error is returned and the caller
    is responsible for tearing down through [Stop]. *)
Definition Start (fn : S → option (option error * S)) (s : S)
      : option (option error * S) :=
    match phase (get s) with
    | NotStarted =>
        match fn (set (to_phase Starting (get s)) s) with
        | Some (None, s') => Some (None, set (to_phase Running (get s')) s')
        | Some (Some e, s') => Some (Some e, s')
        | None => None
        end
    | _ => Some (Some errNotStartedTwice, s)
    end.

(** Modelled from the spec: [Stop(fn)] transitions to
    [Stopping → Stopped] and invokes the teardown [fn] exactly once; if
    the guard is already stopped (or stopping) or was never started,
    [fn] is not invoked. *)
Definition Stop (fn : S → option (unit * S)) (s : S) : option (unit * S) :=
    match phase (get s) with
    | NotStarted | Stopping | Stopped => Some (tt, s)
    | Starting | Running =>
        match fn (set (to_phase Stopping (get s)) s) with
        | Some (_, s') => Some (tt, set (to_phase Stopped (get s')) s')
        | None => None
        end
    end.

End Guard.

(** Modelled from the spec: [Status()] returns [(started, stopped)]. *)
Definition Status (r : RunLifecycle) : bool * bool :=
  (bool_decide (phase r ≠ NotStarted), bool_decide (phase r = Stopped)).

End Util.

(** ** Package kafka: the data the coordinator handles *)

Module Kafka.

(** [kafka.Topic] *)
Record Topic := {
  Name : string;
  Cluster : string;
  BrokerList : slice string;
  }.

(** [kafka.ConsumerTopic]: a topic and its dead-letter topic. *)
Record ConsumerTopic := {
  Topic_ : Topic;
  DLQ : Topic;
  }.

(** [kafka.ConsumerTopicList] *)
Definition ConsumerTopicList := list ConsumerTopic.

End Kafka.

(** ** Package consumer: multiclusterConsumer.go *)

Module Consumer.

Import Kafka.

(** The collaborators the coordinator drives but does not implement. Each
    operation takes the object's state and returns its result with the new
    state. *)
Class Collaborators := {
(** [kafka.OffsetRange] *)
  OffsetRange : Type;
  OffsetRange_eq_dec :: EqDecision OffsetRange;
(** [ClusterConsumer], with [Start() error], [Stop()] and
    [ResetOffset(topic, partition, offsetRange) error] *)
  ClusterConsumer : Type;
  cc_Start : ClusterConsumer → option error * ClusterConsumer;
  cc_Stop : ClusterConsumer → ClusterConsumer;
  cc_ResetOffset :
  string → Z → OffsetRange → ClusterConsumer → option error * ClusterConsumer;
(** [sarama.Client], with [Close() error] *)
  SaramaClient : Type;
  client_Close : SaramaClient → option error * SaramaClient;
}.

(** The counters of package [metrics] the coordinator increments. *)
Inductive Metric := KafkaConsumerStarted | KafkaConsumerStopped.

Section Coordinator.

Context `{K : Collaborators}.

(** [MultiClusterConsumer]. The maps hold references to the per-cluster
    consumers and to the sarama clients; [msgC] and [doneC] are
    references to channels; [scope] and [logger] are handles; the guard
    is owned by the coordinator and kept in place. *)
Record MultiClusterConsumer := {
  groupName : string;
  topics : ConsumerTopicList;
  clusterConsumerMap : gmap string loc;
  clusterToSaramaClientMap : gmap string loc;
  msgC : loc;
  doneC : loc;
  scope : loc;
  logger : loc;
  lifecycle : Util.RunLifecycle;
  }.

(** What the coordinator does to its collaborators, in program order. *)
Inductive Event :=
  | EvConsumerStart (cc : loc) (ret : option error)
  | EvConsumerStop (cc : loc)
  | EvConsumerResetOffset (cc : loc) (topic : string) (partition : Z)
    (offsetRange : OffsetRange) (ret : option error)
  | EvClientClose (client : loc) (ret : option error)
  | EvClose (ch : chan_ref)
  | EvLogError (logger : loc) (msg : string) (err : error) (cluster : string)
  | EvLogInfo (logger : loc) (msg : string) (groupName : string)
    (topicList : ConsumerTopicList)
  | EvCounterInc (scope : loc) (m : Metric).

(** Invocations of the coordinator's own methods (a ghost log: nothing
    reads it). *)
Inductive Call :=
  | CallStop
  | CallResetOffset (cluster topic : string) (partition : Z)
    (offsetRange : OffsetRange).

(** The program state: the coordinator object, the objects it refers to,
    the two kinds of channels ([chan kafka.Message] and [chan struct{}]),
    and what has happened so far. *)
Record World := {
  coord : MultiClusterConsumer;
  consumers : gmap loc ClusterConsumer;
  clients : gmap loc SaramaClient;
  msg_chans : gmap loc chan_state;
  sig_chans : gmap loc chan_state;
  trace : list Event;
  calls : list Call;
  }.

(** What exists before the coordinator is constructed. *)
Record Env := {
  e_consumers : gmap loc ClusterConsumer;
  e_clients : gmap loc SaramaClient;
  e_msg_chans : gmap loc chan_state;
  e_sig_chans : gmap loc chan_state;
  }.

Definition set_guard (r : Util.RunLifecycle) (c : MultiClusterConsumer)
    : MultiClusterConsumer :=
  {| groupName := groupName c;
     topics := topics c;
     clusterConsumerMap := clusterConsumerMap c;
     clusterToSaramaClientMap := clusterToSaramaClientMap c;
     msgC := msgC c;
     doneC := doneC c;
     scope := scope c;
     logger := logger c;
     lifecycle := r |}.

Definition set_lifecycle (r : Util.RunLifecycle) (w : World) : World :=
  {| coord := set_guard r (coord w);
     consumers := consumers w; clients := clients w;
     msg_chans := msg_chans w; sig_chans := sig_chans w;
     trace := trace w; calls := calls w |}.

Definition set_consumers (m : gmap loc ClusterConsumer) (w : World) : World :=
  {| coord := coord w; consumers := m; clients := clients w;
     msg_chans := msg_chans w; sig_chans := sig_chans w;
     trace := trace w; calls := calls w |}.

Definition set_clients (m : gmap loc SaramaClient) (w : World) : World :=
  {| coord := coord w; consumers := consumers w; clients := m;
     msg_chans := msg_chans w; sig_chans := sig_chans w;
     trace := trace w; calls := calls w |}.

Definition set_msg_chans (m : gmap loc chan_state) (w : World) : World :=
  {| coord := coord w; consumers := consumers w; clients := clients w;
     msg_chans := m; sig_chans := sig_chans w;
     trace := trace w; calls := calls w |}.

Definition set_sig_chans (m : gmap loc chan_state) (w : World) : World :=
  {| coord := coord w; consumers := consumers w; clients := clients w;
     msg_chans := msg_chans w; sig_chans := m;
     trace := trace w; calls := calls w |}.

Definition add_event (e : Event) (w : World) : World :=
  {| coord := coord w; consumers := consumers w; clients := clients w;
     msg_chans := msg_chans w; sig_chans := sig_chans w;
     trace := trace w ++ [e]; calls := calls w |}.

Definition add_call (c : Call) (w : World) : World :=
  {| coord := coord w; consumers := consumers w; clients := clients w;
     msg_chans := msg_chans w; sig_chans := sig_chans w;
     trace := trace w; calls := calls w ++ [c] |}.

Definition set_calls (l : list Call) (w : World) : World :=
  {| coord := coord w; consumers := consumers w; clients := clients w;
     msg_chans := msg_chans w; sig_chans := sig_chans w;
     trace := trace w; calls := l |}.

(** *** A state monad with panics *)

Definition M (A : Type) : Type := World → option (A * World).

Definition ret {A} (a : A) : M A := λ w, Some (a, w).

Definition bind {A B} (m : M A) (k : A → M B) : M B :=
  λ w, match m w with
       | Some (a, w') => k a w'
       | None => None
       end.

Definition panic {A} : M A := λ _, None.

#[global] Instance M_ret : MRet M := @ret.
#[global] Instance M_bind : MBind M := λ A B k m, bind m k.

Definition emit (e : Event) : M unit := λ w, Some (tt, add_event e w).

Definition called (c : Call) : M unit := λ w, Some (tt, add_call c w).

(** Reads a field of the receiver [c]. *)
Definition self {A} (field : MultiClusterConsumer → A) : M A :=
  λ w, Some (field (coord w), w).

(** *** The collaborators' operations, on the objects in the store *)

(** [consumer.Start()] on the [*ClusterConsumer] at [cc]. *)
Definition ClusterConsumer_Start (cc : loc) : M (option error) := λ w,
  match consumers w !! cc with
  | Some s =>
      let r := cc_Start s in
      Some (r.1, add_event (EvConsumerStart cc r.1)
                   (set_consumers (<[cc := r.2]> (consumers w)) w))
  | None => None
  end.

(** [consumer.Stop()] *)
Definition ClusterConsumer_Stop (cc : loc) : M unit := λ w,
  match consumers w !! cc with
  | Some s =>
      Some (tt, add_event (EvConsumerStop cc)
                  (set_consumers (<[cc := cc_Stop s]> (consumers w)) w))
  | None => None
  end.

(** [cc.ResetOffset(topic, partition, offsetRange)] *)
Definition ClusterConsumer_ResetOffset (cc : loc) (topic : string)
    (partition : Z) (offsetRange : OffsetRange) : M (option error) := λ w,
  match consumers w !! cc with
  | Some s =>
      let r := cc_ResetOffset topic partition offsetRange s in
      Some (r.1, add_event (EvConsumerResetOffset cc topic partition offsetRange r.1)
                   (set_consumers (<[cc := r.2]> (consumers w)) w))
  | None => None
  end.

(** [client.Close()] *)
Definition Client_Close (client : loc) : M (option error) := λ w,
  match clients w !! client with
  | Some s =>
      let r := client_Close s in
      Some (r.1, add_event (EvClientClose client r.1)
                   (set_clients (<[client := r.2]> (clients w)) w))
  | None => None
  end.

(** [close(ch)]: panics on a nil and on a closed channel. *)
Definition close (ch : chan_ref) : M unit := λ w,
  match ch with
  | chan_Message l =>
      match msg_chans w !! l with
      | Some ch_open =>
          Some (tt, add_event (EvClose ch)
                      (set_msg_chans (<[l := ch_closed]> (msg_chans w)) w))
      | _ => None
      end
  | chan_struct l =>
      match sig_chans w !! l with
      | Some ch_open =>
          Some (tt, add_event (EvClose ch)
                      (set_sig_chans (<[l := ch_closed]> (sig_chans w)) w))
      | _ => None
      end
  end.

(** *** The coordinator *)

(** [NewMultiClusterConsumer]: [doneC] is a new channel,
    [make(chan struct{})], and the guard is new. *)
Definition NewMultiClusterConsumer (groupName : string)
    (topics : ConsumerTopicList) (clusterConsumerMap : gmap string loc)
    (saramaClients : gmap string loc) (msgC : loc) (scope logger : loc)
    (e : Env) : World :=
  let d := fresh (dom (e_sig_chans e)) in
  {| coord := {| groupName := groupName;
                 topics := topics;
                 clusterConsumerMap := clusterConsumerMap;
                 clusterToSaramaClientMap := saramaClients;
                 msgC := msgC;
                 doneC := d;
                 scope := scope;
                 logger := logger;
                 lifecycle := Util.NewRunLifecycle (groupName +:+ "-consumer") |};
     consumers := e_consumers e; clients := e_clients e;
     msg_chans := e_msg_chans e;
     sig_chans := <[d := ch_open]> (e_sig_chans e);
     trace := []; calls := [] |}.

(** [func (c *MultiClusterConsumer) Name() string] *)
Definition Name : M string := self groupName.

(** [func (c *MultiClusterConsumer) Topics() kafka.ConsumerTopicList] *)
Definition Topics : M ConsumerTopicList := self topics.

(** The body of the loop of [Start], over the entries in the order of
    the iteration:
    [for clusterName, consumer := range c.clusterConsumerMap]. *)
Fixpoint Start_range (order : list (string * loc)) : M (option error) :=
  match order with
  | [] => mret None
  | (clusterName, consumer) :: rest =>
      err ← ClusterConsumer_Start consumer;
      match err with
      | Some e =>
          lg ← self logger;
          emit (EvLogError lg "multicluster consumer start error" e clusterName);;
          mret (Some e)
      | None => Start_range rest
      end
  end.

(** The function [Start] hands to the guard. *)
Definition Start_body (pick : list (string * loc)) : M (option error) :=
  m ← self clusterConsumerMap;
  Start_range (range_order m pick).

(** [for _, consumer := range c.clusterConsumerMap { consumer.Stop() }] *)
Fixpoint Stop_range_consumers (order : list (string * loc)) : M unit :=
  match order with
  | [] => mret tt
  | (_, consumer) :: rest =>
      ClusterConsumer_Stop consumer;;
      Stop_range_consumers rest
  end.

(** [for _, client := range c.clusterToSaramaClientMap { client.Close() }];
    what [Close] returns is dropped. *)
Fixpoint Stop_range_clients (order : list (string * loc)) : M unit :=
  match order with
  | [] => mret tt
  | (_, client) :: rest =>
      _ ← Client_Close client;
      Stop_range_clients rest
  end.

(** The iteration orders the runtime picks for the two loops of [Stop]. *)
Record Picks := {
  pick_consumers : list (string * loc);
  pick_clients : list (string * loc);
  }.

(** The function [Stop] hands to the guard. *)
Definition Stop_body (picks : Picks) : M unit :=
  m ← self clusterConsumerMap;
  Stop_range_consumers (range_order m (pick_consumers picks));;
  m' ← self clusterToSaramaClientMap;
  Stop_range_clients (range_order m' (pick_clients picks));;
  d ← self doneC;
  close (chan_struct d);;
  lg ← self logger;
  g ← self groupName;
  ts ← self topics;
  emit (EvLogInfo lg "multicluster consumer stopped" g ts);;
  sc ← self scope;
  emit (EvCounterInc sc KafkaConsumerStopped).

(** [func (c *MultiClusterConsumer) Stop()] *)
Definition Stop (picks : Picks) : M unit :=
  Util.Stop (λ w, lifecycle (coord w)) set_lifecycle (Stop_body picks);;
  called CallStop.

(** [func (c *MultiClusterConsumer) Start() error] *)
Definition Start (pick : list (string * loc)) (picks : Picks) : M (option error) :=
  err ← Util.Start (λ w, lifecycle (coord w)) set_lifecycle (Start_body pick);
  match err with
  | Some e =>
      Stop picks;;
      mret (Some e)
  | None =>
      lg ← self logger;
      g ← self groupName;
      ts ← self topics;
      emit (EvLogInfo lg "multicluster consumer started" g ts);;
      sc ← self scope;
      emit (EvCounterInc sc KafkaConsumerStarted);;
      mret None
  end.

(** [func (c *MultiClusterConsumer) Closed() <-chan struct{}] *)
Definition Closed : M chan_ref := d ← self doneC; mret (chan_struct d).

(** [func (c *MultiClusterConsumer) Messages() <-chan kafka.Message] *)
Definition Messages : M chan_ref := m ← self msgC; mret (chan_Message m).

(** [func (c *MultiClusterConsumer) ResetOffset(cluster, topic string,
    partition int32, offsetRange kafka.OffsetRange) error] *)
Definition ResetOffset (cluster topic : string) (partition : Z)
    (offsetRange : OffsetRange) : M (option error) :=
  called (CallResetOffset cluster topic partition offsetRange);;
  m ← self clusterConsumerMap;
  match m !! cluster with
  | None => mret (Some (errors_New "no cluster consumer found"))
  | Some cc => ClusterConsumer_ResetOffset cc topic partition offsetRange
  end.

(** [fmt.Sprintf("partition=%d err=%s", partition, err)] *)
Definition partition_failure (partition : Z) (err : error) : string :=
  "partition=" +:+ pretty partition +:+ " err=" +:+ Error err.

(** The loop of [MergeDLQ], over the entries in the order of the
    iteration; [errList] is the slice the failures are appended to. *)
Fixpoint MergeDLQ_range (topic : ConsumerTopic)
    (order : list (Z * OffsetRange)) (errList : list string) : M (list string) :=
  match order with
  | [] => mret errList
  | (partition, offsetRange) :: rest =>
      err ← ResetOffset (Cluster (DLQ topic)) (Kafka.Name (DLQ topic))
              partition offsetRange;
      match err with
      | Some e => MergeDLQ_range topic rest (errList ++ [partition_failure partition e])
      | None => MergeDLQ_range topic rest errList
      end
  end.

(** [func (c *MultiClusterConsumer) MergeDLQ(topic kafka.ConsumerTopic,
    offsetRanges map[int32]kafka.OffsetRange) error] *)
Definition MergeDLQ (topic : ConsumerTopic) (offsetRanges : gmap Z OffsetRange)
    (pick : list (Z * OffsetRange)) : M (option error) :=
  errList ← MergeDLQ_range topic (range_order offsetRanges pick) [];
  match errList with
  | [] => mret None
  | _ => mret (Some (fmt_Errorf "DLQ merge failed for " (strings_Join errList ",")))
  end.

(** *** Sequences of calls *)

(** A call of one of the coordinator's methods, with the runtime's
    choices of iteration order. *)
Inductive Op :=
  | OpName
  | OpTopics
  | OpStart (pick : list (string * loc)) (picks : Picks)
  | OpStop (picks : Picks)
  | OpClosed
  | OpMessages
  | OpResetOffset (cluster topic : string) (partition : Z) (offsetRange : OffsetRange)
  | OpMergeDLQ (topic : ConsumerTopic) (offsetRanges : gmap Z OffsetRange)
    (pick : list (Z * OffsetRange)).

Definition exec (op : Op) : M unit :=
  match op with
  | OpName => _ ← Name; mret tt
  | OpTopics => _ ← Topics; mret tt
  | OpStart pick picks => _ ← Start pick picks; mret tt
  | OpStop picks => Stop picks
  | OpClosed => _ ← Closed; mret tt
  | OpMessages => _ ← Messages; mret tt
  | OpResetOffset cluster topic partition offsetRange =>
      _ ← ResetOffset cluster topic partition offsetRange; mret tt
  | OpMergeDLQ topic offsetRanges pick =>
      _ ← MergeDLQ topic offsetRanges pick; mret tt
  end.

Fixpoint run (ops : list Op) : M unit :=
  match ops with
  | [] => mret tt
  | op :: rest => exec op;; run rest
  end.

(** The construction inputs are valid when every consumer and client in
    the maps is a live object. *)
Definition valid_inputs (clusterConsumerMap saramaClients : gmap string loc)
    (e : Env) : Prop :=
  map_Forall (λ _ cc, is_Some (e_consumers e !! cc)) clusterConsumerMap
  ∧ map_Forall (λ _ cl, is_Some (e_clients e !! cl)) saramaClients.

(** The states of a coordinator in use: constructed from valid inputs,
    then any calls of its methods. The per-cluster consumers and the
    clients run on their own, so their states may change between two
    calls; the objects stay the same. *)
Inductive Reachable : World → Prop :=
  | reach_new groupName topics ccm scm msgC scope logger e :
      valid_inputs ccm scm e →
      Reachable (NewMultiClusterConsumer groupName topics ccm scm msgC scope logger e)
  | reach_call w op w' :
      Reachable w → exec op w = Some (tt, w') → Reachable w'
  | reach_env w ccs cls :
      Reachable w →
      dom ccs = dom (consumers w) → dom cls = dom (clients w) →
      Reachable (set_clients cls (set_consumers ccs w)).

(** *** Vocabulary of the specifications *)

(** Every consumer and client registered in the coordinator's maps is a
    live object. *)
Definition consumers_live (w : World) : Prop :=
  map_Forall (λ _ cc, is_Some (consumers w !! cc)) (clusterConsumerMap (coord w)).

Definition live_refs (w : World) : Prop :=
  consumers_live w
  ∧ map_Forall (λ _ cl, is_Some (clients w !! cl))
      (clusterToSaramaClientMap (coord w)).

(** The phase of the coordinator's guard. *)
Definition phase_of (w : World) : Util.Phase := Util.phase (lifecycle (coord w)).

(** The state of the done-signal channel. *)
Definition done_state (w : World) : option chan_state :=
  sig_chans w !! doneC (coord w).

(** The channels closed by a run of events, in order. *)
Definition closes (evs : list Event) : list chan_ref :=
  omap (λ e, match e with EvClose ch => Some ch | _ => None end) evs.

(** The per-cluster consumers started by a run of events, with what each
    start returned. *)
Definition starts (evs : list Event) : list (loc * option error) :=
  omap (λ e, match e with EvConsumerStart cc r => Some (cc, r) | _ => None end) evs.

(** The per-cluster consumers stopped by a run of events. *)
Definition stops (evs : list Event) : list loc :=
  omap (λ e, match e with EvConsumerStop cc => Some cc | _ => None end) evs.

(** The effect of a step that only drives per-cluster consumers: their
    states may change, [evs] is appended to the trace, all else stays. *)
Definition drives_consumers (w w' : World) (evs : list Event) : Prop :=
  coord w' = coord w
  ∧ dom (consumers w') = dom (consumers w)
  ∧ clients w' = clients w
  ∧ msg_chans w' = msg_chans w
  ∧ sig_chans w' = sig_chans w
  ∧ calls w' = calls w
  ∧ trace w' = trace w ++ evs.

(** The same for a step that only drives sarama clients. *)
Definition drives_clients (w w' : World) (evs : list Event) : Prop :=
  coord w' = coord w
  ∧ consumers w' = consumers w
  ∧ dom (clients w') = dom (clients w)
  ∧ msg_chans w' = msg_chans w
  ∧ sig_chans w' = sig_chans w
  ∧ calls w' = calls w
  ∧ trace w' = trace w ++ evs.

(** The coordinator [c] with its guard moved to the phase [ph]. *)
Definition in_phase (ph : Util.Phase) (c : MultiClusterConsumer)
    : MultiClusterConsumer :=
  set_guard (Util.to_phase ph (lifecycle c)) c.

(** The phases in which the guard lets [Stop] run the teardown. *)
Definition tears_down (ph : Util.Phase) : bool :=
  match ph with
  | Util.Starting | Util.Running => true
  | _ => false
  end.

(** How the loop of [Start] went, for the iteration order [order]: the
    consumers are started in that order; the loop returns nil when every
    start returned nil, and otherwise the error of the first start that
    failed, after which no further consumer is started. *)
Definition start_outcome (order : list (string * loc)) (ret : option error)
    (evs : list Event) : Prop :=
  match ret with
  | None => starts evs = map (λ np, (np.2, None)) order
  | Some e =>
      ∃ pre np post,
        order = pre ++ np :: post
        ∧ starts evs = map (λ np, (np.2, None)) pre ++ [(np.2, Some e)]
  end.

(** The events of the teardown: the stops in the order [o1], the closes
    of the clients in the order [o2] with the results [rets], the close
    of the done-signal, the log line and the counter. *)
Definition teardown_events (c : MultiClusterConsumer)
    (o1 o2 : list (string * loc)) (rets : list (option error)) : list Event :=
  map (λ np, EvConsumerStop np.2) o1
  ++ zip_with (λ np r, EvClientClose np.2 r) o2 rets
  ++ [EvClose (chan_struct (doneC c));
      EvLogInfo (logger c) "multicluster consumer stopped" (groupName c) (topics c);
      EvCounterInc (scope c) KafkaConsumerStopped].

(** [Attempts topic w order rets w']: starting in [w], the calls
    [c.ResetOffset(topic.DLQ.Cluster, topic.DLQ.Name, partition, offsetRange)]
    for the entries of [order], one after the other, return [rets] and
    end in [w']. *)
Inductive Attempts (topic : ConsumerTopic)
  : World → list (Z * OffsetRange) → list (option error) → World → Prop :=
  | attempts_nil w : Attempts topic w [] [] w
  | attempts_cons w partition offsetRange rest r w1 rets w2 :
    ResetOffset (Cluster (DLQ topic)) (Kafka.Name (DLQ topic))
      partition offsetRange w = Some (r, w1) →
    Attempts topic w1 rest rets w2 →
    Attempts topic w ((partition, offsetRange) :: rest) (r :: rets) w2.

(** The formatted failures among the attempts. *)
Definition failures (order : list (Z * OffsetRange)) (rets : list (option error))
    : list string :=
  omap (λ a, partition_failure a.1.1 <$> a.2) (zip order rets).

(** What holds between any two calls on a coordinator in use. *)
Definition Inv (w : World) : Prop :=
  live_refs w
  ∧ match phase_of w with
    | Util.NotStarted | Util.Running =>
        done_state w = Some ch_open ∧ closes (trace w) = []
    | Util.Stopped =>
        done_state w = Some ch_closed
        ∧ closes (trace w) = [chan_struct (doneC (coord w))]
        ∧ CallStop ∈ calls w
        ∧ map_Forall (λ _ cc, cc ∈ stops (trace w)) (clusterConsumerMap (coord w))
    | Util.Starting | Util.Stopping => False
    end.

(** What a call leaves untouched when it changes nothing of the
    coordinator: its fields (the guard included), the clients and every
    channel. *)
Definition same_coordinator (w w' : World) : Prop :=
  coord w' = coord w
  ∧ clients w' = clients w
  ∧ msg_chans w' = msg_chans w
  ∧ sig_chans w' = sig_chans w.

(** *** Vocabulary of the further properties *)

(** The object at [l] is a value of the map [m]. *)
Definition registered (m : gmap string loc) (l : loc) : Prop :=
  ∃ name, m !! name = Some l.

(** The counters incremented by a run of events. *)
Definition counters (evs : list Event) : list Metric :=
  omap (λ e, match e with EvCounterInc _ m => Some m | _ => None end) evs.

(** The sarama clients closed by a run of events. *)
Definition client_closes (evs : list Event) : list loc :=
  omap (λ e, match e with EvClientClose cl _ => Some cl | _ => None end) evs.

(** No object is a value of the map [m] under two keys. *)
Definition one_name_each (m : gmap string loc) : Prop :=
  ∀ name1 name2 l, m !! name1 = Some l → m !! name2 = Some l → name1 = name2.

(** A step from [w] to [w'] that appends [evs] to the trace and can change
    no more than the states of the consumers [ccs] and of the clients
    [cls]. *)
Definition touches (ccs cls : list loc) (w w' : World) (evs : list Event) : Prop :=
  coord w' = coord w
  ∧ (∀ cc, cc ∉ ccs → consumers w' !! cc = consumers w !! cc)
  ∧ (∀ cl, cl ∉ cls → clients w' !! cl = clients w !! cl)
  ∧ msg_chans w' = msg_chans w
  ∧ sig_chans w' = sig_chans w
  ∧ calls w' = calls w
  ∧ trace w' = trace w ++ evs.

(** A run of events that consists of offset resets only. *)
Definition only_resets (evs : list Event) : Prop :=
  Forall (λ e, match e with
               | EvConsumerResetOffset _ _ _ _ _ => True
               | _ => False
               end) evs.

(** From [w] to [w'] nothing has happened to what the coordinator does not
    own: the consumers and clients that are not in its maps, the signal
    channels other than its done-signal, and the message channels; and the
    coordinator's fields are the same, the phase of the guard apart. *)
Definition untouched (w w' : World) : Prop :=
  coord w' = in_phase (phase_of w') (coord w)
  ∧ (∀ cc, ¬ registered (clusterConsumerMap (coord w)) cc →
           consumers w' !! cc = consumers w !! cc)
  ∧ (∀ cl, ¬ registered (clusterToSaramaClientMap (coord w)) cl →
           clients w' !! cl = clients w !! cl)
  ∧ (∀ ch, ch ≠ doneC (coord w) → sig_chans w' !! ch = sig_chans w !! ch)
  ∧ msg_chans w' = msg_chans w.

(** The events of the loop of [Start] over [order] that returns [ret]: the
    successful starts, and for an error the failed start and the error
    line with the name of its cluster. *)
Definition start_loop_events (c : MultiClusterConsumer)
    (order : list (string * loc)) (ret : option error) (evs : list Event) : Prop :=
  match ret with
  | None => evs = map (λ np, EvConsumerStart np.2 None) order
  | Some e =>
      ∃ pre np post,
        order = pre ++ np :: post
        ∧ evs = map (λ np, EvConsumerStart np.2 None) pre
                ++ [EvConsumerStart np.2 (Some e);
                    EvLogError (logger c) "multicluster consumer start error" e np.1]
  end.

(** The account of a coordinator's life, by the phase of its guard: which
    consumers have been started and stopped, which clients closed and
    which counters incremented since construction. *)
Definition accounted (w : World) : Prop :=
  match phase_of w with
  | Util.NotStarted =>
      starts (trace w) = [] ∧ stops (trace w) = []
      ∧ client_closes (trace w) = [] ∧ counters (trace w) = []
  | Util.Running =>
      (∃ order, order ≡ₚ map_to_list (clusterConsumerMap (coord w))
                ∧ starts (trace w) = map (λ np, (np.2, None)) order)
      ∧ stops (trace w) = [] ∧ client_closes (trace w) = []
      ∧ counters (trace w) = [KafkaConsumerStarted]
  | Util.Stopped =>
      (∃ order, order ≡ₚ map_to_list (clusterConsumerMap (coord w))
                ∧ (starts (trace w) = map (λ np, (np.2, None)) order
                   ∧ counters (trace w) = [KafkaConsumerStarted; KafkaConsumerStopped]
                   ∨ ∃ pre np post e,
                       order = pre ++ np :: post
                       ∧ starts (trace w)
                           = map (λ np, (np.2, None)) pre ++ [(np.2, Some e)]
                       ∧ counters (trace w) = [KafkaConsumerStopped]))
      ∧ (∃ o1, o1 ≡ₚ map_to_list (clusterConsumerMap (coord w))
               ∧ stops (trace w) = o1.*2)
      ∧ (∃ o2, o2 ≡ₚ map_to_list (clusterToSaramaClientMap (coord w))
               ∧ client_closes (trace w) = o2.*2)
  | Util.Starting | Util.Stopping => False
  end.

End Coordinator.

End Consumer.

(** ** Test doubles

    The mock per-cluster consumer of the package's tests: [startErr] is what
    [Start] returns, and the offset reset fails on the partitions listed in
    [resetFails]. The mock sarama client fails to close. *)

Module Mock.

Import Kafka Consumer.

Record mockConsumer := {
  startErr : option error;
  resetFails : list Z;
  started : bool;
  stopped : bool;
  }.

Definition collaborators : Collaborators :=
  {| OffsetRange := Z * Z;
     ClusterConsumer := mockConsumer;
     cc_Start := λ s,
       (startErr s,
        {| startErr := startErr s; resetFails := resetFails s;
           started := true; stopped := stopped s |});
     cc_Stop := λ s,
       {| startErr := startErr s; resetFails := resetFails s;
          started := started s; stopped := true |};
     cc_ResetOffset := λ _ partition _ s,
       (if bool_decide (partition ∈ resetFails s)
        then Some (errors_New "reset failed") else None, s);
     SaramaClient := bool;
     client_Close := λ _, (Some (errors_New "close failed"), true) |}.

#[local] Existing Instance collaborators.

(** [newMockConsumer] with no start error, whose reset fails on
    partition 1. *)
Definition cc1 : mockConsumer :=
  {| startErr := None; resetFails := [1%Z]; started := false; stopped := false |}.

(** [newMockConsumer] with [startErr = errors.New("error")]. *)
Definition cc2 : mockConsumer :=
  {| startErr := Some (errors_New "error"); resetFails := [];
     started := false; stopped := false |}.

Definition env : Env :=
  {| e_consumers := {[ 1%positive := cc1; 2%positive := cc2 ]};
     e_clients := {[ 1%positive := false ]};
     e_msg_chans := {[ 1%positive := ch_open ]};
     e_sig_chans := ∅ |}.

Definition topic : ConsumerTopic :=
  {| Topic_ := {| Kafka.Name := "unit-test"; Cluster := "production-cluster";
                  BrokerList := None |};
     DLQ := {| Kafka.Name := "unit-test-dlq"; Cluster := "dlq-cluster";
               BrokerList := None |} |}.

(** A coordinator over the two mock consumers, [cc2] failing to start;
    [cc1] also serves the DLQ cluster. *)
Definition two : World :=
  NewMultiClusterConsumer "unit-test-cg" [topic]
    {[ "cc1" := 1%positive; "cc2" := 2%positive; "dlq-cluster" := 1%positive ]}
    {[ "cc1" := 1%positive ]} 1%positive 1%positive 1%positive env.

(** A coordinator over [cc1] alone. *)
Definition one : World :=
  NewMultiClusterConsumer "unit-test-cg" [topic]
    {[ "cc1" := 1%positive ]} {[ "cc1" := 1%positive ]}
    1%positive 1%positive 1%positive env.

(** A coordinator with no cluster at all. *)
Definition none : World :=
  NewMultiClusterConsumer "unit-test-cg" [topic] ∅ ∅
    1%positive 1%positive 1%positive env.

(** The runtime follows the canonical order of iteration. *)
Definition canonical : Picks := {| pick_consumers := []; pick_clients := [] |}.

(** Offset ranges for the partitions 0, 1 and 2. *)
Definition ranges : gmap Z (Z * Z) :=
  {[ 0%Z := (0, 10)%Z; 1%Z := (5, 6)%Z; 2%Z := (7, 9)%Z ]}.

(** The state in which the calls [ops] leave [w]. *)
Definition after (ops : list Op) (w : World) : World :=
  match run ops w with
  | Some (_, w') => w'
  | None => w
  end.

(** [one] after a [Start()], which succeeds. *)
Definition running : World := after [OpStart [] canonical] one.

(** [two] after a [Start()], which fails on [cc2]. *)
Definition failed : World := after [OpStart [] canonical] two.

(** A coordinator over the two mock consumers, each under its own name
    only, [cc2] failing to start. *)
Definition pair : World :=
  NewMultiClusterConsumer "unit-test-cg" [topic]
    {[ "cc1" := 1%positive; "cc2" := 2%positive ]}
    {[ "cc1" := 1%positive ]} 1%positive 1%positive 1%positive env.

(** A heap with one error list, naming one topic that could not be
    consumed, and no option yet. *)
Definition heap : KafkaClient.Heap (ConsumerError := string) :=
  {| KafkaClient.h_partial := ∅;
     KafkaClient.h_lists := {[ 1%positive := {| KafkaClient.cel_errs := Some ["unit-test"] |} ]} |}.

(** The option returned by [EnablePartialConstruction()] in that heap, with
    the heap it leaves. *)
Definition enable : KafkaClient.ConsumerOption (OtherOption := unit) * KafkaClient.Heap :=
  KafkaClient.EnablePartialConstruction heap.

(** The options of a caller: a nil option, the one returned by
    [EnablePartialConstruction()] and an option of another type. *)
Definition options : list (KafkaClient.ConsumerOption (OtherOption := unit)) :=
  [KafkaClient.option_nil; enable.1; KafkaClient.option_other tt].

End Mock.

(** * Properties *)

(** ** Iteration orders and strings *)

Section GoFacts.

Context `{Countable K} {V : Type} `{EqDecision V}.

(** Whatever the oracle says, a [range] loop visits exactly the entries of
    the map, each once. *)
Lemma range_order_perm (m : gmap K V) pick : range_order m pick ≡ₚ map_to_list m.
Proof. unfold range_order. by case_decide. Qed.

(** Every ordering of the entries is the order of some iteration. *)
Lemma range_order_exact (m : gmap K V) pick :
  pick ≡ₚ map_to_list m → range_order m pick = pick.
Proof. intros Hp. unfold range_order. by case_decide. Qed.

Lemma range_order_elem (m : gmap K V) pick k v :
  (k, v) ∈ range_order m pick ↔ m !! k = Some v.
Proof. rewrite (range_order_perm m pick). apply elem_of_map_to_list. Qed.

Lemma range_order_empty pick : range_order (∅ : gmap K V) pick = [].
Proof.
  apply Permutation_nil_r. rewrite range_order_perm. by rewrite map_to_list_empty.
Qed.

Lemma range_order_Forall (P : K → V → Prop) (m : gmap K V) pick :
  map_Forall P m → Forall (λ kv, P kv.1 kv.2) (range_order m pick).
Proof.
  intros Hm. apply Forall_forall. intros [k v] Hin.
  apply range_order_elem in Hin. by apply Hm in Hin.
Qed.

End GoFacts.

Lemma string_app_assoc (s t u : string) : (s +:+ t) +:+ u = s +:+ t +:+ u.
Proof.
  induction s as [|c s IH]; [done|].
  change (String c ((s +:+ t) +:+ u) = String c (s +:+ t +:+ u)).
  by rewrite IH.
Qed.

Lemma string_app_nil_r (s : string) : s +:+ "" = s.
Proof.
  induction s as [|c s IH]; [done|].
  change (String c (s +:+ "") = String c s). by rewrite IH.
Qed.

Lemma contains_refl s : contains s s.
Proof. exists "", "". cbn. by rewrite string_app_nil_r. Qed.

Lemma contains_app_l t u s : contains t s → contains (t +:+ u) s.
Proof.
  intros (pre & post & ->). exists pre, (post +:+ u).
  by rewrite !string_app_assoc.
Qed.

Lemma contains_app_r t u s : contains u s → contains (t +:+ u) s.
Proof.
  intros (pre & post & ->). exists (t +:+ pre), post.
  by rewrite !string_app_assoc.
Qed.

(** Joining puts every element into the result. *)
Lemma strings_Join_contains elems sep s :
  s ∈ elems → contains (strings_Join elems sep) s.
Proof.
  induction elems as [|x [|y rest] IH]; intros Hin.
  - by apply elem_of_nil in Hin.
  - apply list_elem_of_singleton in Hin as ->. apply contains_refl.
  - apply elem_of_cons in Hin as [->|Hin].
    + change (contains (x +:+ sep +:+ strings_Join (y :: rest) sep) x).
      apply contains_app_l, contains_refl.
    + change (contains (x +:+ sep +:+ strings_Join (y :: rest) sep) s).
      by apply contains_app_r, contains_app_r, IH.
Qed.

(** ** consumerOptions.go *)

Section OptionsFacts.

Import KafkaClient.
Context {ConsumerError OtherOption : Type}.
#[local] Abbreviation EnablePartialConstruction :=
  (@EnablePartialConstruction ConsumerError OtherOption).
#[local] Abbreviation PartialConstructionError :=
  (@PartialConstructionError ConsumerError OtherOption).

(** The option returned by [EnablePartialConstruction] is a live
    [partialConstruction] with the toggle set and no error list. *)
Lemma EnablePartialConstruction_spec h :
  ∃ p, (EnablePartialConstruction h).1 = option_partialConstruction (Some p)
     ∧ h_partial h !! p = None
     ∧ h_partial (EnablePartialConstruction h).2 !! p
         = Some {| enabled := true; errs := None |}.
Proof.
  exists (fresh (dom (h_partial h))). split; [done|]. split.
  - apply not_elem_of_dom, is_fresh.
  - cbn. apply lookup_insert_eq.
Qed.

(** An option that is not a [*partialConstruction] yields the nil slice. *)
Lemma PartialConstructionError_unrelated h option :
  (∀ p, option ≠ option_partialConstruction p) →
  PartialConstructionError h option = Returns None.
Proof. intros Hne. destruct option; [done| |done]. by destruct (Hne p). Qed.

(** Once an error list is attached, the accessor returns its entries. *)
Lemma PartialConstructionError_attached h p pe l el :
  h_partial h !! p = Some pe → errs pe = Some l → h_lists h !! l = Some el →
  PartialConstructionError h (option_partialConstruction (Some p))
    = Returns (cel_errs el).
Proof. intros Hp He Hl. cbn. by rewrite Hp, He, Hl. Qed.

(** [addPartialConstructionError] attaches the list to a partial-construction
    option, after which the accessor returns the entries of the list. *)
Lemma PartialConstructionError_after_add h p pe l el :
  h_partial h !! p = Some pe → h_lists h !! l = Some el →
  ∃ h', addPartialConstructionError
          [@option_partialConstruction OtherOption (Some p)] (Some l) h
          = Returns h'
      ∧ PartialConstructionError h' (option_partialConstruction (Some p))
          = Returns (cel_errs el).
Proof.
  intros Hp Hl. eexists. cbn. rewrite Hp. split; [done|].
  cbn. rewrite lookup_insert_eq. cbn. by rewrite Hl.
Qed.

(** C9. [PartialConstructionError] called on the option that
    [EnablePartialConstruction()] has just returned, to which no error
    list has been attached yet, does not return: [pe.errs] is nil and
    reading [pe.errs.errs] panics. This holds in every heap. *)
Theorem PartialConstructionError_fresh_panics h :
  PartialConstructionError (EnablePartialConstruction h).2
                           (EnablePartialConstruction h).1 = Panics.
Proof.
  destruct (EnablePartialConstruction_spec h) as (p & -> & _ & Hp).
  cbn [PartialConstructionError mbind option_bind].
  by rewrite Hp.
Qed.

End OptionsFacts.

(** ** multiclusterConsumer.go *)

Section CoordinatorFacts.

Import Kafka Consumer.
Context `{K : Collaborators}.

Ltac munfold := unfold mbind, M_bind, bind, mret, M_ret, ret, self, emit, called.

(** *** Steps that drive the collaborators *)

Lemma drives_consumers_refl w : drives_consumers w w [].
Proof. unfold drives_consumers. by rewrite app_nil_r. Qed.

Lemma drives_consumers_trans w1 w2 w3 evs1 evs2 :
  drives_consumers w1 w2 evs1 → drives_consumers w2 w3 evs2 →
  drives_consumers w1 w3 (evs1 ++ evs2).
Proof.
  intros (?&?&?&?&?&?&Ht1) (?&?&?&?&?&?&Ht2). unfold drives_consumers.
  rewrite Ht2, Ht1, app_assoc. repeat split; congruence.
Qed.

Lemma drives_clients_refl w : drives_clients w w [].
Proof. unfold drives_clients. by rewrite app_nil_r. Qed.

Lemma drives_clients_trans w1 w2 w3 evs1 evs2 :
  drives_clients w1 w2 evs1 → drives_clients w2 w3 evs2 →
  drives_clients w1 w3 (evs1 ++ evs2).
Proof.
  intros (?&?&?&?&?&?&Ht1) (?&?&?&?&?&?&Ht2). unfold drives_clients.
  rewrite Ht2, Ht1, app_assoc. repeat split; congruence.
Qed.

Lemma drives_consumers_event w w' e evs :
  coord w' = coord w → dom (consumers w') = dom (consumers w) →
  clients w' = clients w → msg_chans w' = msg_chans w →
  sig_chans w' = sig_chans w → calls w' = calls w →
  trace w' = trace w ++ evs →
  drives_consumers w (add_event e w') (evs ++ [e]).
Proof.
  intros ?????? Ht. unfold drives_consumers. cbn. rewrite Ht, app_assoc.
  done.
Qed.

Lemma live_after (m m' : gmap loc ClusterConsumer) (cc : loc) :
  dom m' = dom m → is_Some (m !! cc) → is_Some (m' !! cc).
Proof. intros Hd. rewrite <-!elem_of_dom. by rewrite Hd. Qed.

Lemma consumers_live_after w w' :
  clusterConsumerMap (coord w') = clusterConsumerMap (coord w) →
  dom (consumers w') = dom (consumers w) →
  consumers_live w → consumers_live w'.
Proof.
  intros Hc Hd Hlive. unfold consumers_live. rewrite Hc.
  eapply map_Forall_impl; [exact Hlive|]. intros ? cc. cbn. by apply live_after.
Qed.

Lemma live_refs_after w w' :
  clusterConsumerMap (coord w') = clusterConsumerMap (coord w) →
  clusterToSaramaClientMap (coord w') = clusterToSaramaClientMap (coord w) →
  dom (consumers w') = dom (consumers w) →
  dom (clients w') = dom (clients w) →
  live_refs w → live_refs w'.
Proof.
  intros Hc Hc' Hd Hd' [H1 H2]. split; [by eapply consumers_live_after|].
  rewrite Hc'. eapply map_Forall_impl; [exact H2|]. intros ? cl. cbn.
  rewrite <-!elem_of_dom. by rewrite Hd'.
Qed.

Lemma ClusterConsumer_Start_spec cc w :
  is_Some (consumers w !! cc) →
  ∃ r w', ClusterConsumer_Start cc w = Some (r, w')
        ∧ drives_consumers w w' [EvConsumerStart cc r].
Proof.
  intros [s Hs]. unfold ClusterConsumer_Start. rewrite Hs.
  eexists _, _. split; [done|].
  unfold drives_consumers. cbn. split_and!; try done.
  apply dom_insert_lookup_L. by exists s.
Qed.

Lemma ClusterConsumer_Stop_spec cc w :
  is_Some (consumers w !! cc) →
  ∃ w', ClusterConsumer_Stop cc w = Some (tt, w')
      ∧ drives_consumers w w' [EvConsumerStop cc].
Proof.
  intros [s Hs]. unfold ClusterConsumer_Stop. rewrite Hs.
  eexists. split; [done|].
  unfold drives_consumers. cbn. split_and!; try done.
  apply dom_insert_lookup_L. by exists s.
Qed.

Lemma ClusterConsumer_ResetOffset_spec cc topic partition offsetRange w s :
  consumers w !! cc = Some s →
  ∃ w', ClusterConsumer_ResetOffset cc topic partition offsetRange w
          = Some ((cc_ResetOffset topic partition offsetRange s).1, w')
      ∧ drives_consumers w w'
          [EvConsumerResetOffset cc topic partition offsetRange
             (cc_ResetOffset topic partition offsetRange s).1].
Proof.
  intros Hs. unfold ClusterConsumer_ResetOffset. rewrite Hs.
  eexists. split; [done|].
  unfold drives_consumers. cbn. split_and!; try done.
  apply dom_insert_lookup_L. by exists s.
Qed.

Lemma Client_Close_spec cl w :
  is_Some (clients w !! cl) →
  ∃ r w', Client_Close cl w = Some (r, w')
        ∧ drives_clients w w' [EvClientClose cl r].
Proof.
  intros [s Hs]. unfold Client_Close. rewrite Hs.
  eexists _, _. split; [done|].
  unfold drives_clients. cbn. split_and!; try done.
  apply dom_insert_lookup_L. by exists s.
Qed.

(** *** The loops *)

Lemma Start_range_spec order : ∀ w,
  Forall (λ np, is_Some (consumers w !! np.2)) order →
  ∃ ret w' evs, Start_range order w = Some (ret, w')
    ∧ drives_consumers w w' evs
    ∧ closes evs = [] ∧ stops evs = []
    ∧ start_outcome order ret evs.
Proof.
  induction order as [|[clusterName cc] rest IH]; intros w Hlive.
  - exists None, w, []. split; [done|]. split; [apply drives_consumers_refl|done].
  - apply Forall_cons in Hlive as [Hcc Hrest]. cbn in Hcc.
    destruct (ClusterConsumer_Start_spec cc w Hcc) as (r & w1 & Hrun & Hd1).
    cbn [Start_range]. munfold. rewrite Hrun. destruct r as [e|].
    + eexists (Some e), _, _. split; [done|]. split.
      { destruct Hd1 as (?&?&?&?&?&?&?). by apply drives_consumers_event. }
      split; [done|]. split; [done|].
      exists [], (clusterName, cc), rest. done.
    + destruct (IH w1) as (ret & w2 & evs & Hrun2 & Hd2 & Hcl & Hst & Hout).
      { eapply Forall_impl; [exact Hrest|]. intros np. cbn.
        destruct Hd1 as (_&Hdom&_). by apply live_after. }
      exists ret, w2, ([EvConsumerStart cc None] ++ evs).
      split; [done|]. split; [by eapply drives_consumers_trans|].
      split; [done|]. split; [done|].
      destruct ret as [e|]; unfold start_outcome in *;
        change (starts ([EvConsumerStart cc None] ++ evs))
          with ((cc, None : option error) :: starts evs).
      * destruct Hout as (pre & np & post & -> & Hs).
        exists ((clusterName, cc) :: pre), np, post. split; [done|].
        by rewrite Hs.
      * by rewrite Hout.
Qed.

Lemma Stop_range_consumers_spec order : ∀ w,
  Forall (λ np, is_Some (consumers w !! np.2)) order →
  ∃ w', Stop_range_consumers order w = Some (tt, w')
    ∧ drives_consumers w w' (map (λ np, EvConsumerStop np.2) order).
Proof.
  induction order as [|[clusterName cc] rest IH]; intros w Hlive.
  - exists w. split; [done|]. apply drives_consumers_refl.
  - apply Forall_cons in Hlive as [Hcc Hrest]. cbn in Hcc.
    destruct (ClusterConsumer_Stop_spec cc w Hcc) as (w1 & Hrun & Hd1).
    destruct (IH w1) as (w2 & Hrun2 & Hd2).
    { eapply Forall_impl; [exact Hrest|]. intros np. cbn.
      destruct Hd1 as (_&Hdom&_). by apply live_after. }
    exists w2. cbn [Stop_range_consumers]. munfold. rewrite Hrun.
    split; [done|].
    by apply (drives_consumers_trans _ _ _ [_] _ Hd1).
Qed.

Lemma live_after_clients (m m' : gmap loc SaramaClient) (cl : loc) :
  dom m' = dom m → is_Some (m !! cl) → is_Some (m' !! cl).
Proof. intros Hd. rewrite <-!elem_of_dom. by rewrite Hd. Qed.

Lemma Stop_range_clients_spec order : ∀ w,
  Forall (λ np, is_Some (clients w !! np.2)) order →
  ∃ w' rets, Stop_range_clients order w = Some (tt, w')
    ∧ length rets = length order
    ∧ drives_clients w w' (zip_with (λ np r, EvClientClose np.2 r) order rets).
Proof.
  induction order as [|[clusterName cl] rest IH]; intros w Hlive.
  - exists w, []. split; [done|]. split; [done|]. apply drives_clients_refl.
  - apply Forall_cons in Hlive as [Hcl Hrest]. cbn in Hcl.
    destruct (Client_Close_spec cl w Hcl) as (r & w1 & Hrun & Hd1).
    destruct (IH w1) as (w2 & rets & Hrun2 & Hlen & Hd2).
    { eapply Forall_impl; [exact Hrest|]. intros np. cbn.
      destruct Hd1 as (_&_&Hdom&_). by apply live_after_clients. }
    exists w2, (r :: rets). cbn [Stop_range_clients]. munfold. rewrite Hrun.
    split; [done|]. split; [cbn; by rewrite Hlen|].
    by apply (drives_clients_trans _ _ _ [_] _ Hd1).
Qed.


(** *** The teardown *)

Lemma Stop_body_spec picks w :
  live_refs w → done_state w = Some ch_open →
  ∃ w' rets,
    Stop_body picks w = Some (tt, w')
    ∧ length rets
        = length (range_order (clusterToSaramaClientMap (coord w)) (pick_clients picks))
    ∧ coord w' = coord w
    ∧ dom (consumers w') = dom (consumers w)
    ∧ dom (clients w') = dom (clients w)
    ∧ msg_chans w' = msg_chans w
    ∧ sig_chans w' = <[doneC (coord w) := ch_closed]> (sig_chans w)
    ∧ calls w' = calls w
    ∧ trace w' = trace w ++ teardown_events (coord w)
        (range_order (clusterConsumerMap (coord w)) (pick_consumers picks))
        (range_order (clusterToSaramaClientMap (coord w)) (pick_clients picks))
        rets.
Proof.
  intros [Hcc Hcl] Hopen.
  set (o1 := range_order (clusterConsumerMap (coord w)) (pick_consumers picks)).
  set (o2 := range_order (clusterToSaramaClientMap (coord w)) (pick_clients picks)).
  destruct (Stop_range_consumers_spec o1 w) as (w1 & Hrun1 & Hd1).
  { by apply (range_order_Forall (λ _ cc, is_Some (consumers w !! cc))). }
  destruct Hd1 as (Hc1 & Hdom1 & Hcl1 & Hm1 & Hs1 & Hk1 & Ht1).
  destruct (Stop_range_clients_spec o2 w1) as (w2 & rets & Hrun2 & Hlen & Hd2).
  { rewrite Hcl1.
    by apply (range_order_Forall (λ _ cl, is_Some (clients w !! cl))). }
  destruct Hd2 as (Hc2 & Hdom2 & Hcl2 & Hm2 & Hs2 & Hk2 & Ht2).
  unfold done_state in Hopen.
  eexists _, rets. split.
  { unfold Stop_body. munfold. cbn -[range_order].
    fold o1. rewrite Hrun1. rewrite Hc1. fold o2. rewrite Hrun2.
    unfold close. rewrite Hs2, Hs1, Hc2, Hc1, Hopen. done. }
  cbn. rewrite ?Hc2, ?Hc1, ?Hdom2, ?Hdom1, ?Hcl2, ?Hcl1, ?Hm2, ?Hm1, ?Hs2, ?Hs1,
    ?Hk2, ?Hk1, ?Ht2, ?Ht1.
  split_and!; try done.
  unfold teardown_events. by rewrite <-!app_assoc.
Qed.


Lemma Stop_idle picks w :
  tears_down (phase_of w) = false → Stop picks w = Some (tt, add_call CallStop w).
Proof.
  unfold Stop, Util.Stop, phase_of. munfold.
  by destruct (Util.phase (lifecycle (coord w))).
Qed.

Lemma Stop_tears_down picks w :
  tears_down (phase_of w) = true → live_refs w → done_state w = Some ch_open →
  ∃ w' rets,
    Stop picks w = Some (tt, w')
    ∧ length rets
        = length (range_order (clusterToSaramaClientMap (coord w)) (pick_clients picks))
    ∧ coord w' = in_phase Util.Stopped (coord w)
    ∧ dom (consumers w') = dom (consumers w)
    ∧ dom (clients w') = dom (clients w)
    ∧ msg_chans w' = msg_chans w
    ∧ sig_chans w' = <[doneC (coord w) := ch_closed]> (sig_chans w)
    ∧ calls w' = calls w ++ [CallStop]
    ∧ trace w' = trace w ++ teardown_events (coord w)
        (range_order (clusterConsumerMap (coord w)) (pick_consumers picks))
        (range_order (clusterToSaramaClientMap (coord w)) (pick_clients picks))
        rets.
Proof.
  intros Hph Hlive Hopen.
  destruct (Stop_body_spec picks
              (set_lifecycle (Util.to_phase Util.Stopping (lifecycle (coord w))) w))
    as (w1 & rets & Hrun & Hlen & Hc & Hdc & Hdl & Hm & Hs & Hk & Ht); [done..|].
  cbn in Hlen, Hc, Hdc, Hdl, Hm, Hs, Hk, Ht.
  assert (Hstop : Stop picks w = Some (tt, add_call CallStop
            (set_lifecycle (Util.to_phase Util.Stopped (lifecycle (coord w1))) w1))).
  { unfold Stop, Util.Stop. munfold. unfold phase_of in Hph.
    destruct (Util.phase (lifecycle (coord w))); try discriminate Hph;
      by rewrite Hrun. }
  eexists _, rets. split; [exact Hstop|].
  cbn. rewrite Hc, Hk. split_and!; done.
Qed.

Lemma Start_body_spec pick w :
  live_refs w →
  ∃ ret w' evs, Start_body pick w = Some (ret, w')
    ∧ drives_consumers w w' evs
    ∧ closes evs = [] ∧ stops evs = []
    ∧ start_outcome (range_order (clusterConsumerMap (coord w)) pick) ret evs.
Proof.
  intros [Hcc _]. unfold Start_body. munfold. cbn -[range_order].
  apply Start_range_spec.
  by apply (range_order_Forall (λ _ cc, is_Some (consumers w !! cc))).
Qed.

(** [Start] on a coordinator that was started before: the guard refuses,
    and the coordinator is stopped. *)
Lemma Start_refused pick picks w :
  phase_of w ≠ Util.NotStarted →
  Start pick picks w
    = match Stop picks w with
      | Some (_, w') => Some (Some Util.errNotStartedTwice, w')
      | None => None
      end.
Proof.
  intros Hph. unfold Start, Util.Start, phase_of in *. munfold.
  destruct (Util.phase (lifecycle (coord w))); try done;
    by destruct (Stop picks w) as [[[] ?]|].
Qed.

(** [Start] on a coordinator that was not started before. *)
Lemma Start_fresh pick picks w :
  phase_of w = Util.NotStarted → live_refs w → done_state w = Some ch_open →
  ∃ ret w' evs,
    Start pick picks w = Some (ret, w')
    ∧ closes evs = [] ∧ stops evs = []
    ∧ start_outcome (range_order (clusterConsumerMap (coord w)) pick) ret evs
    ∧ dom (consumers w') = dom (consumers w)
    ∧ dom (clients w') = dom (clients w)
    ∧ msg_chans w' = msg_chans w
    ∧ match ret with
      | None =>
          coord w' = in_phase Util.Running (coord w)
          ∧ sig_chans w' = sig_chans w
          ∧ calls w' = calls w
          ∧ trace w' = trace w ++ evs
              ++ [EvLogInfo (logger (coord w)) "multicluster consumer started"
                    (groupName (coord w)) (topics (coord w));
                  EvCounterInc (scope (coord w)) KafkaConsumerStarted]
      | Some e =>
          ∃ rets,
            length rets
              = length (range_order (clusterToSaramaClientMap (coord w))
                          (pick_clients picks))
            ∧ coord w' = in_phase Util.Stopped (coord w)
            ∧ sig_chans w' = <[doneC (coord w) := ch_closed]> (sig_chans w)
            ∧ calls w' = calls w ++ [CallStop]
            ∧ trace w' = trace w ++ evs ++ teardown_events (coord w)
                (range_order (clusterConsumerMap (coord w)) (pick_consumers picks))
                (range_order (clusterToSaramaClientMap (coord w)) (pick_clients picks))
                rets
      end.
Proof.
  intros Hph Hlive Hopen.
  set (w0 := set_lifecycle (Util.to_phase Util.Starting (lifecycle (coord w))) w).
  destruct (Start_body_spec pick w0) as (ret & w1 & evs & Hrun & Hd & Hcl & Hst & Hout);
    [done|].
  destruct Hd as (Hc & Hdc & Hdl & Hm & Hs & Hk & Ht).
  cbn in Hc, Hdc, Hdl, Hm, Hs, Hk, Ht, Hout.
  assert (Hstart : Util.Start (λ w, lifecycle (coord w)) set_lifecycle
            (Start_body pick) w
          = match ret with
            | None => Some (None, set_lifecycle
                                    (Util.to_phase Util.Running (lifecycle (coord w1))) w1)
            | Some e => Some (Some e, w1)
            end).
  { unfold Util.Start. unfold phase_of in Hph. rewrite Hph. fold w0. rewrite Hrun.
    by destruct ret. }
  destruct ret as [e|].
  - destruct (Stop_tears_down picks w1)
      as (w2 & rets & Hrun2 & Hlen & Hc2 & Hdc2 & Hdl2 & Hm2 & Hs2 & Hk2 & Ht2).
    { unfold phase_of. by rewrite Hc. }
    { eapply live_refs_after; [| | | |exact Hlive]; rewrite ?Hc, ?Hdl; done. }
    { unfold done_state. by rewrite Hs, Hc. }
    exists (Some e), w2, evs. split.
    { unfold Start. munfold. rewrite Hstart, Hrun2. done. }
    rewrite Hc in Hlen, Hc2, Hs2, Ht2.
    split_and!; try done; try congruence.
    exists rets. rewrite Hs2, Hs, Hk2, Hk, Ht2, Ht, <-app_assoc.
    split_and!; done.
  - eexists None, _, evs. split.
    { unfold Start. munfold. rewrite Hstart. cbn. done. }
    cbn. rewrite Hc, Ht, Hdl, <-!app_assoc. split_and!; done.
Qed.


(** *** Offset reset and DLQ merge *)

Lemma ResetOffset_absent cluster topic partition offsetRange w :
  clusterConsumerMap (coord w) !! cluster = None →
  ResetOffset cluster topic partition offsetRange w
    = Some (Some (errors_New "no cluster consumer found"),
            add_call (CallResetOffset cluster topic partition offsetRange) w).
Proof. intros Hm. unfold ResetOffset. munfold. cbn. by rewrite Hm. Qed.

Lemma ResetOffset_present cluster topic partition offsetRange w cc s :
  clusterConsumerMap (coord w) !! cluster = Some cc →
  consumers w !! cc = Some s →
  ResetOffset cluster topic partition offsetRange w
    = Some ((cc_ResetOffset topic partition offsetRange s).1,
            add_event
              (EvConsumerResetOffset cc topic partition offsetRange
                 (cc_ResetOffset topic partition offsetRange s).1)
              (set_consumers
                 (<[cc := (cc_ResetOffset topic partition offsetRange s).2]>
                    (consumers w))
                 (add_call (CallResetOffset cluster topic partition offsetRange) w))).
Proof.
  intros Hm Hs. unfold ResetOffset. munfold. cbn. rewrite Hm.
  unfold ClusterConsumer_ResetOffset. cbn. by rewrite Hs.
Qed.

Lemma ResetOffset_spec cluster topic partition offsetRange w :
  consumers_live w →
  ∃ ret w' evs,
    ResetOffset cluster topic partition offsetRange w = Some (ret, w')
    ∧ drives_consumers
        (add_call (CallResetOffset cluster topic partition offsetRange) w) w' evs
    ∧ closes evs = [] ∧ stops evs = [] ∧ starts evs = [].
Proof.
  intros Hlive.
  destruct (clusterConsumerMap (coord w) !! cluster) as [cc|] eqn:Hm.
  - destruct (Hlive _ _ Hm) as [s Hs].
    eexists _, _, [EvConsumerResetOffset cc topic partition offsetRange
                     (cc_ResetOffset topic partition offsetRange s).1].
    split; [by eapply ResetOffset_present|]. split; [|done].
    unfold drives_consumers. cbn. split_and!; try done.
    apply dom_insert_lookup_L. by exists s.
  - eexists _, _, []. split; [by apply ResetOffset_absent|].
    split; [|done]. apply drives_consumers_refl.
Qed.

Lemma MergeDLQ_range_spec topic order : ∀ errList w,
  consumers_live w →
  ∃ rets w' evs,
    MergeDLQ_range topic order errList w
      = Some (errList ++ failures order rets, w')
    ∧ Attempts topic w order rets w'
    ∧ length rets = length order
    ∧ drives_consumers
        (set_calls (calls w ++ map (λ pr, CallResetOffset (Cluster (DLQ topic))
                                       (Kafka.Name (DLQ topic)) pr.1 pr.2) order) w)
        w' evs
    ∧ closes evs = [] ∧ stops evs = [] ∧ starts evs = [].
Proof.
  induction order as [|[partition offsetRange] rest IH]; intros errList w Hlive.
  - exists [], w, []. cbn. rewrite !app_nil_r. split; [done|].
    split; [constructor|]. split; [done|]. split; [|done].
    destruct w. apply drives_consumers_refl.
  - destruct (ResetOffset_spec (Cluster (DLQ topic)) (Kafka.Name (DLQ topic))
                partition offsetRange w Hlive)
      as (r & w1 & evs1 & Hrun & Hd1 & Hc1 & Hs1 & Hst1).
    assert (Hlive1 : consumers_live w1).
    { destruct Hd1 as (Hc & Hd & _).
      eapply consumers_live_after; [| |exact Hlive]; rewrite ?Hc; done. }
    destruct (IH (errList ++ from_option (λ e, [partition_failure partition e]) [] r)
                w1 Hlive1)
      as (rets & w2 & evs2 & Hrun2 & Hatt & Hlen & Hd2 & Hc2 & Hs2 & Hst2).
    exists (r :: rets), w2, (evs1 ++ evs2). split.
    { cbn [MergeDLQ_range]. munfold. rewrite Hrun.
      destruct r as [e|]; cbn in Hrun2; rewrite ?app_nil_r in Hrun2;
        rewrite Hrun2; cbn; by rewrite <-?app_assoc. }
    split; [by econstructor|]. split; [cbn; by rewrite Hlen|].
    split.
    { destruct Hd1 as (Hc & Hdc & Hdl & Hm & Hs & Hk & Ht).
      destruct Hd2 as (Hc' & Hdc' & Hdl' & Hm' & Hs' & Hk' & Ht').
      cbn in *. unfold drives_consumers. cbn.
      rewrite Hc', Hc, Hdc', Hdc, Hdl', Hdl, Hm', Hm, Hs', Hs, Hk', Hk, Ht', Ht.
      rewrite <-!app_assoc. done. }
    unfold closes, stops, starts in *. rewrite !omap_app.
    by rewrite Hc1, Hc2, Hs1, Hs2, Hst1, Hst2.
Qed.


Lemma MergeDLQ_spec topic offsetRanges pick w :
  consumers_live w →
  ∃ rets w' evs,
    MergeDLQ topic offsetRanges pick w
      = Some (match failures (range_order offsetRanges pick) rets with
              | [] => None
              | fs => Some (fmt_Errorf "DLQ merge failed for " (strings_Join fs ","))
              end, w')
    ∧ Attempts topic w (range_order offsetRanges pick) rets w'
    ∧ length rets = length (range_order offsetRanges pick)
    ∧ drives_consumers
        (set_calls (calls w ++ map (λ pr, CallResetOffset (Cluster (DLQ topic))
                                       (Kafka.Name (DLQ topic)) pr.1 pr.2)
                                (range_order offsetRanges pick)) w)
        w' evs
    ∧ closes evs = [] ∧ stops evs = [] ∧ starts evs = [].
Proof.
  intros Hlive.
  destruct (MergeDLQ_range_spec topic (range_order offsetRanges pick) [] w Hlive)
    as (rets & w' & evs & Hrun & Hrest).
  exists rets, w', evs. split; [|exact Hrest].
  unfold MergeDLQ. munfold. rewrite Hrun. cbn.
  by destruct (failures _ _).
Qed.

Lemma failures_nil_iff order : ∀ rets,
  length rets = length order →
  failures order rets = [] ↔ Forall (λ r, r = None) rets.
Proof.
  unfold failures.
  induction order as [|[p o] rest IH]; intros [|r rets] Hlen; try done.
  cbn in Hlen. injection Hlen as Hlen. cbn. rewrite Forall_cons.
  destruct r as [e|]; cbn.
  - split; [done|]. by intros [? _].
  - rewrite (IH rets Hlen). split; [by intros ?; split|by intros [_ ?]].
Qed.

Lemma failures_elem order : ∀ rets i partition offsetRange e,
  order !! i = Some (partition, offsetRange) → rets !! i = Some (Some e) →
  partition_failure partition e ∈ failures order rets.
Proof.
  unfold failures.
  induction order as [|[p o] rest IH]; intros [|r rets] [|i] partition offsetRange e Ho Hr;
    try done; cbn in *.
  - injection Ho as -> ->. injection Hr as ->. cbn. apply elem_of_cons. by left.
  - destruct r as [e'|]; cbn; [apply elem_of_cons; right|]; by eapply IH.
Qed.

(** *** What the events of the operations stop and close *)

Lemma stops_consumer_stops (o : list (string * loc)) :
  stops (map (λ np, EvConsumerStop np.2) o) = o.*2.
Proof. induction o as [|[n cc] o IH]; [done|]. cbn. by rewrite <-IH. Qed.

Lemma closes_consumer_stops (o : list (string * loc)) :
  closes (map (λ np, EvConsumerStop np.2) o) = [].
Proof. induction o as [|[n cc] o IH]; [done|]. cbn. by rewrite <-IH. Qed.

Lemma stops_client_closes (o : list (string * loc)) : ∀ rets,
  stops (zip_with (λ np r, EvClientClose np.2 r) o rets) = [].
Proof. induction o as [|[n cl] o IH]; intros [|r rets]; try done. cbn. apply IH. Qed.

Lemma closes_client_closes (o : list (string * loc)) : ∀ rets,
  closes (zip_with (λ np r, EvClientClose np.2 r) o rets) = [].
Proof. induction o as [|[n cl] o IH]; intros [|r rets]; try done. cbn. apply IH. Qed.

Lemma stops_teardown c o1 o2 rets : stops (teardown_events c o1 o2 rets) = o1.*2.
Proof.
  unfold teardown_events, stops. rewrite !omap_app.
  fold (stops (map (λ np, EvConsumerStop np.2) o1)).
  fold (stops (zip_with (λ np r, EvClientClose np.2 r) o2 rets)).
  rewrite stops_consumer_stops, stops_client_closes. cbn. by rewrite app_nil_r.
Qed.

Lemma closes_teardown c o1 o2 rets :
  closes (teardown_events c o1 o2 rets) = [chan_struct (doneC c)].
Proof.
  unfold teardown_events, closes. rewrite !omap_app.
  fold (closes (map (λ np, EvConsumerStop np.2) o1)).
  fold (closes (zip_with (λ np r, EvClientClose np.2 r) o2 rets)).
  by rewrite closes_consumer_stops, closes_client_closes.
Qed.

Lemma closes_app evs1 evs2 : closes (evs1 ++ evs2) = closes evs1 ++ closes evs2.
Proof. apply omap_app. Qed.

Lemma stops_app evs1 evs2 : stops (evs1 ++ evs2) = stops evs1 ++ stops evs2.
Proof. apply omap_app. Qed.

Lemma starts_app evs1 evs2 : starts (evs1 ++ evs2) = starts evs1 ++ starts evs2.
Proof. apply omap_app. Qed.

(** After the teardown every registered consumer has been stopped. *)
Lemma teardown_stops_all (c : MultiClusterConsumer) pick o2 rets evs :
  map_Forall
    (λ _ cc, cc ∈ stops (evs ++ teardown_events c
                           (range_order (clusterConsumerMap c) pick) o2 rets))
    (clusterConsumerMap c).
Proof.
  intros name cc Hcc. cbn. rewrite stops_app, stops_teardown.
  apply elem_of_app. right.
  apply (list_elem_of_fmap_2 snd _ (name, cc)). by apply range_order_elem.
Qed.


(** *** The invariant *)

Lemma Inv_new groupName topics ccm scm msgC scope logger e :
  valid_inputs ccm scm e →
  Inv (NewMultiClusterConsumer groupName topics ccm scm msgC scope logger e).
Proof.
  intros [H1 H2]. split; [by split|]. cbn. split; [|done].
  unfold done_state. cbn. apply lookup_insert_eq.
Qed.

Lemma Inv_add_call c w : Inv w → Inv (add_call c w).
Proof.
  intros [Hlive Hph]. split; [done|].
  unfold phase_of, done_state in *. cbn.
  destruct (Util.phase (lifecycle (coord w))); try done.
  destruct Hph as (?&?&?&?). split_and!; try done.
  apply elem_of_app. by left.
Qed.

(** A step that leaves the coordinator and the channels alone and closes
    nothing keeps the invariant. *)
Lemma Inv_drive w w' evs cs :
  Inv w →
  coord w' = coord w →
  dom (consumers w') = dom (consumers w) →
  dom (clients w') = dom (clients w) →
  sig_chans w' = sig_chans w →
  calls w' = calls w ++ cs →
  trace w' = trace w ++ evs →
  closes evs = [] →
  Inv w'.
Proof.
  intros [Hlive Hph] Hc Hdc Hdl Hs Hk Ht Hcl. split.
  { eapply live_refs_after; [| | | |exact Hlive]; by rewrite ?Hc. }
  unfold phase_of, done_state in *. rewrite Hc, Hs, Ht, Hk, closes_app, Hcl, app_nil_r.
  destruct (Util.phase (lifecycle (coord w))); try done.
  destruct Hph as (?&?&?&Hst). split_and!; try done.
  - apply elem_of_app. by left.
  - eapply map_Forall_impl; [exact Hst|]. intros ? cc Hin. cbn in *.
    rewrite stops_app. apply elem_of_app. by left.
Qed.

Lemma Inv_torn_down w w' evs o2 rets pick :
  live_refs w →
  closes (trace w) = [] →
  closes evs = [] →
  coord w' = in_phase Util.Stopped (coord w) →
  dom (consumers w') = dom (consumers w) →
  dom (clients w') = dom (clients w) →
  sig_chans w' = <[doneC (coord w) := ch_closed]> (sig_chans w) →
  calls w' = calls w ++ [CallStop] →
  trace w' = trace w ++ evs ++ teardown_events (coord w)
               (range_order (clusterConsumerMap (coord w)) pick) o2 rets →
  Inv w'.
Proof.
  intros Hlive Hcl0 Hcl Hc Hdc Hdl Hs Hk Ht. split.
  { eapply live_refs_after; [| | | |exact Hlive]; by rewrite ?Hc. }
  unfold phase_of, done_state. rewrite Hc, Hs, Hk, Ht. cbn. split_and!.
  - apply lookup_insert_eq.
  - by rewrite !closes_app, closes_teardown, Hcl0, Hcl.
  - apply elem_of_app. right. apply list_elem_of_singleton. done.
  - rewrite app_assoc. apply teardown_stops_all.
Qed.

Lemma Stop_Inv picks w :
  Inv w →
  ∃ w', Stop picks w = Some (tt, w')
      ∧ Inv w'
      ∧ msg_chans w' = msg_chans w
      ∧ coord w' = in_phase (phase_of w') (coord w)
      ∧ trace w `prefix_of` trace w'
      ∧ calls w' = calls w ++ [CallStop].
Proof.
  intros HInv. destruct (tears_down (phase_of w)) eqn:Htd.
  - destruct HInv as [Hlive Hph].
    assert (done_state w = Some ch_open ∧ closes (trace w) = []) as [Hopen Hcl].
    { destruct (phase_of w); done. }
    destruct (Stop_tears_down picks w Htd Hlive Hopen)
      as (w' & rets & Hrun & Hlen & Hc & Hdc & Hdl & Hm & Hs & Hk & Ht).
    exists w'. split; [done|]. split.
    { eapply (Inv_torn_down w w' []); try done. }
    split; [done|]. split; [unfold phase_of; by rewrite Hc|].
    split; [|done]. rewrite Ht. by eexists.
  - exists (add_call CallStop w). split; [by apply Stop_idle|].
    split; [by apply Inv_add_call|]. split; [done|]. split; [|done].
    unfold in_phase, phase_of, Util.to_phase, set_guard. cbn.
    destruct (coord w) as [? ? ? ? ? ? ? ? l]. cbn. by destruct l.
Qed.

Lemma Start_Inv pick picks w :
  Inv w →
  ∃ ret w', Start pick picks w = Some (ret, w')
      ∧ Inv w'
      ∧ msg_chans w' = msg_chans w
      ∧ coord w' = in_phase (phase_of w') (coord w)
      ∧ trace w `prefix_of` trace w'
      ∧ calls w `prefix_of` calls w'.
Proof.
  intros HInv. destruct (decide (phase_of w = Util.NotStarted)) as [Hph|Hph].
  - destruct HInv as [Hlive HInv]. rewrite Hph in HInv. destruct HInv as [Hopen Hcl].
    destruct (Start_fresh pick picks w Hph Hlive Hopen)
      as (ret & w' & evs & Hrun & Hcle & Hste & Hout & Hdc & Hdl & Hm & Hret).
    exists ret, w'. split; [done|]. destruct ret as [e|].
    + destruct Hret as (rets & Hlen & Hc & Hs & Hk & Ht).
      split; [by eapply Inv_torn_down|]. split; [done|].
      split; [unfold phase_of; by rewrite Hc|].
      split; [rewrite Ht|rewrite Hk]; by eexists.
    + destruct Hret as (Hc & Hs & Hk & Ht). split.
      { split.
        - eapply live_refs_after; [| | | |exact Hlive]; by rewrite ?Hc.
        - unfold phase_of, done_state. rewrite Hc, Hs, Ht. cbn. split; [done|].
          by rewrite !closes_app, Hcl, Hcle. }
      split; [done|]. split; [unfold phase_of; by rewrite Hc|].
      split; [rewrite Ht; by eexists|by rewrite Hk].
  - destruct (Stop_Inv picks w HInv) as (w' & Hrun & HInv' & Hm & Hc & Ht & Hk).
    exists (Some Util.errNotStartedTwice), w'.
    split; [by rewrite Start_refused, Hrun|]. split_and!; try done.
    rewrite Hk. by eexists.
Qed.


Lemma in_phase_self (c : MultiClusterConsumer) :
  c = in_phase (Util.phase (lifecycle c)) c.
Proof. destruct c as [? ? ? ? ? ? ? ? l]. by destruct l. Qed.

Lemma ResetOffset_Inv cluster topic partition offsetRange w :
  Inv w →
  ∃ ret w', ResetOffset cluster topic partition offsetRange w = Some (ret, w')
      ∧ Inv w'
      ∧ msg_chans w' = msg_chans w
      ∧ coord w' = coord w
      ∧ trace w `prefix_of` trace w'
      ∧ calls w `prefix_of` calls w'.
Proof.
  intros HInv.
  destruct (ResetOffset_spec cluster topic partition offsetRange w)
    as (ret & w' & evs & Hrun & (Hc & Hdc & Hdl & Hm & Hs & Hk & Ht) & Hcl & _);
    [apply HInv|].
  cbn in *. exists ret, w'. split; [done|]. split.
  { eapply Inv_drive; try done. by rewrite Hdl. }
  split_and!; try done; [rewrite Ht|rewrite Hk]; by eexists.
Qed.

Lemma MergeDLQ_Inv topic offsetRanges pick w :
  Inv w →
  ∃ ret w', MergeDLQ topic offsetRanges pick w = Some (ret, w')
      ∧ Inv w'
      ∧ msg_chans w' = msg_chans w
      ∧ coord w' = coord w
      ∧ trace w `prefix_of` trace w'
      ∧ calls w `prefix_of` calls w'.
Proof.
  intros HInv.
  destruct (MergeDLQ_spec topic offsetRanges pick w)
    as (rets & w' & evs & Hrun & _ & _ & (Hc & Hdc & Hdl & Hm & Hs & Hk & Ht) & Hcl & _);
    [apply HInv|].
  cbn in *. eexists _, w'. split; [done|]. split.
  { eapply Inv_drive; try done. by rewrite Hdl. }
  split_and!; try done; [rewrite Ht|rewrite Hk]; by eexists.
Qed.

(** Every call on a coordinator in use returns, and keeps the invariant,
    the message channels and the coordinator's fields other than the
    guard. *)
Lemma exec_Inv op w :
  Inv w →
  ∃ w', exec op w = Some (tt, w')
      ∧ Inv w'
      ∧ msg_chans w' = msg_chans w
      ∧ coord w' = in_phase (phase_of w') (coord w)
      ∧ trace w `prefix_of` trace w'
      ∧ calls w `prefix_of` calls w'.
Proof.
  intros HInv. destruct op as [| |pick picks|picks| | |cluster topic partition r|topic rs pick];
    cbn [exec]; munfold.
  1,2,5,6: by (exists w; unfold Name, Topics, Closed, Messages; munfold; cbn;
                split_and!; try done; apply in_phase_self).
  - destruct (Start_Inv pick picks w HInv) as (ret & w' & Hrun & ?).
    exists w'. by rewrite Hrun.
  - destruct (Stop_Inv picks w HInv) as (w' & Hrun & ? & ? & ? & ? & Hk).
    exists w'. split_and!; try done. rewrite Hk. by eexists.
  - destruct (ResetOffset_Inv cluster topic partition r w HInv)
      as (ret & w' & Hrun & ? & ? & Hc & ?).
    exists w'. rewrite Hrun. split_and!; try done; try tauto.
    unfold phase_of. rewrite Hc. apply in_phase_self.
  - destruct (MergeDLQ_Inv topic rs pick w HInv) as (ret & w' & Hrun & ? & ? & Hc & ?).
    exists w'. rewrite Hrun. split_and!; try done; try tauto.
    unfold phase_of. rewrite Hc. apply in_phase_self.
Qed.

Lemma Reachable_Inv w : Reachable w → Inv w.
Proof.
  induction 1 as [|w op w' _ IH Hrun|w ccs cls _ IH Hccs Hcls]; [by apply Inv_new| |].
  - destruct (exec_Inv op w IH) as (w'' & Hrun' & HInv & _). congruence.
  - apply (Inv_drive w _ [] []); try done; cbn; by rewrite app_nil_r.
Qed.

Lemma run_Inv ops : ∀ w,
  Inv w →
  ∃ w', run ops w = Some (tt, w')
      ∧ Inv w'
      ∧ msg_chans w' = msg_chans w
      ∧ coord w' = in_phase (phase_of w') (coord w)
      ∧ trace w `prefix_of` trace w'
      ∧ calls w `prefix_of` calls w'.
Proof.
  induction ops as [|op ops IH]; intros w HInv.
  - exists w. split_and!; try done. apply in_phase_self.
  - destruct (exec_Inv op w HInv) as (w1 & Hrun1 & HInv1 & Hm1 & Hc1 & Ht1 & Hk1).
    destruct (IH w1 HInv1) as (w2 & Hrun2 & HInv2 & Hm2 & Hc2 & Ht2 & Hk2).
    exists w2. cbn [run]. munfold. rewrite Hrun1. split; [done|].
    split_and!; try done; try congruence.
    + by rewrite Hc2, Hc1.
    + by etrans.
    + by etrans.
Qed.

Lemma run_Reachable ops : ∀ w w',
  Reachable w → run ops w = Some (tt, w') → Reachable w'.
Proof.
  induction ops as [|op ops IH]; intros w w' Hr Hrun.
  - by injection Hrun as <-.
  - cbn [run] in Hrun. unfold mbind, M_bind, bind in Hrun.
    destruct (exec op w) as [[[] w1]|] eqn:Hop; [|done].
    eapply IH; [|exact Hrun]. by eapply reach_call.
Qed.


Lemma starts_teardown c o1 o2 rets : starts (teardown_events c o1 o2 rets) = [].
Proof.
  unfold teardown_events. rewrite !starts_app.
  assert (starts (map (λ np : string * loc, EvConsumerStop np.2) o1) = []) as ->.
  { induction o1 as [|[n cc] o1 IH]; [done|]. cbn. by rewrite <-IH. }
  assert (starts (zip_with (λ (np : string * loc) r, EvClientClose np.2 r) o2 rets) = [])
    as ->; [|done].
  revert rets. induction o2 as [|[n cl] o2 IH]; intros [|r rets]; try done.
  cbn. apply IH.
Qed.

(** A loop that ends with an error has not started every consumer
    successfully. *)
Lemma start_outcome_error order e evs :
  start_outcome order (Some e) evs →
  starts evs ≠ map (λ np, (np.2, None)) order.
Proof.
  intros (pre & np & post & -> & ->) Heq.
  rewrite map_app in Heq. apply app_inv_head in Heq. by injection Heq.
Qed.

(** *** The claims on [Start] *)

(** C1 (as amended). On a coordinator in use whose guard has not been
    started, [Start()] returns, and for the order in which the iteration
    visits the registered consumers: it returns nil if and only if every
    registered consumer was started and every start returned nil; when it
    returns an error, that error is the one returned by the first consumer
    whose start failed, and no consumer after it in the order was started;
    with no registered consumer it returns nil. On a coordinator that was
    started before, the guard refuses and [Start()] returns its error
    without starting any consumer. *)
Theorem Start_first_call pick picks w :
  Reachable w →
  (phase_of w = Util.NotStarted →
   ∃ ret w' evs order,
     Start pick picks w = Some (ret, w')
     ∧ trace w' = trace w ++ evs
     ∧ order ≡ₚ map_to_list (clusterConsumerMap (coord w))
     ∧ (ret = None ↔ starts evs = map (λ np, (np.2, None)) order)
     ∧ (∀ e, ret = Some e →
          ∃ pre np post,
            order = pre ++ np :: post
            ∧ starts evs = map (λ np, (np.2, None)) pre ++ [(np.2, Some e)])
     ∧ (clusterConsumerMap (coord w) = ∅ → ret = None))
  ∧ (phase_of w ≠ Util.NotStarted →
     ∃ w' evs,
       Start pick picks w = Some (Some Util.errNotStartedTwice, w')
       ∧ trace w' = trace w ++ evs
       ∧ starts evs = []).
Proof.
  intros Hreach. pose proof (Reachable_Inv w Hreach) as [Hlive Hph]. split.
  - intros Hns. rewrite Hns in Hph. destruct Hph as [Hopen Hcl].
    destruct (Start_fresh pick picks w Hns Hlive Hopen)
      as (ret & w' & evs & Hrun & _ & _ & Hout & _ & _ & _ & Hret).
    set (order := range_order (clusterConsumerMap (coord w)) pick) in *.
    assert (∃ evs', trace w' = trace w ++ evs' ∧ starts evs' = starts evs)
      as (evs' & Ht & Hst).
    { destruct ret as [e|].
      - destruct Hret as (rets & _ & _ & _ & _ & Ht).
        eexists. split; [exact Ht|]. by rewrite starts_app, starts_teardown, app_nil_r.
      - destruct Hret as (_ & _ & _ & Ht).
        eexists. split; [exact Ht|]. by rewrite starts_app, app_nil_r. }
    exists ret, w', evs', order. rewrite Hst.
    split; [done|]. split; [done|]. split; [apply range_order_perm|].
    split_and!.
    + destruct ret as [e|]; [|done]. split; [done|].
      intros Heq. by apply start_outcome_error in Hout.
    + by intros e ->.
    + intros Hempty. destruct ret as [e|]; [|done].
      destruct Hout as (pre & np & post & Hord & _).
      unfold order in Hord. rewrite Hempty, range_order_empty in Hord.
      by destruct pre.
  - intros Hns.
    destruct (tears_down (phase_of w)) eqn:Htd.
    + assert (done_state w = Some ch_open) as Hopen.
      { destruct (phase_of w); try done; apply Hph. }
      destruct (Stop_tears_down picks w Htd Hlive Hopen)
        as (w' & rets & Hrun & _ & _ & _ & _ & _ & _ & _ & Ht).
      eexists w', _. rewrite Start_refused, Hrun by done.
      split; [done|]. split; [exact Ht|]. apply starts_teardown.
    + exists (add_call CallStop w), [].
      rewrite Start_refused, Stop_idle by done. cbn. by rewrite app_nil_r.
Qed.

(** C2. Whenever [Start()] on a coordinator in use returns an error, the
    coordinator's own [Stop()] has completed before it returns, the guard
    is stopped, and every registered per-cluster consumer has had its stop
    operation invoked; on a first start the stops come after every start of
    the failed loop, so also the consumers started by earlier iterations
    are stopped. A [Start()] that returns nil invokes no [Stop()]. *)
Theorem Start_error_stops_all pick picks w :
  Reachable w →
  ∃ ret w',
    Start pick picks w = Some (ret, w')
    ∧ (ret = None → calls w' = calls w)
    ∧ (∀ e, ret = Some e →
         calls w' = calls w ++ [CallStop]
         ∧ phase_of w' = Util.Stopped
         ∧ map_Forall (λ _ cc, cc ∈ stops (trace w')) (clusterConsumerMap (coord w'))
         ∧ (phase_of w = Util.NotStarted →
            ∃ evs1 evs2,
              trace w' = trace w ++ evs1 ++ evs2
              ∧ stops evs1 = [] ∧ starts evs2 = []
              ∧ map_Forall (λ _ cc, cc ∈ stops evs2) (clusterConsumerMap (coord w)))).
Proof.
  intros Hreach. pose proof (Reachable_Inv w Hreach) as HInv.
  destruct (Start_Inv pick picks w HInv) as (ret & w' & Hrun & HInv' & _ & Hc & _).
  exists ret, w'. split; [done|].
  destruct (decide (phase_of w = Util.NotStarted)) as [Hns|Hns].
  - destruct HInv as [Hlive Hph]. rewrite Hns in Hph. destruct Hph as [Hopen _].
    destruct (Start_fresh pick picks w Hns Hlive Hopen)
      as (ret2 & w2 & evs & Hrun2 & _ & Hste & _ & _ & _ & _ & Hret).
    rewrite Hrun in Hrun2. injection Hrun2 as <- <-. split.
    { intros ->. apply Hret. }
    intros e ->. destruct Hret as (rets & _ & Hc2 & _ & Hk & Ht).
    assert (phase_of w' = Util.Stopped) as Hst by (unfold phase_of; by rewrite Hc2).
    destruct HInv' as [_ HInv']. rewrite Hst in HInv'.
    split_and!; try done; [apply HInv'|].
    intros _. eexists evs, _. split; [exact Ht|]. split; [done|].
    split; [apply starts_teardown|].
    apply (teardown_stops_all (coord w) _ _ _ []).
  - destruct (Stop_Inv picks w HInv) as (w2 & Hrun2 & _ & _ & Hc2 & _ & Hk).
    rewrite Start_refused, Hrun2 in Hrun by done. injection Hrun as <- <-.
    split; [done|]. intros e _.
    assert (phase_of w2 = Util.Stopped) as Hst.
    { destruct HInv as [Hlive Hph]. destruct (tears_down (phase_of w)) eqn:Htd.
      - assert (done_state w = Some ch_open) as Hopen.
        { destruct (phase_of w); try done; apply Hph. }
        destruct (Stop_tears_down picks w Htd Hlive Hopen)
          as (w3 & rets & Hrun3 & _ & Hc3 & _).
        rewrite Hrun2 in Hrun3. injection Hrun3 as <-.
        unfold phase_of. by rewrite Hc3.
      - rewrite Stop_idle in Hrun2 by done. injection Hrun2 as <-.
        change (phase_of (add_call CallStop w)) with (phase_of w).
        destruct (phase_of w); done. }
    destruct HInv' as [_ HInv']. rewrite Hst in HInv'.
    split_and!; try done. apply HInv'.
Qed.


(** *** The claims on [ResetOffset] and [MergeDLQ] *)

(** C3. For a cluster name that is not a key of the cluster-consumer map,
    [ResetOffset] returns the lookup error ("no cluster consumer found")
    and invokes no per-cluster consumer: no event is added and no consumer
    changes. For a registered name it returns what that consumer's own
    offset reset returns, unchanged, after this one invocation. *)
Theorem ResetOffset_lookup_then_delegate cluster topic partition offsetRange w :
  (clusterConsumerMap (coord w) !! cluster = None →
   ∃ w', ResetOffset cluster topic partition offsetRange w
           = Some (Some (errors_New "no cluster consumer found"), w')
       ∧ trace w' = trace w
       ∧ consumers w' = consumers w)
  ∧ (∀ cc s,
       clusterConsumerMap (coord w) !! cluster = Some cc →
       consumers w !! cc = Some s →
       ∃ w', ResetOffset cluster topic partition offsetRange w
               = Some ((cc_ResetOffset topic partition offsetRange s).1, w')
           ∧ trace w' = trace w
               ++ [EvConsumerResetOffset cc topic partition offsetRange
                     (cc_ResetOffset topic partition offsetRange s).1]
           ∧ consumers w'
               = <[cc := (cc_ResetOffset topic partition offsetRange s).2]>
                   (consumers w)).
Proof.
  split.
  - intros Hm. eexists. by rewrite ResetOffset_absent.
  - intros cc s Hm Hs. eexists. by erewrite ResetOffset_present.
Qed.

(** C4. [MergeDLQ] attempts the reset of every partition of the map, one
    call after the other, whatever the earlier calls returned. It returns
    nil if and only if no attempt failed, hence for the empty map; and
    otherwise one error whose text is "DLQ merge failed for " followed by
    the entries "partition=<n> err=<e>" of the failed attempts joined with
    commas, so that it contains the entry of each failed partition. *)
Theorem MergeDLQ_aggregates topic offsetRanges pick w :
  consumers_live w →
  ∃ order rets ret w',
    MergeDLQ topic offsetRanges pick w = Some (ret, w')
    ∧ order ≡ₚ map_to_list offsetRanges
    ∧ Attempts topic w order rets w'
    ∧ (ret = None ↔ Forall (λ r, r = None) rets)
    ∧ (offsetRanges = ∅ → ret = None)
    ∧ (∀ err, ret = Some err →
         Error err = "DLQ merge failed for " +:+ strings_Join (failures order rets) ","
         ∧ ∀ i partition offsetRange e,
             order !! i = Some (partition, offsetRange) →
             rets !! i = Some (Some e) →
             contains (Error err)
               ("partition=" +:+ pretty partition +:+ " err=" +:+ Error e)).
Proof.
  intros Hlive.
  destruct (MergeDLQ_spec topic offsetRanges pick w Hlive)
    as (rets & w' & evs & Hrun & Hatt & Hlen & _).
  set (order := range_order offsetRanges pick) in *.
  eexists order, rets, _, w'. split; [exact Hrun|].
  split; [apply range_order_perm|]. split; [done|].
  pose proof (failures_nil_iff order rets Hlen) as Hnil.
  split_and!.
  - rewrite <-Hnil. by destruct (failures order rets).
  - intros Hempty. unfold order in *. rewrite Hempty, range_order_empty in *.
    by destruct rets.
  - intros err Herr. destruct (failures order rets) as [|f fs] eqn:Hf; [done|].
    injection Herr as <-. split; [done|].
    intros i partition offsetRange e Ho Hr. cbn [Error errors_New].
    apply contains_app_r, (strings_Join_contains (f :: fs) ",").
    rewrite <-Hf. by eapply failures_elem.
Qed.

(** C5. [MergeDLQ] invokes [ResetOffset] once for every partition of the
    map and not otherwise, each time with the cluster and the name of the
    topic's dead-letter topic and with that partition's offset range. *)
Theorem MergeDLQ_resets_the_DLQ topic offsetRanges pick w :
  consumers_live w →
  ∃ order ret w',
    MergeDLQ topic offsetRanges pick w = Some (ret, w')
    ∧ order ≡ₚ map_to_list offsetRanges
    ∧ calls w' = calls w
        ++ map (λ pr, CallResetOffset (Cluster (DLQ topic)) (Kafka.Name (DLQ topic))
                        pr.1 pr.2) order
    ∧ ∀ partition offsetRange,
        offsetRanges !! partition = Some offsetRange
        ↔ (partition, offsetRange) ∈ order.
Proof.
  intros Hlive.
  destruct (MergeDLQ_spec topic offsetRanges pick w Hlive)
    as (rets & w' & evs & Hrun & _ & _ & (_ & _ & _ & _ & _ & Hk & _) & _).
  eexists (range_order offsetRanges pick), _, w'. split; [exact Hrun|].
  split; [apply range_order_perm|]. split; [exact Hk|].
  intros partition offsetRange. symmetry. apply range_order_elem.
Qed.

(** C10. [ResetOffset] and [MergeDLQ] return and leave the coordinator as
    it was: its fields (group name, topics, the two maps, the references to
    the two channels, the guard), the clients, and the state, open or
    closed, of every channel, the done-signal included. *)
Theorem ResetOffset_MergeDLQ_frame w :
  consumers_live w →
  (∀ cluster topic partition offsetRange,
     ∃ ret w', ResetOffset cluster topic partition offsetRange w = Some (ret, w')
       ∧ same_coordinator w w' ∧ done_state w' = done_state w)
  ∧ (∀ topic offsetRanges pick,
       ∃ ret w', MergeDLQ topic offsetRanges pick w = Some (ret, w')
         ∧ same_coordinator w w' ∧ done_state w' = done_state w).
Proof.
  intros Hlive. split.
  - intros cluster topic partition offsetRange.
    destruct (ResetOffset_spec cluster topic partition offsetRange w Hlive)
      as (ret & w' & evs & Hrun & (Hc & _ & Hdl & Hm & Hs & _) & _).
    exists ret, w'. split; [done|]. unfold done_state. rewrite Hc, Hs.
    by split.
  - intros topic offsetRanges pick.
    destruct (MergeDLQ_spec topic offsetRanges pick w Hlive)
      as (rets & w' & evs & Hrun & _ & _ & (Hc & _ & Hdl & Hm & Hs & _) & _).
    eexists _, w'. split; [exact Hrun|]. unfold done_state. rewrite Hc, Hs.
    by split.
Qed.

(** *** The claims on [Stop] and on the channels *)

(** C6. [Stop()] on a coordinator in use returns, and it has no error to
    return. When the guard is running, the teardown stops every registered
    consumer, then closes every owned sarama client, then closes the
    done-signal, and then logs and counts, in this order, whatever the
    closes of the clients return; otherwise [Stop()] does nothing. *)
Theorem Stop_teardown_in_order picks w :
  Reachable w →
  ∃ w',
    Stop picks w = Some (tt, w')
    ∧ (phase_of w = Util.Running →
       ∃ o1 o2 rets,
         o1 ≡ₚ map_to_list (clusterConsumerMap (coord w))
         ∧ o2 ≡ₚ map_to_list (clusterToSaramaClientMap (coord w))
         ∧ length rets = length o2
         ∧ trace w' = trace w
             ++ map (λ np, EvConsumerStop np.2) o1
             ++ zip_with (λ np r, EvClientClose np.2 r) o2 rets
             ++ [EvClose (chan_struct (doneC (coord w)));
                 EvLogInfo (logger (coord w)) "multicluster consumer stopped"
                   (groupName (coord w)) (topics (coord w));
                 EvCounterInc (scope (coord w)) KafkaConsumerStopped]
         ∧ phase_of w' = Util.Stopped
         ∧ done_state w' = Some ch_closed)
    ∧ (phase_of w ≠ Util.Running → trace w' = trace w ∧ phase_of w' = phase_of w).
Proof.
  intros Hreach. pose proof (Reachable_Inv w Hreach) as [Hlive Hph].
  destruct (decide (phase_of w = Util.Running)) as [Hr|Hr].
  - rewrite Hr in Hph. destruct Hph as [Hopen _].
    destruct (Stop_tears_down picks w) as
      (w' & rets & Hrun & Hlen & Hc & _ & _ & _ & Hs & _ & Ht); [by rewrite Hr|done..|].
    exists w'. split; [done|]. split; [|done]. intros _.
    eexists _, _, rets. split; [apply range_order_perm|].
    split; [apply range_order_perm|]. split; [exact Hlen|]. split; [exact Ht|].
    unfold phase_of, done_state. rewrite Hc, Hs. split; [done|].
    apply lookup_insert_eq.
  - exists (add_call CallStop w). split.
    + apply Stop_idle. destruct (phase_of w); done.
    + split; [done|]. by intros _.
Qed.

(** What [Stop()] does to the guard: it leaves a coordinator that was
    never started as it was, and every other one stopped. *)
Lemma Stop_phase picks w :
  Inv w →
  ∃ w', Stop picks w = Some (tt, w')
      ∧ Inv w'
      ∧ doneC (coord w') = doneC (coord w)
      ∧ phase_of w'
        = (if decide (phase_of w = Util.NotStarted) then Util.NotStarted
           else Util.Stopped).
Proof.
  intros HInv. destruct (Stop_Inv picks w HInv) as (w' & Hrun & HInv' & _ & Hc & _).
  exists w'. split; [done|]. split; [done|]. split; [by rewrite Hc|].
  destruct (tears_down (phase_of w)) eqn:Htd.
  - destruct HInv as [Hlive Hph].
    assert (done_state w = Some ch_open) as Hopen
      by (destruct (phase_of w); try done; by destruct Hph).
    destruct (Stop_tears_down picks w Htd Hlive Hopen) as (w1 & rets & Hrun1 & _ & Hc1 & _).
    rewrite Hrun in Hrun1. injection Hrun1 as <-.
    unfold phase_of at 1. rewrite Hc1. by destruct (phase_of w).
  - rewrite (Stop_idle picks w Htd) in Hrun. injection Hrun as <-.
    destruct HInv as [_ Hph]. change (phase_of (add_call CallStop w)) with (phase_of w).
    by destruct (phase_of w).
Qed.

(** Whatever [Start()] returns, it leaves the coordinator past
    [NotStarted]. *)
Lemma Start_phase pick picks w :
  Inv w →
  ∃ ret w', Start pick picks w = Some (ret, w')
          ∧ Inv w'
          ∧ doneC (coord w') = doneC (coord w)
          ∧ phase_of w' ≠ Util.NotStarted.
Proof.
  intros HInv.
  destruct (Start_Inv pick picks w HInv) as (ret & w' & Hrun & HInv' & _ & Hc & _).
  exists ret, w'. split; [done|]. split; [done|]. split; [by rewrite Hc|].
  destruct (decide (phase_of w = Util.NotStarted)) as [Hph|Hph].
  - destruct HInv as [Hlive HInv]. rewrite Hph in HInv. destruct HInv as [Hopen _].
    destruct (Start_fresh pick picks w Hph Hlive Hopen)
      as (ret1 & w1 & evs & Hrun1 & _ & _ & _ & _ & _ & _ & Hret).
    rewrite Hrun in Hrun1. injection Hrun1 as <- <-. destruct ret as [e|].
    + destruct Hret as (rets & _ & Hc1 & _). unfold phase_of. by rewrite Hc1.
    + destruct Hret as (Hc1 & _). unfold phase_of. by rewrite Hc1.
  - destruct (Stop_phase picks w HInv) as (w1 & Hrun1 & _ & _ & Hph1).
    rewrite Start_refused, Hrun1 in Hrun by done. injection Hrun as <- <-.
    rewrite Hph1. by case_decide.
Qed.

(** C7. On a coordinator in use, [Closed()] returns the done-signal. The
    coordinator has closed either no channel at all, and then the
    done-signal is open, or the done-signal and nothing else, once, and
    then it is closed. It is open as long as no [Stop()] has completed.
    The [Stop()] of a running coordinator finds it open and leaves it
    closed, by one close; and once [Start()] has been called, whatever it
    returned, a [Stop()] that has completed leaves it closed by one
    close. Every further sequence of calls returns (none panics on a
    second close) and leaves a closed done-signal closed, closing nothing
    again. *)
Theorem doneC_closed_exactly_once w :
  Reachable w →
  Closed w = Some (chan_struct (doneC (coord w)), w)
  ∧ (closes (trace w) = [] ∧ done_state w = Some ch_open
     ∨ closes (trace w) = [chan_struct (doneC (coord w))]
       ∧ done_state w = Some ch_closed)
  ∧ (CallStop ∉ calls w → done_state w = Some ch_open)
  ∧ (∀ picks, ∃ w',
       Stop picks w = Some (tt, w')
       ∧ (phase_of w = Util.Running →
          done_state w = Some ch_open
          ∧ done_state w' = Some ch_closed
          ∧ closes (trace w') = [chan_struct (doneC (coord w))]))
  ∧ (∀ pick p1 p2, ∃ w',
       run [OpStart pick p1; OpStop p2] w = Some (tt, w')
       ∧ done_state w' = Some ch_closed
       ∧ closes (trace w') = [chan_struct (doneC (coord w))])
  ∧ ∀ ops, ∃ w',
      run ops w = Some (tt, w')
      ∧ doneC (coord w') = doneC (coord w)
      ∧ (done_state w = Some ch_closed →
         done_state w' = Some ch_closed ∧ closes (trace w') = closes (trace w)).
Proof.
  intros Hreach. pose proof (Reachable_Inv w Hreach) as HInv.
  assert (Hshape : ∀ v, Inv v →
            closes (trace v) = [] ∧ done_state v = Some ch_open
              ∧ phase_of v ≠ Util.Stopped
            ∨ closes (trace v) = [chan_struct (doneC (coord v))]
              ∧ done_state v = Some ch_closed ∧ CallStop ∈ calls v).
  { intros v [_ Hph]. destruct (phase_of v); try done.
    - left. by destruct Hph.
    - left. by destruct Hph.
    - right. by destruct Hph as (?&?&?&_). }
  assert (Hstopped : ∀ v, Inv v → phase_of v = Util.Stopped →
            done_state v = Some ch_closed
            ∧ closes (trace v) = [chan_struct (doneC (coord v))]).
  { intros v [_ Hph] Hv. rewrite Hv in Hph. by destruct Hph as (?&?&_). }
  split; [done|]. split; [|split; [|split; [|split]]].
  - destruct (Hshape w HInv) as [(?&?&_)|(?&?&_)]; [by left|by right].
  - intros Hns. destruct (Hshape w HInv) as [(?&?&_)|(?&?&?)]; done.
  - intros picks. destruct (Stop_phase picks w HInv) as (w' & Hrun & HInv' & Hd & Hph').
    exists w'. split; [done|]. intros Hph. rewrite Hph in Hph'.
    destruct (Hstopped w' HInv') as [Hclosed Hcl]; [by case_decide|].
    split; [|by rewrite <-Hd].
    destruct HInv as [_ HInv]. rewrite Hph in HInv. by destruct HInv.
  - intros pick p1 p2.
    destruct (Start_phase pick p1 w HInv) as (ret & w1 & Hrun1 & HInv1 & Hd1 & Hph1).
    destruct (Stop_phase p2 w1 HInv1) as (w2 & Hrun2 & HInv2 & Hd2 & Hph2).
    exists w2. split.
    { cbn [run exec]. munfold. rewrite Hrun1. cbn. rewrite Hrun2. done. }
    destruct (Hstopped w2 HInv2) as [Hclosed Hcl]; [rewrite Hph2; by case_decide|].
    split; [done|]. by rewrite <-Hd1, <-Hd2.
  - intros ops. destruct (run_Inv ops w HInv) as (w' & Hrun & HInv' & _ & Hc & [k Ht] & _).
    exists w'. split; [done|]. split; [by rewrite Hc|].
    intros Hclosed.
    destruct (Hshape w HInv) as [(_&Hopen&_)|(Hcl&_&_)]; [congruence|].
    destruct (Hshape w' HInv') as [(Hcl'&_&_)|(Hcl'&Hd'&_)].
    + rewrite Ht, closes_app, Hcl in Hcl'. done.
    + split; [done|]. rewrite Hcl', Hcl. by rewrite Hc.
Qed.

(** C8. No sequence of calls on a coordinator in use closes the message
    channel: every sequence returns, [Messages()] still returns the same
    channel, the state of every message channel is what it was, and no
    close of a message channel is among the events since construction. *)
Theorem msgC_never_closed ops w :
  Reachable w →
  ∃ w',
    run ops w = Some (tt, w')
    ∧ Messages w' = Some (chan_Message (msgC (coord w)), w')
    ∧ msg_chans w' = msg_chans w
    ∧ ∀ l, chan_Message l ∉ closes (trace w').
Proof.
  intros Hreach. pose proof (Reachable_Inv w Hreach) as HInv.
  destruct (run_Inv ops w HInv) as (w' & Hrun & [_ Hph] & Hm & Hc & _).
  exists w'. split; [done|]. split.
  { unfold Messages. munfold. cbn. by rewrite Hc. }
  split; [done|]. intros l Hin.
  destruct (phase_of w'); try done.
  - destruct Hph as [_ Hcl]. rewrite Hcl in Hin. by apply elem_of_nil in Hin.
  - destruct Hph as [_ Hcl]. rewrite Hcl in Hin. by apply elem_of_nil in Hin.
  - destruct Hph as (_ & Hcl & _). rewrite Hcl in Hin.
    by apply list_elem_of_singleton in Hin.
Qed.

End CoordinatorFacts.

(** ** The properties on the test doubles *)

Section Examples.

Import Kafka Consumer.
#[local] Existing Instance Mock.collaborators.

(** The three partitions of the test, the reset of partition 1 failing: the
    other two are attempted, and the error names partition 1. *)
Example MergeDLQ_partition_1_fails :
  ∃ w', MergeDLQ Mock.topic Mock.ranges
          [(0, (0, 10)); (1, (5, 6)); (2, (7, 9))]%Z Mock.two
          = Some (Some (errors_New "DLQ merge failed for partition=1 err=reset failed"),
                  w')
      ∧ calls w' = [CallResetOffset "dlq-cluster" "unit-test-dlq" 0 (0, 10)%Z;
                    CallResetOffset "dlq-cluster" "unit-test-dlq" 1 (5, 6)%Z;
                    CallResetOffset "dlq-cluster" "unit-test-dlq" 2 (7, 9)%Z].
Proof. eexists. by vm_compute. Qed.

(** [TestStartConsumerCloseOnError]: [cc2] fails to start, and both
    consumers are stopped. *)
Example Start_consumer_close_on_error :
  ∃ w', Start [] Mock.canonical Mock.two = Some (Some (errors_New "error"), w')
      ∧ stops (trace w') = [1%positive; 2%positive; 1%positive]
      ∧ Util.Status (lifecycle (coord w')) = (true, true).
Proof. eexists. by vm_compute. Qed.

(** The claim C1 as it is stated fails on a coordinator that was started
    before: with no registered consumer at all, the first [Start()] returns
    nil and the second one returns the error of the guard, although no
    consumer's start has failed. *)
Lemma Start_restart_counterexample :
  (∃ w1 w2,
     clusterConsumerMap (coord Mock.none) = ∅
     ∧ Start [] Mock.canonical Mock.none = Some (None, w1)
     ∧ clusterConsumerMap (coord w1) = ∅
     ∧ Start [] Mock.canonical w1 = Some (Some Util.errNotStartedTwice, w2)
     ∧ starts (trace w2) = [])
  ∧ ¬ (∀ w pick picks,
         Reachable w → clusterConsumerMap (coord w) = ∅ →
         ∃ w', Start pick picks w = Some (None, w')).
Proof.
  split.
  - eexists _, _. split; [done|]. split; [by vm_compute|]. by vm_compute.
  - intros Hclaim.
    destruct (Hclaim (Mock.after [OpStart [] Mock.canonical] Mock.none)
                [] Mock.canonical) as (w' & Hrun).
    + apply (reach_call Mock.none (OpStart [] Mock.canonical)); [|by vm_compute].
      apply reach_new. by split.
    + by vm_compute.
    + vm_compute in Hrun. discriminate Hrun.
Qed.

(** The offset reset of an unknown cluster and of the DLQ cluster. *)
Lemma ResetOffset_lookup_then_delegate_witness :
  (∃ w', ResetOffset "elsewhere" "unit-test" 0 (0, 1)%Z Mock.two
           = Some (Some (errors_New "no cluster consumer found"), w')
       ∧ trace w' = trace Mock.two
       ∧ consumers w' = consumers Mock.two)
  ∧ (∃ w', ResetOffset "dlq-cluster" "unit-test-dlq" 1 (5, 6)%Z Mock.two
             = Some (Some (errors_New "reset failed"), w')
         ∧ trace w' = trace Mock.two
             ++ [EvConsumerResetOffset 1%positive "unit-test-dlq" 1 (5, 6)%Z
                   (Some (errors_New "reset failed"))]
         ∧ consumers w' = <[1%positive := Mock.cc1]> (consumers Mock.two)).
Proof.
  split.
  - apply (proj1 (@ResetOffset_lookup_then_delegate Mock.collaborators
                    "elsewhere" "unit-test" 0 (0, 1)%Z Mock.two)).
    by vm_compute.
  - apply (proj2 (@ResetOffset_lookup_then_delegate Mock.collaborators
                    "dlq-cluster" "unit-test-dlq" 1 (5, 6)%Z Mock.two)
             1%positive Mock.cc1); by vm_compute.
Defined.

(** The first [Start()] on the coordinator over [cc1] and the failing [cc2]. *)
Lemma Start_first_call_witness :
  Reachable Mock.two
  ∧ ((phase_of Mock.two = Util.NotStarted →
     ∃ ret w' evs order,
       Start [] Mock.canonical Mock.two = Some (ret, w')
       ∧ trace w' = trace Mock.two ++ evs
       ∧ order ≡ₚ map_to_list (clusterConsumerMap (coord Mock.two))
       ∧ (ret = None ↔ starts evs = map (λ np, (np.2, None)) order)
       ∧ (∀ e, ret = Some e →
            ∃ pre np post,
              order = pre ++ np :: post
              ∧ starts evs = map (λ np, (np.2, None)) pre ++ [(np.2, Some e)])
       ∧ (clusterConsumerMap (coord Mock.two) = ∅ → ret = None))
    ∧ (phase_of Mock.two ≠ Util.NotStarted →
       ∃ w' evs,
         Start [] Mock.canonical Mock.two = Some (Some Util.errNotStartedTwice, w')
         ∧ trace w' = trace Mock.two ++ evs
         ∧ starts evs = [])).
Proof.
  assert (Reachable Mock.two) as Hreach.
  { apply reach_new. split; apply map_Forall_to_list; vm_compute; repeat constructor;
      eexists; reflexivity. }
  split; [exact Hreach|]. exact (Start_first_call [] Mock.canonical Mock.two Hreach).
Defined.

(** [Start()] on the coordinator over [cc1] and the failing [cc2]. *)
Lemma Start_error_stops_all_witness :
  Reachable Mock.two
  ∧ (∃ ret w',
      Start [] Mock.canonical Mock.two = Some (ret, w')
      ∧ (ret = None → calls w' = calls Mock.two)
      ∧ (∀ e, ret = Some e →
           calls w' = calls Mock.two ++ [CallStop]
           ∧ phase_of w' = Util.Stopped
           ∧ map_Forall (λ _ cc, cc ∈ stops (trace w')) (clusterConsumerMap (coord w'))
           ∧ (phase_of Mock.two = Util.NotStarted →
              ∃ evs1 evs2,
                trace w' = trace Mock.two ++ evs1 ++ evs2
                ∧ stops evs1 = [] ∧ starts evs2 = []
                ∧ map_Forall (λ _ cc, cc ∈ stops evs2) (clusterConsumerMap (coord Mock.two))))).
Proof.
  assert (Reachable Mock.two) as Hreach.
  { apply reach_new. split; apply map_Forall_to_list; vm_compute; repeat constructor;
      eexists; reflexivity. }
  split; [exact Hreach|].
  exact (Start_error_stops_all [] Mock.canonical Mock.two Hreach).
Defined.

(** [MergeDLQ] of the partitions 0, 1 and 2, the reset of partition 1 failing. *)
Lemma MergeDLQ_aggregates_witness :
  consumers_live Mock.two
  ∧ (∃ order rets ret w',
      MergeDLQ Mock.topic Mock.ranges [] Mock.two = Some (ret, w')
      ∧ order ≡ₚ map_to_list Mock.ranges
      ∧ Attempts Mock.topic Mock.two order rets w'
      ∧ (ret = None ↔ Forall (λ r, r = None) rets)
      ∧ (Mock.ranges = ∅ → ret = None)
      ∧ (∀ err, ret = Some err →
           Error err = "DLQ merge failed for " +:+ strings_Join (failures order rets) ","
           ∧ ∀ i partition offsetRange e,
               order !! i = Some (partition, offsetRange) →
               rets !! i = Some (Some e) →
               contains (Error err)
                 ("partition=" +:+ pretty partition +:+ " err=" +:+ Error e))).
Proof.
  assert (consumers_live Mock.two) as Hlive.
  { apply map_Forall_to_list; vm_compute; repeat constructor; eexists; reflexivity. }
  split; [exact Hlive|].
  exact (MergeDLQ_aggregates Mock.topic Mock.ranges [] Mock.two Hlive).
Defined.

(** [MergeDLQ] of the partitions 0, 1 and 2 on the mock topic. *)
Lemma MergeDLQ_resets_the_DLQ_witness :
  consumers_live Mock.two
  ∧ (∃ order ret w',
      MergeDLQ Mock.topic Mock.ranges [] Mock.two = Some (ret, w')
      ∧ order ≡ₚ map_to_list Mock.ranges
      ∧ calls w' = calls Mock.two
          ++ map (λ pr, CallResetOffset (Cluster (DLQ Mock.topic)) (Kafka.Name (DLQ Mock.topic))
                          pr.1 pr.2) order
      ∧ ∀ partition offsetRange,
          Mock.ranges !! partition = Some offsetRange
          ↔ (partition, offsetRange) ∈ order).
Proof.
  assert (consumers_live Mock.two) as Hlive.
  { apply map_Forall_to_list; vm_compute; repeat constructor; eexists; reflexivity. }
  split; [exact Hlive|].
  exact (MergeDLQ_resets_the_DLQ Mock.topic Mock.ranges [] Mock.two Hlive).
Defined.

(** Offset resets and DLQ merges on the coordinator over the mock consumers. *)
Lemma ResetOffset_MergeDLQ_frame_witness :
  consumers_live Mock.two
  ∧ ((∀ cluster topic partition offsetRange,
       ∃ ret w', ResetOffset cluster topic partition offsetRange Mock.two = Some (ret, w')
         ∧ same_coordinator Mock.two w' ∧ done_state w' = done_state Mock.two)
    ∧ (∀ topic offsetRanges pick,
         ∃ ret w', MergeDLQ topic offsetRanges pick Mock.two = Some (ret, w')
           ∧ same_coordinator Mock.two w' ∧ done_state w' = done_state Mock.two)).
Proof.
  assert (consumers_live Mock.two) as Hlive.
  { apply map_Forall_to_list; vm_compute; repeat constructor; eexists; reflexivity. }
  split; [exact Hlive|]. exact (ResetOffset_MergeDLQ_frame Mock.two Hlive).
Defined.

(** [Stop()] on the running coordinator over [cc1]. *)
Lemma Stop_teardown_in_order_witness :
  Reachable Mock.running
  ∧ (∃ w',
      Stop Mock.canonical Mock.running = Some (tt, w')
      ∧ (phase_of Mock.running = Util.Running →
         ∃ o1 o2 rets,
           o1 ≡ₚ map_to_list (clusterConsumerMap (coord Mock.running))
           ∧ o2 ≡ₚ map_to_list (clusterToSaramaClientMap (coord Mock.running))
           ∧ length rets = length o2
           ∧ trace w' = trace Mock.running
               ++ map (λ np, EvConsumerStop np.2) o1
               ++ zip_with (λ np r, EvClientClose np.2 r) o2 rets
               ++ [EvClose (chan_struct (doneC (coord Mock.running)));
                   EvLogInfo (logger (coord Mock.running)) "multicluster consumer stopped"
                     (groupName (coord Mock.running)) (topics (coord Mock.running));
                   EvCounterInc (scope (coord Mock.running)) KafkaConsumerStopped]
           ∧ phase_of w' = Util.Stopped
           ∧ done_state w' = Some ch_closed)
      ∧ (phase_of Mock.running ≠ Util.Running → trace w' = trace Mock.running ∧ phase_of w' = phase_of Mock.running)).
Proof.
  assert (Reachable Mock.running) as Hreach.
  { apply (reach_call Mock.one (OpStart [] Mock.canonical)); [|by vm_compute].
    apply reach_new. split; apply map_Forall_to_list; vm_compute; repeat constructor;
      eexists; reflexivity. }
  split; [exact Hreach|].
  exact (Stop_teardown_in_order Mock.canonical Mock.running Hreach).
Defined.

(** The done-signal of the running coordinator over [cc1]: open, and
    closed by its [Stop()]. *)
Lemma doneC_closed_exactly_once_witness :
  Reachable Mock.running
  ∧ phase_of Mock.running = Util.Running
  ∧ (Closed Mock.running = Some (chan_struct (doneC (coord Mock.running)), Mock.running)
    ∧ (closes (trace Mock.running) = [] ∧ done_state Mock.running = Some ch_open
       ∨ closes (trace Mock.running) = [chan_struct (doneC (coord Mock.running))]
         ∧ done_state Mock.running = Some ch_closed)
    ∧ (CallStop ∉ calls Mock.running → done_state Mock.running = Some ch_open)
    ∧ (∀ picks, ∃ w',
         Stop picks Mock.running = Some (tt, w')
         ∧ (phase_of Mock.running = Util.Running →
            done_state Mock.running = Some ch_open
            ∧ done_state w' = Some ch_closed
            ∧ closes (trace w') = [chan_struct (doneC (coord Mock.running))]))
    ∧ (∀ pick p1 p2, ∃ w',
         run [OpStart pick p1; OpStop p2] Mock.running = Some (tt, w')
         ∧ done_state w' = Some ch_closed
         ∧ closes (trace w') = [chan_struct (doneC (coord Mock.running))])
    ∧ ∀ ops, ∃ w',
        run ops Mock.running = Some (tt, w')
        ∧ doneC (coord w') = doneC (coord Mock.running)
        ∧ (done_state Mock.running = Some ch_closed →
           done_state w' = Some ch_closed
           ∧ closes (trace w') = closes (trace Mock.running))).
Proof.
  assert (Reachable Mock.running) as Hreach.
  { apply (reach_call Mock.one (OpStart [] Mock.canonical)); [|by vm_compute].
    apply reach_new. split; apply map_Forall_to_list; vm_compute; repeat constructor;
      eexists; reflexivity. }
  split; [exact Hreach|]. split; [by vm_compute|].
  exact (doneC_closed_exactly_once Mock.running Hreach).
Defined.

(** A start that fails and two stops on the coordinator over the mock consumers. *)
Lemma msgC_never_closed_witness :
  Reachable Mock.two
  ∧ (∃ w',
      run [OpStart [] Mock.canonical; OpStop Mock.canonical; OpStop Mock.canonical] Mock.two = Some (tt, w')
      ∧ Messages w' = Some (chan_Message (msgC (coord Mock.two)), w')
      ∧ msg_chans w' = msg_chans Mock.two
      ∧ ∀ l, chan_Message l ∉ closes (trace w')).
Proof.
  assert (Reachable Mock.two) as Hreach.
  { apply reach_new. split; apply map_Forall_to_list; vm_compute; repeat constructor;
      eexists; reflexivity. }
  split; [exact Hreach|].
  exact (msgC_never_closed
           [OpStart [] Mock.canonical; OpStop Mock.canonical; OpStop Mock.canonical]
           Mock.two Hreach).
Defined.

End Examples.

(** ** Further properties of consumerOptions.go *)

Section OptionsMore.

Import KafkaClient.
Context {ConsumerError OtherOption : Type}.
#[local] Abbreviation Heap := (@Heap ConsumerError).
#[local] Abbreviation ConsumerOption := (@ConsumerOption OtherOption).
#[local] Abbreviation EnablePartialConstruction :=
  (@EnablePartialConstruction ConsumerError OtherOption).
#[local] Abbreviation PartialConstructionError :=
  (@PartialConstructionError ConsumerError OtherOption).
#[local] Abbreviation addPartialConstructionError :=
  (@addPartialConstructionError ConsumerError OtherOption).

Lemma live_option_dom (h h' : Heap) (o : ConsumerOption) :
  dom (h_partial h') = dom (h_partial h) → live_option h o → live_option h' o.
Proof.
  intros Hd. destruct o as [|[l|]|]; cbn; try done.
  by rewrite <-!elem_of_dom, Hd.
Qed.

(** What [addPartialConstructionError] does to the heap when it returns. *)
Lemma addPartialConstructionError_effect (c : list ConsumerOption) errs' : ∀ (h h' : Heap),
  addPartialConstructionError c errs' h = Returns h' →
  Forall (live_option h) c
  ∧ h_lists h' = h_lists h
  ∧ dom (h_partial h') = dom (h_partial h)
  ∧ (∀ l, l ∈ partial_locs c →
          ∃ pe, h_partial h !! l = Some pe
              ∧ h_partial h' !! l = Some {| enabled := enabled pe; errs := errs' |})
  ∧ (∀ l, l ∉ partial_locs c → h_partial h' !! l = h_partial h !! l).
Proof.
  induction c as [|o c IH]; intros h h' Hrun.
  - injection Hrun as <-. split_and!; try done. intros l Hl. by apply elem_of_nil in Hl.
  - destruct o as [|[l0|]|o]; cbn [KafkaClient.addPartialConstructionError] in Hrun;
      try done.
    + destruct (IH h h' Hrun) as (Hlive & Hlists & Hdom & Hin & Hout).
      split_and!; try done. by constructor.
    + destruct (h_partial h !! l0) as [pe|] eqn:Hl0; [|done].
      destruct (IH _ h' Hrun) as (Hlive & Hlists & Hdom & Hin & Hout).
      cbn in Hlive, Hlists, Hdom, Hin, Hout.
      assert (Hdom1 : dom (<[l0 := {| enabled := enabled pe; errs := errs' |}]>
                             (h_partial h)) = dom (h_partial h)).
      { apply dom_insert_lookup_L. by exists pe. }
      split_and!.
      * constructor; [cbn; by rewrite Hl0|].
        eapply Forall_impl; [exact Hlive|]. intros o Ho.
        apply (live_option_dom _ h) in Ho; [exact Ho|by symmetry].
      * done.
      * by rewrite Hdom, Hdom1.
      * intros l Hl. change (partial_locs (option_partialConstruction (Some l0) :: c))
          with (l0 :: partial_locs c) in Hl.
        destruct (decide (l ∈ partial_locs c)) as [Hc|Hc].
        -- destruct (Hin l Hc) as (pe1 & H1 & H2).
           destruct (decide (l = l0)) as [->|Hne].
           ++ rewrite lookup_insert_eq in H1. injection H1 as <-.
              exists pe. by rewrite Hl0, H2.
           ++ rewrite lookup_insert_ne in H1 by done. by exists pe1.
        -- apply elem_of_cons in Hl as [->|Hl]; [|done].
           exists pe. split; [done|]. rewrite (Hout l0 Hc). apply lookup_insert_eq.
      * intros l Hl. change (partial_locs (option_partialConstruction (Some l0) :: c))
          with (l0 :: partial_locs c) in Hl.
        apply not_elem_of_cons in Hl as [Hne Hl].
        rewrite (Hout l Hl). by apply lookup_insert_ne.
    + destruct (IH h h' Hrun) as (Hlive & Hlists & Hdom & Hin & Hout).
      split_and!; try done. by constructor.
Qed.

Lemma addPartialConstructionError_returns (c : list ConsumerOption) errs' : ∀ (h : Heap),
  Forall (live_option h) c → ∃ h', addPartialConstructionError c errs' h = Returns h'.
Proof.
  induction c as [|o c IH]; intros h Hlive; [by eexists|].
  apply Forall_cons in Hlive as [Ho Hlive].
  destruct o as [|[l0|]|o]; cbn [KafkaClient.addPartialConstructionError].
  - by apply IH.
  - destruct Ho as [pe Hpe]. cbn in Hpe. rewrite Hpe. apply IH.
    eapply Forall_impl; [exact Hlive|]. intros o Ho.
    apply (live_option_dom h); [|done]. cbn. apply dom_insert_lookup_L. by exists pe.
  - by destruct Ho.
  - by apply IH.
Qed.

(** X1. [addPartialConstructionError] returns exactly when no option of the
    list is a nil or dangling [*partialConstruction]. When it returns,
    every [partialConstruction] the list points to has got the given error
    list and has kept its toggle, every other one is as it was, and no
    error list has changed. *)
Theorem addPartialConstructionError_attaches (c : list ConsumerOption) errs' (h : Heap) :
  ((∃ h', addPartialConstructionError c errs' h = Returns h') ↔ Forall (live_option h) c)
  ∧ ∀ h', addPartialConstructionError c errs' h = Returns h' →
      h_lists h' = h_lists h
      ∧ (∀ l, l ∈ partial_locs c →
              ∃ pe, h_partial h !! l = Some pe
                  ∧ h_partial h' !! l = Some {| enabled := enabled pe; errs := errs' |})
      ∧ (∀ l, l ∉ partial_locs c → h_partial h' !! l = h_partial h !! l).
Proof.
  split.
  - split; [|apply addPartialConstructionError_returns].
    intros [h' Hrun]. by apply addPartialConstructionError_effect in Hrun as [? _].
  - intros h' Hrun.
    by apply addPartialConstructionError_effect in Hrun as (_ & ? & _ & ? & ?).
Qed.

(** X2. Once [addPartialConstructionError] has attached a live error list
    to the options of a list, [PartialConstructionError] returns for every
    option of that list: the entries of that one list for each
    partial-construction option, and nil for the others. *)
Theorem PartialConstructionError_after_attach (c : list ConsumerOption) l el (h : Heap) :
  Forall (live_option h) c →
  h_lists h !! l = Some el →
  ∃ h', addPartialConstructionError c (Some l) h = Returns h'
      ∧ ∀ o, o ∈ c →
          PartialConstructionError h' o
            = Returns (match o with
                       | option_partialConstruction _ => cel_errs el
                       | _ => None
                       end).
Proof.
  intros Hlive Hl.
  destruct (addPartialConstructionError_returns c (Some l) h Hlive) as [h' Hrun].
  exists h'. split; [done|].
  destruct (addPartialConstructionError_effect c (Some l) h h' Hrun)
    as (_ & Hlists & _ & Hin & _).
  intros o Ho. destruct o as [|[l0|]|o]; try done.
  - destruct (Hin l0) as (pe & _ & Hpe).
    { unfold partial_locs. apply list_elem_of_omap.
      by exists (option_partialConstruction (Some l0)). }
    cbn. rewrite Hpe. cbn. by rewrite Hlists, Hl.
  - rewrite Forall_forall in Hlive. by destruct (Hlive _ Ho).
Qed.

(** X3. The option that [EnablePartialConstruction()] returns is a new
    object: no object of the heap is changed. Its [apply] sets
    [PartialConstruction], whatever it was, and still does so after any
    [addPartialConstructionError]. *)
Theorem EnablePartialConstruction_apply (h : Heap) :
  ∃ p, (EnablePartialConstruction h).1 = option_partialConstruction (Some p)
     ∧ h_partial h !! p = None
     ∧ (∀ l, l ≠ p → h_partial (EnablePartialConstruction h).2 !! l = h_partial h !! l)
     ∧ h_lists (EnablePartialConstruction h).2 = h_lists h
     ∧ (∀ opt, apply (EnablePartialConstruction h).2 (Some p) opt
                = Returns {| PartialConstruction := true |})
     ∧ ∀ (c : list ConsumerOption) errs' h' opt,
         addPartialConstructionError c errs' (EnablePartialConstruction h).2 = Returns h' →
         apply h' (Some p) opt = Returns {| PartialConstruction := true |}.
Proof.
  exists (fresh (dom (h_partial h))).
  assert (Hp : h_partial (EnablePartialConstruction h).2 !! fresh (dom (h_partial h))
               = Some {| enabled := true; errs := None |}) by apply lookup_insert_eq.
  split_and!; try done.
  - apply not_elem_of_dom, is_fresh.
  - intros l Hne. cbn. by apply lookup_insert_ne.
  - intros opt. unfold apply. cbn [mbind option_bind]. by rewrite Hp.
  - intros c errs' h' opt Hrun.
    apply addPartialConstructionError_effect in Hrun as (_ & _ & _ & Hin & Hout).
    unfold apply. cbn [mbind option_bind].
    destruct (decide (fresh (dom (h_partial h)) ∈ partial_locs c)) as [Hc|Hc].
    + destruct (Hin _ Hc) as (pe & H1 & ->). rewrite Hp in H1. by injection H1 as <-.
    + by rewrite (Hout _ Hc), Hp.
Qed.

(** X4. The options hold the error list by pointer: what is written to
    the list after [addPartialConstructionError] has attached it is what
    [PartialConstructionError] returns for every partial-construction
    option of the list of options. *)
Theorem PartialConstructionError_sees_later_errors (c : list ConsumerOption) l (h : Heap) :
  Forall (live_option h) c →
  ∃ h', addPartialConstructionError c (Some l) h = Returns h'
      ∧ ∀ el' o, o ∈ c →
          PartialConstructionError
            {| h_partial := h_partial h'; h_lists := <[l := el']> (h_lists h') |} o
          = Returns (match o with
                     | option_partialConstruction _ => cel_errs el'
                     | _ => None
                     end).
Proof.
  intros Hlive.
  destruct (addPartialConstructionError_returns c (Some l) h Hlive) as [h' Hrun].
  exists h'. split; [done|].
  destruct (addPartialConstructionError_effect c (Some l) h h' Hrun)
    as (_ & _ & _ & Hin & _).
  intros el' o Ho. destruct o as [|[l0|]|o]; try done.
  - destruct (Hin l0) as (pe & _ & Hpe).
    { unfold partial_locs. apply list_elem_of_omap.
      by exists (option_partialConstruction (Some l0)). }
    cbn. rewrite Hpe. cbn. by rewrite lookup_insert_eq.
  - rewrite Forall_forall in Hlive. by destruct (Hlive _ Ho).
Qed.

(** X5. Of two calls of [addPartialConstructionError] on the same
    options the second one wins: the heap is the one that the second call
    alone would have left. *)
Theorem addPartialConstructionError_last_wins (c : list ConsumerOption) e1 e2 (h : Heap) :
  Forall (live_option h) c →
  ∃ h1 h2,
    addPartialConstructionError c e1 h = Returns h1
    ∧ addPartialConstructionError c e2 h1 = Returns h2
    ∧ addPartialConstructionError c e2 h = Returns h2.
Proof.
  intros Hlive.
  destruct (addPartialConstructionError_returns c e1 h Hlive) as [h1 Hrun1].
  destruct (addPartialConstructionError_effect c e1 h h1 Hrun1)
    as (_ & Hlists1 & Hdom1 & Hin1 & Hout1).
  destruct (addPartialConstructionError_returns c e2 h1) as [h2 Hrun2].
  { eapply Forall_impl; [exact Hlive|]. intros o. by apply live_option_dom. }
  destruct (addPartialConstructionError_effect c e2 h1 h2 Hrun2)
    as (_ & Hlists2 & _ & Hin2 & Hout2).
  destruct (addPartialConstructionError_returns c e2 h Hlive) as [h2' Hrun2'].
  destruct (addPartialConstructionError_effect c e2 h h2' Hrun2')
    as (_ & Hlists2' & _ & Hin2' & Hout2').
  exists h1, h2. split; [done|]. split; [done|]. rewrite Hrun2'. f_equal.
  destruct h2 as [p2 l2], h2' as [p2' l2']. cbn in *. f_equal; [|congruence].
  apply map_eq. intros i. destruct (decide (i ∈ partial_locs c)) as [Hi|Hi].
  - destruct (Hin1 i Hi) as (pe & Hpe & Hpe1).
    destruct (Hin2 i Hi) as (pe1 & Hpe1' & ->).
    destruct (Hin2' i Hi) as (pe' & Hpe' & ->).
    rewrite Hpe1 in Hpe1'. injection Hpe1' as <-. cbn. congruence.
  - by rewrite (Hout2 i Hi), (Hout1 i Hi), (Hout2' i Hi).
Qed.

End OptionsMore.

(** ** Further properties of multiclusterConsumer.go *)

Section CoordinatorMore.

Import Kafka Consumer.
Context `{K : Collaborators}.

Ltac mopen := unfold mbind, M_bind, mret, M_ret, ret, self, emit, called.
Tactic Notation "mopen" "in" hyp(H) :=
  unfold mbind, M_bind, mret, M_ret, ret, self, emit, called in H.

(** *** What a call that returns has done *)

Lemma bind_inv {A B} (m : M A) (k : A → M B) w b w' :
  bind m k w = Some (b, w') →
  ∃ a w1, m w = Some (a, w1) ∧ k a w1 = Some (b, w').
Proof.
  unfold bind. destruct (m w) as [[a w1]|]; [|done]. intros Hk. by exists a, w1.
Qed.

Lemma touches_refl ccs cls w : touches ccs cls w w [].
Proof. unfold touches. by rewrite app_nil_r. Qed.

Lemma touches_trans ccs cls w1 w2 w3 evs1 evs2 :
  touches ccs cls w1 w2 evs1 → touches ccs cls w2 w3 evs2 →
  touches ccs cls w1 w3 (evs1 ++ evs2).
Proof.
  intros (Hc1 & Hcc1 & Hcl1 & Hm1 & Hs1 & Hk1 & Ht1)
         (Hc2 & Hcc2 & Hcl2 & Hm2 & Hs2 & Hk2 & Ht2).
  unfold touches. rewrite Ht2, Ht1, app_assoc. split_and!; try congruence.
  - intros cc Hcc. by rewrite Hcc2, Hcc1.
  - intros cl Hcl. by rewrite Hcl2, Hcl1.
Qed.

Lemma touches_mono ccs ccs' cls cls' w w' evs :
  ccs ⊆ ccs' → cls ⊆ cls' → touches ccs cls w w' evs → touches ccs' cls' w w' evs.
Proof.
  intros Hcc Hcl (?&H1&H2&?). split_and!; try tauto.
  - intros cc Hn. apply H1. intros Hin. by apply Hn, Hcc.
  - intros cl Hn. apply H2. intros Hin. by apply Hn, Hcl.
Qed.

Lemma subseteq_head (x : loc) (l : list loc) : [x] ⊆ x :: l.
Proof.
  intros y Hy. apply list_elem_of_singleton in Hy as ->. apply elem_of_cons. by left.
Qed.

Lemma subseteq_tail (x : loc) (l : list loc) : l ⊆ x :: l.
Proof. intros y Hy. apply elem_of_cons. by right. Qed.

Lemma ClusterConsumer_Start_inv cc w r w' :
  ClusterConsumer_Start cc w = Some (r, w') →
  touches [cc] [] w w' [EvConsumerStart cc r].
Proof.
  unfold ClusterConsumer_Start. destruct (consumers w !! cc) as [s|]; [|done].
  intros [= <- <-]. unfold touches. cbn. split_and!; try done.
  intros cc' Hne. apply lookup_insert_ne. intros ->. apply Hne, list_elem_of_singleton. done.
Qed.

Lemma ClusterConsumer_Stop_inv cc w w' :
  ClusterConsumer_Stop cc w = Some (tt, w') →
  touches [cc] [] w w' [EvConsumerStop cc].
Proof.
  unfold ClusterConsumer_Stop. destruct (consumers w !! cc) as [s|]; [|done].
  intros [= <-]. unfold touches. cbn. split_and!; try done.
  intros cc' Hne. apply lookup_insert_ne. intros ->. apply Hne, list_elem_of_singleton. done.
Qed.

Lemma ClusterConsumer_ResetOffset_inv cc topic partition offsetRange w r w' :
  ClusterConsumer_ResetOffset cc topic partition offsetRange w = Some (r, w') →
  touches [cc] [] w w' [EvConsumerResetOffset cc topic partition offsetRange r].
Proof.
  unfold ClusterConsumer_ResetOffset. destruct (consumers w !! cc) as [s|]; [|done].
  intros [= <- <-]. unfold touches. cbn. split_and!; try done.
  intros cc' Hne. apply lookup_insert_ne. intros ->. apply Hne, list_elem_of_singleton. done.
Qed.

Lemma Client_Close_inv cl w r w' :
  Client_Close cl w = Some (r, w') →
  touches [] [cl] w w' [EvClientClose cl r].
Proof.
  unfold Client_Close. destruct (clients w !! cl) as [s|]; [|done].
  intros [= <- <-]. unfold touches. cbn. split_and!; try done.
  intros cl' Hne. apply lookup_insert_ne. intros ->. apply Hne, list_elem_of_singleton. done.
Qed.

Lemma Start_range_inv order : ∀ w ret w',
  Start_range order w = Some (ret, w') →
  ∃ evs, touches order.*2 [] w w' evs ∧ start_loop_events (coord w) order ret evs.
Proof.
  induction order as [|[clusterName cc] rest IH]; intros w ret w' Hrun.
  - injection Hrun as <- <-. exists []. split; [apply touches_refl|done].
  - cbn [Start_range] in Hrun. mopen in Hrun.
    apply bind_inv in Hrun as (r & w1 & Hstart & Hrun).
    apply ClusterConsumer_Start_inv in Hstart.
    assert (Hc1 : coord w1 = coord w) by apply Hstart.
    apply (touches_mono _ ((clusterName, cc) :: rest).*2 _ []) in Hstart;
      [|apply subseteq_head|done].
    destruct r as [e|].
    + cbn in Hrun. injection Hrun as <- <-. eexists. split.
      * eapply touches_trans; [exact Hstart|].
        unfold touches. cbn. split_and!; try done.
      * exists [], (clusterName, cc), rest. by rewrite Hc1.
    + apply IH in Hrun as (evs & Ht & Hev).
      apply (touches_mono _ ((clusterName, cc) :: rest).*2 _ []) in Ht;
        [|apply subseteq_tail|done].
      exists ([EvConsumerStart cc None] ++ evs).
      split; [by eapply touches_trans|].
      rewrite Hc1 in Hev. destruct ret as [e|]; cbn in *.
      * destruct Hev as (pre & np & post & -> & ->).
        by exists ((clusterName, cc) :: pre), np, post.
      * by rewrite Hev.
Qed.

Lemma Stop_range_consumers_inv order : ∀ w w',
  Stop_range_consumers order w = Some (tt, w') →
  touches order.*2 [] w w' (map (λ np, EvConsumerStop np.2) order).
Proof.
  induction order as [|[clusterName cc] rest IH]; intros w w' Hrun.
  - injection Hrun as <-. apply touches_refl.
  - cbn [Stop_range_consumers] in Hrun. mopen in Hrun.
    apply bind_inv in Hrun as ([] & w1 & Hstop & Hrun).
    apply ClusterConsumer_Stop_inv in Hstop. apply IH in Hrun.
    apply (touches_trans _ _ _ w1 _ [_]).
    + eapply touches_mono; [apply subseteq_head|done|exact Hstop].
    + eapply touches_mono; [apply subseteq_tail|done|exact Hrun].
Qed.

Lemma Stop_range_clients_inv order : ∀ w w',
  Stop_range_clients order w = Some (tt, w') →
  ∃ rets, length rets = length order
        ∧ touches [] order.*2 w w' (zip_with (λ np r, EvClientClose np.2 r) order rets).
Proof.
  induction order as [|[clusterName cl] rest IH]; intros w w' Hrun.
  - injection Hrun as <-. exists []. split; [done|]. apply touches_refl.
  - cbn [Stop_range_clients] in Hrun. mopen in Hrun.
    apply bind_inv in Hrun as (r & w1 & Hclose & Hrun).
    apply Client_Close_inv in Hclose. apply IH in Hrun as (rets & Hlen & Hrun).
    exists (r :: rets). split; [cbn; by rewrite Hlen|].
    apply (touches_trans _ _ _ w1 _ [_]).
    + eapply touches_mono; [done|apply subseteq_head|exact Hclose].
    + eapply touches_mono; [done|apply subseteq_tail|exact Hrun].
Qed.


(** Every entry a [range] loop visits is an entry of the map. *)
Lemma range_order_registered (m : gmap string loc) pick l :
  l ∈ (range_order m pick).*2 → registered m l.
Proof.
  intros Hin. apply list_elem_of_fmap in Hin as ([name l'] & -> & Hin).
  exists name. by apply range_order_elem in Hin.
Qed.

Lemma Stop_body_inv picks w w' :
  Stop_body picks w = Some (tt, w') →
  ∃ rets,
    length rets
      = length (range_order (clusterToSaramaClientMap (coord w)) (pick_clients picks))
    ∧ done_state w = Some ch_open
    ∧ coord w' = coord w
    ∧ (∀ cc, ¬ registered (clusterConsumerMap (coord w)) cc →
             consumers w' !! cc = consumers w !! cc)
    ∧ (∀ cl, ¬ registered (clusterToSaramaClientMap (coord w)) cl →
             clients w' !! cl = clients w !! cl)
    ∧ msg_chans w' = msg_chans w
    ∧ sig_chans w' = <[doneC (coord w) := ch_closed]> (sig_chans w)
    ∧ calls w' = calls w
    ∧ trace w' = trace w ++ teardown_events (coord w)
        (range_order (clusterConsumerMap (coord w)) (pick_consumers picks))
        (range_order (clusterToSaramaClientMap (coord w)) (pick_clients picks))
        rets.
Proof.
  unfold Stop_body. mopen. cbn -[range_order]. intros Hrun.
  apply bind_inv in Hrun as ([] & w1 & Hstops & Hrun).
  apply Stop_range_consumers_inv in Hstops
    as (Hc1 & Hcc1 & Hcl1 & Hm1 & Hs1 & Hk1 & Ht1).
  cbn -[range_order] in Hrun.
  apply bind_inv in Hrun as ([] & w2 & Hcloses & Hrun).
  rewrite Hc1 in Hcloses.
  apply Stop_range_clients_inv in Hcloses
    as (rets & Hlen & Hc2 & Hcc2 & Hcl2 & Hm2 & Hs2 & Hk2 & Ht2).
  cbn -[range_order] in Hrun.
  apply bind_inv in Hrun as ([] & w3 & Hclose & Hrun).
  unfold close in Hclose. rewrite Hc2, Hc1, Hs2, Hs1 in Hclose.
  destruct (sig_chans w !! doneC (coord w)) as [[]|] eqn:Hopen; try done.
  injection Hclose as <-. cbn in Hrun. injection Hrun as <-.
  exists rets. unfold done_state. cbn.
  rewrite Hc2, Hc1, Hm2, Hm1, Hk2, Hk1, Ht2, Ht1. split_and!; try done.
  - intros cc Hcc. rewrite Hcc2 by apply not_elem_of_nil. apply Hcc1.
    intros Hin. apply Hcc. by eapply range_order_registered.
  - intros cl Hcl. rewrite Hcl2; [by apply Hcl1, not_elem_of_nil|].
    intros Hin. apply Hcl. by eapply range_order_registered.
  - unfold teardown_events. by rewrite <-!app_assoc.
Qed.

Lemma Stop_inv picks w w' :
  Stop picks w = Some (tt, w') →
  tears_down (phase_of w) = false ∧ w' = add_call CallStop w
  ∨ tears_down (phase_of w) = true
    ∧ ∃ rets,
        length rets
          = length (range_order (clusterToSaramaClientMap (coord w)) (pick_clients picks))
        ∧ coord w' = in_phase Util.Stopped (coord w)
        ∧ (∀ cc, ¬ registered (clusterConsumerMap (coord w)) cc →
                 consumers w' !! cc = consumers w !! cc)
        ∧ (∀ cl, ¬ registered (clusterToSaramaClientMap (coord w)) cl →
                 clients w' !! cl = clients w !! cl)
        ∧ msg_chans w' = msg_chans w
        ∧ sig_chans w' = <[doneC (coord w) := ch_closed]> (sig_chans w)
        ∧ calls w' = calls w ++ [CallStop]
        ∧ trace w' = trace w ++ teardown_events (coord w)
            (range_order (clusterConsumerMap (coord w)) (pick_consumers picks))
            (range_order (clusterToSaramaClientMap (coord w)) (pick_clients picks))
            rets.
Proof.
  intros Hrun. destruct (tears_down (phase_of w)) eqn:Htd.
  - right. split; [done|].
    unfold Stop in Hrun. mopen in Hrun.
    apply bind_inv in Hrun as ([] & w1 & Hguard & Hrun). injection Hrun as <-.
    unfold Util.Stop in Hguard. unfold phase_of in Htd.
    destruct (Stop_body picks
                (set_lifecycle (Util.to_phase Util.Stopping (lifecycle (coord w))) w))
      as [[[] w2]|] eqn:Hbody.
    + apply Stop_body_inv in Hbody
        as (rets & Hlen & _ & Hc & Hcc & Hcl & Hm & Hs & Hk & Ht).
      cbn in Hlen, Hc, Hcc, Hcl, Hm, Hs, Hk, Ht.
      assert (w1 = set_lifecycle (Util.to_phase Util.Stopped (lifecycle (coord w2))) w2)
        as ->.
      { destruct (Util.phase (lifecycle (coord w))); try done; by injection Hguard. }
      exists rets. cbn. rewrite Hc, Hk. split_and!; done.
    + destruct (Util.phase (lifecycle (coord w))); done.
  - left. split; [done|]. rewrite Stop_idle in Hrun by done. by injection Hrun.
Qed.

Lemma Start_inv pick picks w ret w' :
  Start pick picks w = Some (ret, w') →
  phase_of w ≠ Util.NotStarted
    ∧ ret = Some Util.errNotStartedTwice ∧ Stop picks w = Some (tt, w')
  ∨ phase_of w = Util.NotStarted
    ∧ ∃ evs,
        start_loop_events (coord w)
          (range_order (clusterConsumerMap (coord w)) pick) ret evs
        ∧ (∀ cc, ¬ registered (clusterConsumerMap (coord w)) cc →
                 consumers w' !! cc = consumers w !! cc)
        ∧ (∀ cl, ¬ registered (clusterToSaramaClientMap (coord w)) cl →
                 clients w' !! cl = clients w !! cl)
        ∧ msg_chans w' = msg_chans w
        ∧ match ret with
          | None =>
              coord w' = in_phase Util.Running (coord w)
              ∧ sig_chans w' = sig_chans w
              ∧ calls w' = calls w
              ∧ trace w' = trace w ++ evs
                  ++ [EvLogInfo (logger (coord w)) "multicluster consumer started"
                        (groupName (coord w)) (topics (coord w));
                      EvCounterInc (scope (coord w)) KafkaConsumerStarted]
          | Some e =>
              ∃ rets,
                length rets
                  = length (range_order (clusterToSaramaClientMap (coord w))
                              (pick_clients picks))
                ∧ coord w' = in_phase Util.Stopped (coord w)
                ∧ sig_chans w' = <[doneC (coord w) := ch_closed]> (sig_chans w)
                ∧ calls w' = calls w ++ [CallStop]
                ∧ trace w' = trace w ++ evs ++ teardown_events (coord w)
                    (range_order (clusterConsumerMap (coord w)) (pick_consumers picks))
                    (range_order (clusterToSaramaClientMap (coord w))
                       (pick_clients picks))
                    rets
          end.
Proof.
  intros Hrun. destruct (decide (phase_of w = Util.NotStarted)) as [Hph|Hph].
  - right. split; [done|].
    unfold Start in Hrun. mopen in Hrun.
    apply bind_inv in Hrun as (r & w1 & Hguard & Hrun).
    unfold Util.Start in Hguard. unfold phase_of in Hph. rewrite Hph in Hguard.
    set (w0 := set_lifecycle (Util.to_phase Util.Starting (lifecycle (coord w))) w) in *.
    destruct (Start_body pick w0) as [[r0 w2]|] eqn:Hbody; [|done].
    unfold Start_body in Hbody. mopen in Hbody. cbn -[range_order] in Hbody.
    apply Start_range_inv in Hbody
      as (evs & (Hc & Hcc & Hcl & Hm & Hs & Hk & Ht) & Hev).
    cbn in Hc, Hcc, Hcl, Hm, Hs, Hk, Ht, Hev.
    assert (Hreg : ∀ cc, ¬ registered (clusterConsumerMap (coord w)) cc →
                         consumers w2 !! cc = consumers w !! cc).
    { intros cc Hn. apply Hcc. intros Hin. apply Hn. by eapply range_order_registered. }
    destruct r0 as [e|].
    + injection Hguard as <- <-.
      apply bind_inv in Hrun as ([] & w3 & Hstop & Hrun). injection Hrun as <- <-.
      apply Stop_inv in Hstop as [[Htd _]|[_ Hstop]].
      { unfold phase_of in Htd. by rewrite Hc in Htd. }
      destruct Hstop as (rets & Hlen & Hc3 & Hcc3 & Hcl3 & Hm3 & Hs3 & Hk3 & Ht3).
      rewrite Hc in Hlen, Hc3, Hcc3, Hcl3, Hs3, Ht3. cbn in Hlen, Hcc3, Hcl3, Hs3, Ht3.
      exists evs. split; [done|]. split_and!.
      * intros cc Hn. by rewrite Hcc3, Hreg.
      * intros cl Hn. rewrite Hcl3 by done. by apply Hcl, not_elem_of_nil.
      * congruence.
      * exists rets. rewrite Hs3, Hs, Hk3, Hk, Ht3, Ht, <-app_assoc. split_and!; done.
    + injection Hguard as <- <-. cbn in Hrun. injection Hrun as <- <-.
      exists evs. split; [done|]. cbn. rewrite Hc, Ht, <-!app_assoc.
      split_and!; try done. intros cl Hn. by apply Hcl, not_elem_of_nil.
  - left. split; [done|]. rewrite Start_refused in Hrun by done.
    destruct (Stop picks w) as [[[] w1]|]; [|done]. by injection Hrun as <- <-.
Qed.


Lemma ResetOffset_inv cluster topic partition offsetRange w ret w' :
  ResetOffset cluster topic partition offsetRange w = Some (ret, w') →
  coord w' = coord w
  ∧ clients w' = clients w
  ∧ msg_chans w' = msg_chans w
  ∧ sig_chans w' = sig_chans w
  ∧ calls w' = calls w ++ [CallResetOffset cluster topic partition offsetRange]
  ∧ match clusterConsumerMap (coord w) !! cluster with
    | None =>
        ret = Some (errors_New "no cluster consumer found")
        ∧ consumers w' = consumers w
        ∧ trace w' = trace w
    | Some cc =>
        (∀ cc', cc' ≠ cc → consumers w' !! cc' = consumers w !! cc')
        ∧ trace w' = trace w
            ++ [EvConsumerResetOffset cc topic partition offsetRange ret]
    end.
Proof.
  intros Hrun. destruct (clusterConsumerMap (coord w) !! cluster) as [cc|] eqn:Hm.
  - unfold ResetOffset in Hrun. mopen in Hrun. cbn in Hrun. rewrite Hm in Hrun.
    apply ClusterConsumer_ResetOffset_inv in Hrun
      as (Hc & Hcc & Hcl & Hmsg & Hs & Hk & Ht).
    cbn in Hc, Hcc, Hcl, Hmsg, Hs, Hk, Ht. split_and!; try done.
    + apply map_eq. intros cl. by apply Hcl, not_elem_of_nil.
    + intros cc' Hne. apply Hcc. by intros ->%list_elem_of_singleton.
  - rewrite ResetOffset_absent in Hrun by done. by injection Hrun as <- <-.
Qed.

Lemma MergeDLQ_range_inv topic order : ∀ errList w errs w',
  MergeDLQ_range topic order errList w = Some (errs, w') →
  ∃ rets,
    length rets = length order
    ∧ errs = errList ++ failures order rets
    ∧ coord w' = coord w
    ∧ clients w' = clients w
    ∧ msg_chans w' = msg_chans w
    ∧ sig_chans w' = sig_chans w
    ∧ calls w' = calls w
        ++ map (λ pr, CallResetOffset (Cluster (DLQ topic)) (Kafka.Name (DLQ topic))
                        pr.1 pr.2) order
    ∧ match clusterConsumerMap (coord w) !! Cluster (DLQ topic) with
      | None =>
          rets = map (λ _, Some (errors_New "no cluster consumer found")) order
          ∧ consumers w' = consumers w
          ∧ trace w' = trace w
      | Some cc =>
          (∀ cc', cc' ≠ cc → consumers w' !! cc' = consumers w !! cc')
          ∧ trace w' = trace w
              ++ zip_with (λ pr r, EvConsumerResetOffset cc (Kafka.Name (DLQ topic))
                                     pr.1 pr.2 r) order rets
      end.
Proof.
  induction order as [|[partition offsetRange] rest IH]; intros errList w errs w' Hrun.
  - injection Hrun as <- <-. exists []. cbn. rewrite !app_nil_r.
    split_and!; try done. by destruct (clusterConsumerMap (coord w) !! _).
  - cbn [MergeDLQ_range] in Hrun. mopen in Hrun.
    apply bind_inv in Hrun as (r & w1 & Hreset & Hrun).
    apply ResetOffset_inv in Hreset as (Hc & Hcl & Hm & Hs & Hk & Hcase).
    assert (Hrun' : MergeDLQ_range topic rest
                      (errList ++ from_option (λ e, [partition_failure partition e]) [] r)
                      w1 = Some (errs, w')).
    { destruct r; cbn; [done|by rewrite app_nil_r]. }
    apply IH in Hrun' as (rets & Hlen & Herrs & Hc' & Hcl' & Hm' & Hs' & Hk' & Hcase').
    exists (r :: rets). rewrite Hc in Hcase'.
    split; [cbn; by rewrite Hlen|]. split.
    { rewrite Herrs. unfold failures. cbn. destruct r; cbn; by rewrite <-app_assoc. }
    rewrite Hc', Hc, Hcl', Hcl, Hm', Hm, Hs', Hs, Hk', Hk, <-app_assoc.
    split_and!; try done.
    destruct (clusterConsumerMap (coord w) !! Cluster (DLQ topic)) as [cc|].
    + destruct Hcase as [Hcc Ht], Hcase' as [Hcc' Ht']. split.
      * intros cc' Hne. by rewrite Hcc', Hcc.
      * rewrite Ht', Ht, <-app_assoc. done.
    + destruct Hcase as (-> & Hcc & Ht), Hcase' as (-> & Hcc' & Ht').
      split_and!; [done|congruence..].
Qed.

Lemma MergeDLQ_inv topic offsetRanges pick w ret w' :
  MergeDLQ topic offsetRanges pick w = Some (ret, w') →
  ∃ rets,
    length rets = length (range_order offsetRanges pick)
    ∧ ret = match failures (range_order offsetRanges pick) rets with
            | [] => None
            | fs => Some (fmt_Errorf "DLQ merge failed for " (strings_Join fs ","))
            end
    ∧ coord w' = coord w
    ∧ clients w' = clients w
    ∧ msg_chans w' = msg_chans w
    ∧ sig_chans w' = sig_chans w
    ∧ calls w' = calls w
        ++ map (λ pr, CallResetOffset (Cluster (DLQ topic)) (Kafka.Name (DLQ topic))
                        pr.1 pr.2) (range_order offsetRanges pick)
    ∧ match clusterConsumerMap (coord w) !! Cluster (DLQ topic) with
      | None =>
          rets = map (λ _, Some (errors_New "no cluster consumer found"))
                   (range_order offsetRanges pick)
          ∧ consumers w' = consumers w
          ∧ trace w' = trace w
      | Some cc =>
          (∀ cc', cc' ≠ cc → consumers w' !! cc' = consumers w !! cc')
          ∧ trace w' = trace w
              ++ zip_with (λ pr r, EvConsumerResetOffset cc (Kafka.Name (DLQ topic))
                                     pr.1 pr.2 r)
                   (range_order offsetRanges pick) rets
      end.
Proof.
  unfold MergeDLQ. mopen. intros Hrun.
  apply bind_inv in Hrun as (errs & w1 & Hloop & Hrun).
  apply MergeDLQ_range_inv in Hloop as (rets & Hlen & -> & Hrest).
  exists rets. cbn [app] in Hrun. split; [done|].
  split; [|by destruct (failures _ _); injection Hrun as <- <-].
  by destruct (failures _ _); injection Hrun as <- <-.
Qed.


(** *** Nothing else is touched *)

Lemma untouched_refl w : untouched w w.
Proof. split; [apply in_phase_self|done]. Qed.

Lemma untouched_trans w1 w2 w3 : untouched w1 w2 → untouched w2 w3 → untouched w1 w3.
Proof.
  intros (Hc1 & Hcc1 & Hcl1 & Hs1 & Hm1) (Hc2 & Hcc2 & Hcl2 & Hs2 & Hm2).
  rewrite Hc1 in Hc2, Hcc2, Hcl2, Hs2. cbn in Hc2, Hcc2, Hcl2, Hs2.
  split_and!; [done| | |intros ch Hch; by rewrite Hs2, Hs1|congruence].
  - intros cc Hcc. by rewrite Hcc2, Hcc1.
  - intros cl Hcl. by rewrite Hcl2, Hcl1.
Qed.

Lemma Stop_untouched picks w w' : Stop picks w = Some (tt, w') → untouched w w'.
Proof.
  intros Hrun. apply Stop_inv in Hrun as [[_ ->]|[_ Hrun]].
  { split; [apply in_phase_self|done]. }
  destruct Hrun as (rets & _ & Hc & Hcc & Hcl & Hm & Hs & _).
  split_and!; try done.
  - unfold phase_of. by rewrite Hc.
  - intros ch Hch. rewrite Hs. by apply lookup_insert_ne.
Qed.

Lemma Start_untouched pick picks w ret w' :
  Start pick picks w = Some (ret, w') → untouched w w'.
Proof.
  intros Hrun. apply Start_inv in Hrun as [(_ & _ & Hstop)|[_ Hrun]];
    [by eapply Stop_untouched|].
  destruct Hrun as (evs & _ & Hcc & Hcl & Hm & Hret). destruct ret as [e|].
  - destruct Hret as (rets & _ & Hc & Hs & _). split_and!; try done.
    + unfold phase_of. by rewrite Hc.
    + intros ch Hch. rewrite Hs. by apply lookup_insert_ne.
  - destruct Hret as (Hc & Hs & _). split_and!; try done.
    + unfold phase_of. by rewrite Hc.
    + intros ch _. by rewrite Hs.
Qed.

Lemma ResetOffset_untouched cluster topic partition offsetRange w ret w' :
  ResetOffset cluster topic partition offsetRange w = Some (ret, w') → untouched w w'.
Proof.
  intros Hrun. apply ResetOffset_inv in Hrun as (Hc & Hcl & Hm & Hs & _ & Hcase).
  split_and!; try done.
  - unfold phase_of. rewrite Hc. apply in_phase_self.
  - intros cc Hcc.
    destruct (clusterConsumerMap (coord w) !! cluster) as [cc0|] eqn:Hreg.
    + apply Hcase. intros ->. apply Hcc. by exists cluster.
    + destruct Hcase as (_ & -> & _). done.
  - intros cl _. by rewrite Hcl.
  - intros ch _. by rewrite Hs.
Qed.

Lemma MergeDLQ_untouched topic offsetRanges pick w ret w' :
  MergeDLQ topic offsetRanges pick w = Some (ret, w') → untouched w w'.
Proof.
  intros Hrun.
  apply MergeDLQ_inv in Hrun as (rets & _ & _ & Hc & Hcl & Hm & Hs & _ & Hcase).
  split_and!; try done.
  - unfold phase_of. rewrite Hc. apply in_phase_self.
  - intros cc Hcc.
    destruct (clusterConsumerMap (coord w) !! Cluster (DLQ topic)) as [cc0|] eqn:Hreg.
    + apply Hcase. intros ->. apply Hcc. by eexists.
    + destruct Hcase as (_ & -> & _). done.
  - intros cl _. by rewrite Hcl.
  - intros ch _. by rewrite Hs.
Qed.

Lemma exec_untouched op w w' : exec op w = Some (tt, w') → untouched w w'.
Proof.
  destruct op as [| |pick picks|picks| | |cluster topic partition r|topic rs pick];
    cbn [exec]; mopen; intros Hrun.
  1,2,5,6: by (unfold Name, Topics, Closed, Messages in Hrun; mopen in Hrun;
               cbn in Hrun; injection Hrun as <-; apply untouched_refl).
  - apply bind_inv in Hrun as (ret & w1 & Hrun & [= <-]). by eapply Start_untouched.
  - by eapply Stop_untouched.
  - apply bind_inv in Hrun as (ret & w1 & Hrun & [= <-]). by eapply ResetOffset_untouched.
  - apply bind_inv in Hrun as (ret & w1 & Hrun & [= <-]). by eapply MergeDLQ_untouched.
Qed.

Lemma run_untouched ops : ∀ w w', run ops w = Some (tt, w') → untouched w w'.
Proof.
  induction ops as [|op ops IH]; intros w w' Hrun.
  - injection Hrun as <-. apply untouched_refl.
  - cbn [run] in Hrun. mopen in Hrun.
    apply bind_inv in Hrun as ([] & w1 & Hop & Hrun).
    eapply untouched_trans; [by eapply exec_untouched|by apply IH].
Qed.


(** *** The account of the starts, stops, closes and counters *)

Lemma client_closes_app evs1 evs2 :
  client_closes (evs1 ++ evs2) = client_closes evs1 ++ client_closes evs2.
Proof. apply omap_app. Qed.

Lemma counters_app evs1 evs2 : counters (evs1 ++ evs2) = counters evs1 ++ counters evs2.
Proof. apply omap_app. Qed.

Lemma only_resets_silent evs :
  only_resets evs →
  starts evs = [] ∧ stops evs = [] ∧ client_closes evs = [] ∧ counters evs = [].
Proof.
  induction 1 as [|e evs He _ IH]; [done|]. by destruct e.
Qed.

Lemma only_resets_zip cc name (order : list (Z * OffsetRange)) : ∀ rets,
  only_resets (zip_with (λ pr r, EvConsumerResetOffset cc name pr.1 pr.2 r) order rets).
Proof.
  induction order as [|pr order IH]; intros [|r rets]; try by constructor.
  cbn. constructor; [done|apply IH].
Qed.

Lemma successful_starts_account (order : list (string * loc)) :
  starts (map (λ np, EvConsumerStart np.2 None) order) = map (λ np, (np.2, None)) order
  ∧ stops (map (λ np, EvConsumerStart np.2 None) order) = []
  ∧ client_closes (map (λ np, EvConsumerStart np.2 None) order) = []
  ∧ counters (map (λ np, EvConsumerStart np.2 None) order) = [].
Proof.
  induction order as [|np order (IH1 & IH2 & IH3 & IH4)]; [done|].
  cbn. split_and!; try done. by rewrite <-IH1.
Qed.

Lemma start_loop_account c order ret evs :
  start_loop_events c order ret evs →
  start_outcome order ret evs
  ∧ stops evs = [] ∧ client_closes evs = [] ∧ counters evs = [].
Proof.
  destruct ret as [e|]; cbn.
  - intros (pre & np & post & -> & ->).
    destruct (successful_starts_account pre) as (H1 & H2 & H3 & H4).
    rewrite starts_app, stops_app, client_closes_app, counters_app, H1, H2, H3, H4.
    split; [|done]. by exists pre, np, post.
  - intros ->. apply successful_starts_account.
Qed.

Lemma client_closes_teardown c o1 o2 rets :
  length rets = length o2 → client_closes (teardown_events c o1 o2 rets) = o2.*2.
Proof.
  intros Hlen. unfold teardown_events. rewrite !client_closes_app.
  assert (client_closes (map (λ np : string * loc, EvConsumerStop np.2) o1) = []) as ->.
  { induction o1 as [|[n cc] o1 IH]; [done|]. cbn. by rewrite <-IH. }
  cbn. rewrite app_nil_r.
  revert rets Hlen. induction o2 as [|[n cl] o2 IH]; intros [|r rets] Hlen; try done.
  cbn in *. f_equal. apply IH. by injection Hlen.
Qed.

Lemma counters_teardown c o1 o2 rets :
  counters (teardown_events c o1 o2 rets) = [KafkaConsumerStopped].
Proof.
  unfold teardown_events. rewrite !counters_app.
  assert (counters (map (λ np : string * loc, EvConsumerStop np.2) o1) = []) as ->.
  { induction o1 as [|[n cc] o1 IH]; [done|]. cbn. by rewrite <-IH. }
  assert (counters (zip_with (λ (np : string * loc) r, EvClientClose np.2 r) o2 rets)
          = []) as ->; [|done].
  revert rets. induction o2 as [|[n cl] o2 IH]; intros [|r rets]; try done.
  cbn. apply IH.
Qed.

Lemma quiet_accounted w w' evs :
  accounted w → coord w' = coord w → trace w' = trace w ++ evs → only_resets evs →
  accounted w'.
Proof.
  intros Hacc Hc Ht Hq. apply only_resets_silent in Hq as (H1 & H2 & H3 & H4).
  unfold accounted, phase_of in *.
  rewrite Hc, Ht, starts_app, stops_app, client_closes_app, counters_app,
    H1, H2, H3, H4, !app_nil_r.
  done.
Qed.

Lemma Stop_accounted picks w w' :
  accounted w → Stop picks w = Some (tt, w') → accounted w'.
Proof.
  intros Hacc Hrun. apply Stop_inv in Hrun as [[_ ->]|[Htd Hrun]]; [done|].
  destruct Hrun as (rets & Hlen & Hc & _ & _ & _ & _ & _ & Ht).
  unfold accounted, phase_of in *. rewrite Hc, Ht. cbn.
  rewrite starts_app, stops_app, client_closes_app, counters_app,
    starts_teardown, stops_teardown, client_closes_teardown, counters_teardown,
    app_nil_r by done.
  destruct (Util.phase (lifecycle (coord w))); try done.
  destruct Hacc as ((order & Hperm & Hst) & -> & -> & ->).
  split_and!.
  - exists order. split; [done|]. by left.
  - eexists. split; [apply range_order_perm|done].
  - eexists. split; [apply range_order_perm|done].
Qed.

Lemma Start_accounted pick picks w ret w' :
  accounted w → Start pick picks w = Some (ret, w') → accounted w'.
Proof.
  intros Hacc Hrun. apply Start_inv in Hrun as [(_ & _ & Hstop)|[Hph Hrun]];
    [by eapply Stop_accounted|].
  destruct Hrun as (evs & Hev & _ & _ & _ & Hret).
  apply start_loop_account in Hev as (Hst & Hsp & Hcc & Hct).
  unfold accounted in Hacc. rewrite Hph in Hacc. destruct Hacc as (H1 & H2 & H3 & H4).
  destruct ret as [e|].
  - destruct Hret as (rets & Hlen & Hc & _ & _ & Ht).
    unfold accounted, phase_of. rewrite Hc, Ht. cbn.
    rewrite !starts_app, !stops_app, !client_closes_app, !counters_app,
      starts_teardown, stops_teardown, client_closes_teardown, counters_teardown,
      H1, H2, H3, H4, Hsp, Hcc, Hct, app_nil_r by done.
    cbn. split_and!.
    + eexists. split; [apply range_order_perm|]. right.
      destruct Hst as (pre & np & post & Hord & Hst). by exists pre, np, post, e.
    + eexists. split; [apply range_order_perm|done].
    + eexists. split; [apply range_order_perm|done].
  - destruct Hret as (Hc & _ & _ & Ht).
    unfold accounted, phase_of. rewrite Hc, Ht. cbn.
    rewrite !starts_app, !stops_app, !client_closes_app, !counters_app,
      H1, H2, H3, H4, Hsp, Hcc, Hct. cbn. rewrite app_nil_r.
    split_and!; try done. eexists. split; [apply range_order_perm|done].
Qed.

Lemma exec_accounted op w w' : accounted w → exec op w = Some (tt, w') → accounted w'.
Proof.
  intros Hacc.
  destruct op as [| |pick picks|picks| | |cluster topic partition r|topic rs pick];
    cbn [exec]; mopen; intros Hrun.
  1,2,5,6: by (unfold Name, Topics, Closed, Messages in Hrun; mopen in Hrun;
               cbn in Hrun; injection Hrun as <-).
  - apply bind_inv in Hrun as (ret & w1 & Hrun & [= <-]). by eapply Start_accounted.
  - by eapply Stop_accounted.
  - apply bind_inv in Hrun as (ret & w1 & Hrun & [= <-]).
    apply ResetOffset_inv in Hrun as (Hc & _ & _ & _ & _ & Hcase).
    destruct (clusterConsumerMap (coord w) !! cluster) as [cc|].
    + destruct Hcase as [_ Ht]. eapply quiet_accounted; try done.
      by repeat constructor.
    + destruct Hcase as (_ & _ & Ht). eapply (quiet_accounted w _ []); try done.
      * by rewrite app_nil_r.
      * constructor.
  - apply bind_inv in Hrun as (ret & w1 & Hrun & [= <-]).
    apply MergeDLQ_inv in Hrun as (rets & _ & _ & Hc & _ & _ & _ & _ & Hcase).
    destruct (clusterConsumerMap (coord w) !! Cluster (DLQ topic)) as [cc|].
    + destruct Hcase as [_ Ht]. eapply quiet_accounted; try done.
      apply only_resets_zip.
    + destruct Hcase as (_ & _ & Ht). eapply (quiet_accounted w _ []); try done.
      * by rewrite app_nil_r.
      * constructor.
Qed.

Lemma Reachable_accounted w : Reachable w → accounted w.
Proof.
  induction 1 as [|w op w' _ IH Hrun|w ccs cls _ IH Hccs Hcls]; [done| |done].
  by eapply exec_accounted.
Qed.


(** *** The further properties *)

(** X6. After the construction from valid inputs and any sequence of calls,
    [Name()], [Topics()] and [Messages()] return what was given to
    [NewMultiClusterConsumer], and [Closed()] returns the channel made by
    the constructor, which did not exist before; the signal channels that
    existed before and the message channels are as they were before the
    construction. *)
Theorem constructed_accessors_stable groupName topics ccm scm msgC scope logger e ops :
  valid_inputs ccm scm e →
  ∃ d w',
    run ops (NewMultiClusterConsumer groupName topics ccm scm msgC scope logger e)
      = Some (tt, w')
    ∧ e_sig_chans e !! d = None
    ∧ Closed w' = Some (chan_struct d, w')
    ∧ Name w' = Some (groupName, w')
    ∧ Topics w' = Some (topics, w')
    ∧ Messages w' = Some (chan_Message msgC, w')
    ∧ (∀ ch, ch ≠ d → sig_chans w' !! ch = e_sig_chans e !! ch)
    ∧ msg_chans w' = e_msg_chans e.
Proof.
  intros Hvalid.
  set (w := NewMultiClusterConsumer groupName topics ccm scm msgC scope logger e).
  destruct (run_Inv ops w (Inv_new _ _ _ _ _ _ _ _ Hvalid)) as (w' & Hrun & _).
  pose proof (run_untouched ops w w' Hrun) as (Hc & _ & _ & Hs & Hm).
  exists (fresh (dom (e_sig_chans e))), w'. split; [done|].
  split; [apply not_elem_of_dom, is_fresh|].
  unfold Closed, Name, Topics, Messages. mopen. cbn. rewrite Hc. cbn.
  split_and!; try done.
  intros ch Hch. rewrite (Hs ch Hch). cbn. by apply lookup_insert_ne.
Qed.

(** X7. [ResetOffset] and [MergeDLQ] do not look at the lifecycle guard:
    whatever the guard's state, they return the same result and have the
    same effect, before [Start()] and after [Stop()] alike. *)
Theorem ResetOffset_MergeDLQ_ignore_guard g w :
  (∀ cluster topic partition offsetRange,
     ResetOffset cluster topic partition offsetRange (set_lifecycle g w)
     = prod_map id (set_lifecycle g)
         <$> ResetOffset cluster topic partition offsetRange w)
  ∧ (∀ topic offsetRanges pick,
       MergeDLQ topic offsetRanges pick (set_lifecycle g w)
       = prod_map id (set_lifecycle g) <$> MergeDLQ topic offsetRanges pick w).
Proof.
  assert (Hreset : ∀ v cluster topic partition offsetRange,
            ResetOffset cluster topic partition offsetRange (set_lifecycle g v)
            = prod_map id (set_lifecycle g)
                <$> ResetOffset cluster topic partition offsetRange v).
  { intros v cluster topic partition offsetRange.
    unfold ResetOffset. mopen. unfold bind. cbn.
    destruct (clusterConsumerMap (coord v) !! cluster) as [cc|]; [|done].
    unfold ClusterConsumer_ResetOffset. cbn.
    by destruct (consumers v !! cc). }
  split; [apply Hreset|].
  intros topic offsetRanges pick. unfold MergeDLQ. mopen. unfold bind.
  assert (Hloop : ∀ order errList v,
            MergeDLQ_range topic order errList (set_lifecycle g v)
            = prod_map id (set_lifecycle g) <$> MergeDLQ_range topic order errList v).
  { induction order as [|[partition offsetRange] rest IH]; intros errList v; [done|].
    cbn [MergeDLQ_range]. mopen. unfold bind. rewrite Hreset.
    destruct (ResetOffset _ _ partition offsetRange v) as [[[e|] v1]|]; cbn;
      [apply IH..|done]. }
  rewrite Hloop.
  destruct (MergeDLQ_range topic _ [] w) as [[[|f fs] w1]|]; done.
Qed.

Lemma failures_all_failed (order : list (Z * OffsetRange)) e :
  failures order (map (λ _, Some e) order)
  = map (λ pr, partition_failure pr.1 e) order.
Proof.
  unfold failures. induction order as [|pr order IH]; [done|]. cbn. by rewrite IH.
Qed.

(** The loop of [MergeDLQ] returns when the consumer of the DLQ cluster, if
    there is one, is a live object. *)
Lemma MergeDLQ_returns topic offsetRanges pick w :
  (∀ cc, clusterConsumerMap (coord w) !! Cluster (DLQ topic) = Some cc →
         is_Some (consumers w !! cc)) →
  ∃ ret w', MergeDLQ topic offsetRanges pick w = Some (ret, w').
Proof.
  intros Hlive. unfold MergeDLQ. mopen. unfold bind.
  assert (Hloop : ∀ order errList v,
            coord v = coord w → dom (consumers v) = dom (consumers w) →
            ∃ errs v', MergeDLQ_range topic order errList v = Some (errs, v')).
  { induction order as [|[partition offsetRange] rest IH]; intros errList v Hc Hd;
      [by eexists _, _|].
    cbn [MergeDLQ_range]. mopen. unfold bind.
    destruct (clusterConsumerMap (coord w) !! Cluster (DLQ topic)) as [cc|] eqn:Hreg.
    - destruct (Hlive cc eq_refl) as [s Hs].
      assert (is_Some (consumers v !! cc)) as [s' Hs'].
      { apply elem_of_dom. rewrite Hd. apply elem_of_dom. by exists s. }
      erewrite ResetOffset_present by (rewrite ?Hc; done).
      destruct (cc_ResetOffset _ partition offsetRange s').1; apply IH; try done;
        cbn; rewrite <-Hd; apply dom_insert_lookup_L; by exists s'.
    - rewrite ResetOffset_absent by (by rewrite Hc). by apply IH. }
  destruct (Hloop (range_order offsetRanges pick) [] w) as (errs & w' & ->); [done..|].
  destruct errs; by eexists _, _.
Qed.

(** X8. When the cluster of the topic's dead-letter topic is not a key of
    the cluster-consumer map, [MergeDLQ] invokes no per-cluster consumer;
    it returns nil for the empty map only, and otherwise the error that
    lists every partition of the map with the lookup error. *)
Theorem MergeDLQ_unregistered_DLQ_cluster topic offsetRanges pick w :
  clusterConsumerMap (coord w) !! Cluster (DLQ topic) = None →
  ∃ order ret w',
    MergeDLQ topic offsetRanges pick w = Some (ret, w')
    ∧ order ≡ₚ map_to_list offsetRanges
    ∧ trace w' = trace w
    ∧ consumers w' = consumers w
    ∧ (ret = None ↔ offsetRanges = ∅)
    ∧ ∀ err, ret = Some err →
        Error err
        = "DLQ merge failed for "
          +:+ strings_Join
                (map (λ pr, partition_failure pr.1
                              (errors_New "no cluster consumer found")) order) ",".
Proof.
  intros Hreg.
  destruct (MergeDLQ_returns topic offsetRanges pick w) as (ret & w' & Hrun).
  { intros cc Hcc. congruence. }
  pose proof (MergeDLQ_inv _ _ _ _ _ _ Hrun)
    as (rets & _ & Hret & _ & _ & _ & _ & _ & Hcase).
  rewrite Hreg in Hcase. destruct Hcase as (-> & Hcc & Ht).
  rewrite failures_all_failed in Hret.
  exists (range_order offsetRanges pick), ret, w'.
  split; [done|]. split; [apply range_order_perm|]. split; [done|]. split; [done|].
  split.
  - split.
    + intros ->. destruct (range_order offsetRanges pick) as [|pr order] eqn:Hord;
        [|done].
      apply map_to_list_empty_iff, Permutation_nil_r.
      by rewrite <-(range_order_perm offsetRanges pick), Hord.
    + intros ->. by rewrite range_order_empty in Hret.
  - intros err ->. destruct (range_order offsetRanges pick) as [|pr order]; [done|].
    by injection Hret as ->.
Qed.

(** X9. When the cluster of the topic's dead-letter topic is registered and
    its consumer is a live object, [MergeDLQ] asks exactly that consumer,
    once for every partition of the map, for the reset of the dead-letter
    topic's name, and does nothing else: the other consumers and the
    clients are as they were. *)
Theorem MergeDLQ_drives_the_DLQ_consumer topic offsetRanges pick w cc :
  clusterConsumerMap (coord w) !! Cluster (DLQ topic) = Some cc →
  is_Some (consumers w !! cc) →
  ∃ order rets ret w',
    MergeDLQ topic offsetRanges pick w = Some (ret, w')
    ∧ order ≡ₚ map_to_list offsetRanges
    ∧ length rets = length order
    ∧ trace w' = trace w
        ++ zip_with (λ pr r, EvConsumerResetOffset cc (Kafka.Name (DLQ topic))
                               pr.1 pr.2 r) order rets
    ∧ (∀ cc', cc' ≠ cc → consumers w' !! cc' = consumers w !! cc')
    ∧ clients w' = clients w.
Proof.
  intros Hreg Hlive.
  destruct (MergeDLQ_returns topic offsetRanges pick w) as (ret & w' & Hrun).
  { intros cc' Hcc'. congruence. }
  pose proof (MergeDLQ_inv _ _ _ _ _ _ Hrun)
    as (rets & Hlen & _ & _ & Hcl & _ & _ & _ & Hcase).
  rewrite Hreg in Hcase. destruct Hcase as [Hcc Ht].
  exists (range_order offsetRanges pick), rets, ret, w'.
  split_and!; try done. apply range_order_perm.
Qed.

(** X10. The events of a first [Start()] on a coordinator in use. When it
    returns nil: the starts of all registered consumers in the order of
    the iteration, then the log line and the started counter, and nothing
    else. When it returns an error: the starts that succeeded, the start
    that failed, the error line with that error and the name of the
    failing cluster, and then the whole teardown; the started counter is
    not incremented. *)
Theorem Start_first_call_events pick picks w :
  Reachable w →
  phase_of w = Util.NotStarted →
  ∃ ret w' order,
    Start pick picks w = Some (ret, w')
    ∧ order ≡ₚ map_to_list (clusterConsumerMap (coord w))
    ∧ match ret with
      | None =>
          trace w' = trace w
            ++ map (λ np, EvConsumerStart np.2 None) order
            ++ [EvLogInfo (logger (coord w)) "multicluster consumer started"
                  (groupName (coord w)) (topics (coord w));
                EvCounterInc (scope (coord w)) KafkaConsumerStarted]
      | Some e =>
          ∃ pre np post o1 o2 rets,
            order = pre ++ np :: post
            ∧ o1 ≡ₚ map_to_list (clusterConsumerMap (coord w))
            ∧ o2 ≡ₚ map_to_list (clusterToSaramaClientMap (coord w))
            ∧ length rets = length o2
            ∧ trace w' = trace w
                ++ map (λ np, EvConsumerStart np.2 None) pre
                ++ [EvConsumerStart np.2 (Some e);
                    EvLogError (logger (coord w)) "multicluster consumer start error"
                      e np.1]
                ++ teardown_events (coord w) o1 o2 rets
      end.
Proof.
  intros Hreach Hph. pose proof (Reachable_Inv w Hreach) as HInv.
  destruct (Start_Inv pick picks w HInv) as (ret & w' & Hrun & _).
  exists ret, w', (range_order (clusterConsumerMap (coord w)) pick).
  split; [done|]. split; [apply range_order_perm|].
  apply Start_inv in Hrun as [[Hne _]|[_ Hrun]]; [done|].
  destruct Hrun as (evs & Hev & _ & _ & _ & Hret). destruct ret as [e|].
  - destruct Hev as (pre & np & post & Hord & ->).
    destruct Hret as (rets & Hlen & _ & _ & _ & Ht).
    eexists pre, np, post, _, _, rets. split; [done|].
    split; [apply range_order_perm|]. split; [apply range_order_perm|].
    split; [done|]. by rewrite Ht, <-!app_assoc.
  - cbn in Hev. subst evs. apply Hret.
Qed.

(** X11. No sequence of calls on a coordinator in use touches what the
    coordinator does not own: the consumers that are not in its
    cluster-consumer map, the clients that are not in its client map, the
    signal channels other than its done-signal and the message channels
    are as they were, and the fields of the coordinator other than the
    guard do not change. *)
Theorem calls_touch_nothing_else ops w :
  Reachable w →
  ∃ w',
    run ops w = Some (tt, w')
    ∧ coord w' = in_phase (phase_of w') (coord w)
    ∧ (∀ cc, ¬ registered (clusterConsumerMap (coord w)) cc →
             consumers w' !! cc = consumers w !! cc)
    ∧ (∀ cl, ¬ registered (clusterToSaramaClientMap (coord w)) cl →
             clients w' !! cl = clients w !! cl)
    ∧ (∀ ch, ch ≠ doneC (coord w) → sig_chans w' !! ch = sig_chans w !! ch)
    ∧ msg_chans w' = msg_chans w.
Proof.
  intros Hreach. pose proof (Reachable_Inv w Hreach) as HInv.
  destruct (run_Inv ops w HInv) as (w' & Hrun & _).
  exists w'. split; [done|]. by apply run_untouched in Hrun.
Qed.

(** X12. The account of a coordinator in use. Before it is started nothing
    has been started, stopped, closed or counted. While it runs, every
    registered consumer has been started once per entry of the map, each
    start returned nil, none has been stopped, and the started counter has
    been incremented once. Once it is stopped, every registered consumer
    has been stopped once and every owned client closed once per entry,
    and the stopped counter has been incremented once; and either every
    consumer was started once and the started counter incremented, or the
    starts stopped at the first failure and the started counter was never
    incremented. *)
Theorem lifetime_account w :
  Reachable w →
  match phase_of w with
  | Util.NotStarted =>
      starts (trace w) = [] ∧ stops (trace w) = []
      ∧ client_closes (trace w) = [] ∧ counters (trace w) = []
  | Util.Running =>
      (∃ order, order ≡ₚ map_to_list (clusterConsumerMap (coord w))
                ∧ starts (trace w) = map (λ np, (np.2, None)) order)
      ∧ stops (trace w) = [] ∧ client_closes (trace w) = []
      ∧ counters (trace w) = [KafkaConsumerStarted]
  | Util.Stopped =>
      (∃ order, order ≡ₚ map_to_list (clusterConsumerMap (coord w))
                ∧ (starts (trace w) = map (λ np, (np.2, None)) order
                   ∧ counters (trace w) = [KafkaConsumerStarted; KafkaConsumerStopped]
                   ∨ ∃ pre np post e,
                       order = pre ++ np :: post
                       ∧ starts (trace w)
                           = map (λ np, (np.2, None)) pre ++ [(np.2, Some e)]
                       ∧ counters (trace w) = [KafkaConsumerStopped]))
      ∧ (∃ o1, o1 ≡ₚ map_to_list (clusterConsumerMap (coord w))
               ∧ stops (trace w) = o1.*2)
      ∧ (∃ o2, o2 ≡ₚ map_to_list (clusterToSaramaClientMap (coord w))
               ∧ client_closes (trace w) = o2.*2)
  | Util.Starting | Util.Stopping => False
  end.
Proof. apply Reachable_accounted. Qed.

(** X13. Once the teardown has run, a further [Stop()] does nothing: on a
    coordinator in use, a [Stop()] that follows a [Stop()], or a [Start()]
    that returned an error, returns without any event. *)
Theorem Stop_after_teardown_does_nothing p1 p2 w :
  Reachable w →
  (∃ w1, Stop p1 w = Some (tt, w1) ∧ Stop p2 w1 = Some (tt, add_call CallStop w1))
  ∧ (∀ pick e w1,
       Start pick p1 w = Some (Some e, w1) →
       Stop p2 w1 = Some (tt, add_call CallStop w1)).
Proof.
  intros Hreach. pose proof (Reachable_Inv w Hreach) as HInv. split.
  - destruct (Stop_Inv p1 w HInv) as (w1 & Hrun & _). exists w1. split; [done|].
    apply Stop_idle. apply Stop_inv in Hrun as [[Htd ->]|[_ Hrun]]; [done|].
    destruct Hrun as (rets & _ & Hc & _). unfold phase_of. by rewrite Hc.
  - intros pick e w1 Hrun. apply Stop_idle.
    apply Start_inv in Hrun as [(_ & _ & Hstop)|[_ Hrun]].
    + apply Stop_inv in Hstop as [[Htd ->]|[_ Hstop]]; [done|].
      destruct Hstop as (rets & _ & Hc & _). unfold phase_of. by rewrite Hc.
    + destruct Hrun as (evs & _ & _ & _ & _ & rets & _ & Hc & _).
      unfold phase_of. by rewrite Hc.
Qed.


(** *** The states of the consumers and of the clients *)

Lemma range_order_NoDup_values (m : gmap string loc) pick :
  one_name_each m → NoDup (range_order m pick).*2.
Proof.
  intros Hinj. apply NoDup_fmap_2_strong.
  - intros [n1 l1] [n2 l2] H1 H2 Heq. cbn in Heq. subst l2.
    apply range_order_elem in H1, H2. f_equal. by eapply Hinj.
  - rewrite range_order_perm. apply NoDup_map_to_list.
Qed.

(** How the loop of [Start] leaves the consumers, when the entries of the
    iteration are distinct live objects. *)
(** Conversely, a map whose values are pairwise distinct gives no object
    two names. *)
Lemma one_name_each_NoDup (m : gmap string loc) :
  NoDup (map_to_list m).*2 → one_name_each m.
Proof.
  intros Hnd name1 name2 l H1 H2.
  apply elem_of_map_to_list in H1, H2.
  induction (map_to_list m) as [|[k v] rest IH]; [by apply elem_of_nil in H1|].
  cbn in Hnd. apply NoDup_cons in Hnd as [Hv Hnd].
  apply elem_of_cons in H1 as [H1|H1]; apply elem_of_cons in H2 as [H2|H2].
  - congruence.
  - injection H1 as -> ->. destruct Hv. apply list_elem_of_fmap. by exists (name2, v).
  - injection H2 as -> ->. destruct Hv. apply list_elem_of_fmap. by exists (name1, v).
  - by apply IH.
Qed.

Lemma Start_range_states order : ∀ w,
  NoDup order.*2 →
  Forall (λ np, is_Some (consumers w !! np.2)) order →
  ∃ ret w',
    Start_range order w = Some (ret, w')
    ∧ match ret with
      | None =>
          Forall (λ np, ∃ s, consumers w !! np.2 = Some s
                           ∧ (cc_Start s).1 = None
                           ∧ consumers w' !! np.2 = Some (cc_Start s).2) order
      | Some e =>
          ∃ pre np post,
            order = pre ++ np :: post
            ∧ Forall (λ x, ∃ s, consumers w !! x.2 = Some s
                              ∧ (cc_Start s).1 = None
                              ∧ consumers w' !! x.2 = Some (cc_Start s).2) pre
            ∧ (∃ s, consumers w !! np.2 = Some s
                    ∧ (cc_Start s).1 = Some e
                    ∧ consumers w' !! np.2 = Some (cc_Start s).2)
            ∧ Forall (λ x, consumers w' !! x.2 = consumers w !! x.2) post
      end.
Proof.
  induction order as [|[clusterName cc] rest IH]; intros w Hnd Hlive.
  - by exists None, w.
  - apply NoDup_cons in Hnd as [Hcc Hnd]. apply Forall_cons in Hlive as [[s Hs] Hlive].
    cbn in Hs, Hcc.
    set (w1 := add_event (EvConsumerStart cc (cc_Start s).1)
                 (set_consumers (<[cc := (cc_Start s).2]> (consumers w)) w)).
    assert (Hstart : ClusterConsumer_Start cc w = Some ((cc_Start s).1, w1)).
    { unfold ClusterConsumer_Start. by rewrite Hs. }
    assert (Hother : ∀ x, x ∈ rest → consumers w1 !! x.2 = consumers w !! x.2).
    { intros x Hx. cbn. apply lookup_insert_ne. intros ->. apply Hcc.
      by apply list_elem_of_fmap_2. }
    cbn [Start_range]. mopen. unfold bind at 1. rewrite Hstart.
    destruct (cc_Start s).1 as [e|] eqn:Hret.
    + eexists (Some e), _. split; [done|].
      exists [], (clusterName, cc), rest. split; [done|]. split; [done|]. split.
      * exists s. cbn. by rewrite lookup_insert_eq.
      * apply Forall_forall. intros x Hx. cbn. by apply (Hother x).
    + destruct (IH w1 Hnd) as (ret & w' & Hrun & Hstates).
      { apply Forall_forall. intros x Hx. rewrite (Hother x Hx).
        by eapply Forall_forall in Hlive. }
      exists ret, w'. split; [done|].
      assert (Hhead : consumers w' !! cc = Some (cc_Start s).2).
      { apply Start_range_inv in Hrun as (evs & (_ & Hfr & _) & _).
        rewrite (Hfr cc Hcc). cbn. apply lookup_insert_eq. }
      assert (Hback : ∀ l : list (string * loc), l ⊆ rest →
                Forall (λ x, ∃ s0, consumers w1 !! x.2 = Some s0
                                 ∧ (cc_Start s0).1 = None
                                 ∧ consumers w' !! x.2 = Some (cc_Start s0).2) l →
                Forall (λ x, ∃ s0, consumers w !! x.2 = Some s0
                                 ∧ (cc_Start s0).1 = None
                                 ∧ consumers w' !! x.2 = Some (cc_Start s0).2) l).
      { intros l Hsub Hl. apply Forall_forall. intros x Hx.
        eapply Forall_forall in Hl; [|exact Hx]. destruct Hl as (s0 & H1 & H2).
        exists s0. by rewrite <-(Hother x (Hsub x Hx)). }
      destruct ret as [e|].
      * destruct Hstates as (pre & np & post & -> & Hpre & (s0 & H1 & H2) & Hpost).
        exists ((clusterName, cc) :: pre), np, post. split; [done|]. split_and!.
        -- constructor; [by exists s|]. apply Hback; [|done].
           intros x Hx. apply elem_of_app. by left.
        -- exists s0. rewrite <-(Hother np); [done|].
           apply elem_of_app. right. apply elem_of_cons. by left.
        -- apply Forall_forall. intros x Hx.
           eapply Forall_forall in Hpost; [|exact Hx]. rewrite Hpost.
           apply Hother. apply elem_of_app. right. apply elem_of_cons. by right.
      * constructor; [by exists s|]. by apply Hback.
Qed.

Lemma Stop_range_consumers_states order : ∀ w,
  NoDup order.*2 →
  Forall (λ np, is_Some (consumers w !! np.2)) order →
  ∃ w',
    Stop_range_consumers order w = Some (tt, w')
    ∧ Forall (λ np, ∃ s, consumers w !! np.2 = Some s
                       ∧ consumers w' !! np.2 = Some (cc_Stop s)) order.
Proof.
  induction order as [|[clusterName cc] rest IH]; intros w Hnd Hlive.
  - by exists w.
  - apply NoDup_cons in Hnd as [Hcc Hnd]. apply Forall_cons in Hlive as [[s Hs] Hlive].
    cbn in Hs, Hcc.
    set (w1 := add_event (EvConsumerStop cc)
                 (set_consumers (<[cc := cc_Stop s]> (consumers w)) w)).
    assert (Hstop : ClusterConsumer_Stop cc w = Some (tt, w1)).
    { unfold ClusterConsumer_Stop. by rewrite Hs. }
    assert (Hother : ∀ x, x ∈ rest → consumers w1 !! x.2 = consumers w !! x.2).
    { intros x Hx. cbn. apply lookup_insert_ne. intros ->. apply Hcc.
      by apply list_elem_of_fmap_2. }
    destruct (IH w1 Hnd) as (w' & Hrun & Hstates).
    { apply Forall_forall. intros x Hx. rewrite (Hother x Hx).
      by eapply Forall_forall in Hlive. }
    exists w'. cbn [Stop_range_consumers]. mopen. unfold bind at 1. rewrite Hstop.
    split; [done|]. constructor.
    + exists s. split; [done|]. cbn.
      apply Stop_range_consumers_inv in Hrun as (_ & Hfr & _).
      rewrite (Hfr cc Hcc). cbn. apply lookup_insert_eq.
    + apply Forall_forall. intros x Hx.
      eapply Forall_forall in Hstates; [|exact Hx]. destruct Hstates as (s0 & H1 & H2).
      exists s0. by rewrite <-(Hother x Hx).
Qed.

Lemma Stop_range_clients_states order : ∀ w,
  NoDup order.*2 →
  Forall (λ np, is_Some (clients w !! np.2)) order →
  ∃ w',
    Stop_range_clients order w = Some (tt, w')
    ∧ Forall (λ np, ∃ s, clients w !! np.2 = Some s
                       ∧ clients w' !! np.2 = Some (client_Close s).2) order.
Proof.
  induction order as [|[clusterName cl] rest IH]; intros w Hnd Hlive.
  - by exists w.
  - apply NoDup_cons in Hnd as [Hcl Hnd]. apply Forall_cons in Hlive as [[s Hs] Hlive].
    cbn in Hs, Hcl.
    set (w1 := add_event (EvClientClose cl (client_Close s).1)
                 (set_clients (<[cl := (client_Close s).2]> (clients w)) w)).
    assert (Hclose : Client_Close cl w = Some ((client_Close s).1, w1)).
    { unfold Client_Close. by rewrite Hs. }
    assert (Hother : ∀ x, x ∈ rest → clients w1 !! x.2 = clients w !! x.2).
    { intros x Hx. cbn. apply lookup_insert_ne. intros ->. apply Hcl.
      by apply list_elem_of_fmap_2. }
    destruct (IH w1 Hnd) as (w' & Hrun & Hstates).
    { apply Forall_forall. intros x Hx. rewrite (Hother x Hx).
      by eapply Forall_forall in Hlive. }
    exists w'. cbn [Stop_range_clients]. mopen. unfold bind at 1. rewrite Hclose.
    split; [done|]. constructor.
    + exists s. split; [done|]. cbn.
      apply Stop_range_clients_inv in Hrun as (rets & _ & _ & _ & Hfr & _).
      rewrite (Hfr cl Hcl). cbn. apply lookup_insert_eq.
    + apply Forall_forall. intros x Hx.
      eapply Forall_forall in Hstates; [|exact Hx]. destruct Hstates as (s0 & H1 & H2).
      exists s0. by rewrite <-(Hother x Hx).
Qed.


Lemma Stop_loops picks w w' :
  tears_down (phase_of w) = true →
  Stop picks w = Some (tt, w') →
  ∃ w1 w2,
    Stop_range_consumers
      (range_order (clusterConsumerMap (coord w)) (pick_consumers picks))
      (set_lifecycle (Util.to_phase Util.Stopping (lifecycle (coord w))) w)
      = Some (tt, w1)
    ∧ Stop_range_clients
        (range_order (clusterToSaramaClientMap (coord w)) (pick_clients picks)) w1
        = Some (tt, w2)
    ∧ consumers w' = consumers w2
    ∧ clients w' = clients w2.
Proof.
  intros Htd Hrun. unfold Stop in Hrun. mopen in Hrun.
  apply bind_inv in Hrun as ([] & w5 & Hguard & [= <-]).
  unfold Util.Stop in Hguard. unfold phase_of in Htd.
  set (w0 := set_lifecycle (Util.to_phase Util.Stopping (lifecycle (coord w))) w) in *.
  destruct (Stop_body picks w0) as [[[] w4]|] eqn:Hbody;
    [|by destruct (Util.phase (lifecycle (coord w)))].
  assert (w5 = set_lifecycle (Util.to_phase Util.Stopped (lifecycle (coord w4))) w4)
    as -> by (destruct (Util.phase (lifecycle (coord w))); try done;
              by injection Hguard).
  unfold Stop_body in Hbody. mopen in Hbody. cbn -[range_order] in Hbody.
  apply bind_inv in Hbody as ([] & w1 & Hstops & Hbody).
  pose proof (Stop_range_consumers_inv _ _ _ Hstops) as (Hc1 & _).
  cbn -[range_order] in Hbody.
  apply bind_inv in Hbody as ([] & w2 & Hcloses & Hbody).
  rewrite Hc1 in Hcloses. cbn -[range_order] in Hcloses.
  exists w1, w2. split; [done|]. split; [done|].
  cbn -[range_order] in Hbody.
  apply bind_inv in Hbody as ([] & w3 & Hclose & Hbody).
  cbn in Hbody. injection Hbody as <-. cbn.
  unfold close in Hclose.
  destruct (sig_chans w2 !! doneC (coord w2)) as [[]|]; try done.
  by injection Hclose as <-.
Qed.

Lemma Start_loops pick picks w ret w' :
  phase_of w = Util.NotStarted →
  Start pick picks w = Some (ret, w') →
  ∃ w2,
    Start_range (range_order (clusterConsumerMap (coord w)) pick)
      (set_lifecycle (Util.to_phase Util.Starting (lifecycle (coord w))) w)
      = Some (ret, w2)
    ∧ match ret with
      | None => consumers w' = consumers w2 ∧ clients w' = clients w2
      | Some e => Stop picks w2 = Some (tt, w')
      end.
Proof.
  intros Hph Hrun. unfold Start in Hrun. mopen in Hrun.
  apply bind_inv in Hrun as (r & w1 & Hguard & Hrun).
  unfold Util.Start in Hguard. unfold phase_of in Hph. rewrite Hph in Hguard.
  set (w0 := set_lifecycle (Util.to_phase Util.Starting (lifecycle (coord w))) w) in *.
  destruct (Start_body pick w0) as [[r0 w2]|] eqn:Hbody; [|done].
  unfold Start_body in Hbody. mopen in Hbody. cbn -[range_order] in Hbody.
  exists w2. destruct r0 as [e|]; injection Hguard as <- <-.
  - apply bind_inv in Hrun as ([] & w3 & Hstop & [= <- <-]). done.
  - cbn in Hrun. injection Hrun as <- <-. done.
Qed.

(** X14. On a coordinator in use that has not been started and in whose
    map no consumer has two names, [Start()] returns nil if and only if
    the start of every registered consumer, in the state the consumer is
    in, returns nil; and then every registered consumer is left in the
    state in which its start leaves it. *)
Theorem Start_nil_iff_every_start_nil pick picks w :
  Reachable w →
  phase_of w = Util.NotStarted →
  one_name_each (clusterConsumerMap (coord w)) →
  ∃ ret w',
    Start pick picks w = Some (ret, w')
    ∧ (ret = None ↔
       ∀ name cc s,
         clusterConsumerMap (coord w) !! name = Some cc →
         consumers w !! cc = Some s → (cc_Start s).1 = None)
    ∧ (ret = None →
       ∀ name cc s,
         clusterConsumerMap (coord w) !! name = Some cc →
         consumers w !! cc = Some s →
         consumers w' !! cc = Some (cc_Start s).2).
Proof.
  intros Hreach Hph Hinj. pose proof (Reachable_Inv w Hreach) as HInv.
  destruct (Start_Inv pick picks w HInv) as (ret & w' & Hrun & _).
  exists ret, w'. split; [done|].
  destruct (Start_loops _ _ _ _ _ Hph Hrun) as (w2 & Hloop & Hret).
  set (order := range_order (clusterConsumerMap (coord w)) pick) in *.
  destruct (Start_range_states order
              (set_lifecycle (Util.to_phase Util.Starting (lifecycle (coord w))) w))
    as (ret' & w2' & Hloop' & Hstates).
  { by apply range_order_NoDup_values. }
  { apply (range_order_Forall (λ _ cc, is_Some (consumers w !! cc))), HInv. }
  rewrite Hloop in Hloop'. injection Hloop' as <- <-. cbn in Hstates.
  destruct ret as [e|].
  - split; [|done]. split; [done|]. intros Hall.
    destruct Hstates as (pre & np & post & Hord & _ & (s & Hs & Hfail & _) & _).
    rewrite (Hall np.1 np.2 s) in Hfail; [done| |done].
    apply (range_order_elem _ pick). fold order. rewrite Hord.
    apply elem_of_app. right. apply elem_of_cons. left. by destruct np.
  - destruct Hret as [Hcc _]. rewrite Forall_forall in Hstates. split.
    + split; [|done]. intros _ name cc s Hreg Hs.
      destruct (Hstates (name, cc)) as (s' & Hs' & Hnil & _).
      { by apply range_order_elem. }
      cbn in Hs'. congruence.
    + intros _ name cc s Hreg Hs.
      destruct (Hstates (name, cc)) as (s' & Hs' & _ & Hafter).
      { by apply range_order_elem. }
      cbn in Hs', Hafter. rewrite Hcc. congruence.
Qed.

(** X15. On a coordinator in use that has not been started and in whose
    map no consumer has two names, when [Start()] returns an error every
    registered consumer ends up stopped: the ones visited up to the
    failure after their start, and the ones after it in the iteration
    without ever having been started. *)
Theorem Start_error_stops_unstarted pick picks w :
  Reachable w →
  phase_of w = Util.NotStarted →
  one_name_each (clusterConsumerMap (coord w)) →
  ∃ ret w',
    Start pick picks w = Some (ret, w')
    ∧ ∀ e, ret = Some e →
        ∃ pre np post,
          pre ++ np :: post ≡ₚ map_to_list (clusterConsumerMap (coord w))
          ∧ (∃ s, consumers w !! np.2 = Some s ∧ (cc_Start s).1 = Some e)
          ∧ (∀ x, x ∈ pre ++ [np] →
                  ∃ s, consumers w !! x.2 = Some s
                     ∧ consumers w' !! x.2 = Some (cc_Stop (cc_Start s).2))
          ∧ (∀ x, x ∈ post →
                  ∃ s, consumers w !! x.2 = Some s
                     ∧ consumers w' !! x.2 = Some (cc_Stop s)).
Proof.
  intros Hreach Hph Hinj. pose proof (Reachable_Inv w Hreach) as HInv.
  destruct (Start_Inv pick picks w HInv) as (ret & w' & Hrun & _).
  exists ret, w'. split; [done|]. intros e ->.
  destruct (Start_loops _ _ _ _ _ Hph Hrun) as (w2 & Hloop & Hstop).
  set (order := range_order (clusterConsumerMap (coord w)) pick) in *.
  set (w0 := set_lifecycle (Util.to_phase Util.Starting (lifecycle (coord w))) w) in *.
  destruct (Start_range_states order w0) as (ret' & w2' & Hloop' & Hstates).
  { by apply range_order_NoDup_values. }
  { apply (range_order_Forall (λ _ cc, is_Some (consumers w !! cc))), HInv. }
  rewrite Hloop in Hloop'. injection Hloop' as <- <-. cbn in Hstates.
  destruct Hstates as (pre & np & post & Hord & Hpre & (s & Hs & Hfail & Hnp) & Hpost).
  pose proof (Start_range_inv _ _ _ _ Hloop) as (evs & (Hc2 & _) & _).
  cbn in Hc2.
  assert (Htd : tears_down (phase_of w2) = true) by (unfold phase_of; by rewrite Hc2).
  destruct (Stop_loops picks w2 w' Htd Hstop) as (w3 & w4 & Hstops & Hcloses & Hcc & _).
  rewrite Hc2 in Hstops. cbn -[range_order] in Hstops.
  set (o1 := range_order (clusterConsumerMap (coord w)) (pick_consumers picks)) in *.
  assert (Hdom : ∀ x, x ∈ order → is_Some (consumers w2 !! x.2)).
  { intros x Hx. rewrite Hord in Hx.
    apply elem_of_app in Hx as [Hx|Hx].
    - rewrite Forall_forall in Hpre. destruct (Hpre x Hx) as (? & _ & _ & ->). done.
    - apply elem_of_cons in Hx as [->|Hx]; [by rewrite Hnp|].
      rewrite Forall_forall in Hpost. rewrite (Hpost x Hx).
      assert (Hlive : consumers_live w) by apply HInv.
      apply (range_order_Forall (λ _ cc, is_Some (consumers w !! cc)) _ pick) in Hlive.
      rewrite Forall_forall in Hlive. apply (Hlive x). fold order. rewrite Hord.
      apply elem_of_app. right. apply elem_of_cons. by right. }
  assert (Hsame : ∀ x, x ∈ o1 ↔ x ∈ order).
  { intros x. unfold o1, order. by rewrite !range_order_perm. }
  assert (∃ w3', Stop_range_consumers o1
                   (set_lifecycle (Util.to_phase Util.Stopping (lifecycle (coord w2))) w2)
                 = Some (tt, w3')
               ∧ Forall (λ np, ∃ s, consumers w2 !! np.2 = Some s
                                  ∧ consumers w3' !! np.2 = Some (cc_Stop s)) o1)
    as (w3' & Hstops' & Hstopped).
  { apply (Stop_range_consumers_states o1
             (set_lifecycle (Util.to_phase Util.Stopping (lifecycle (coord w2))) w2)).
    - by apply range_order_NoDup_values.
    - apply Forall_forall. intros x Hx. cbn. by apply Hdom, Hsame. }
  rewrite Hc2 in Hstops'. cbn -[range_order] in Hstops'.
  rewrite Hstops in Hstops'. injection Hstops' as <-.
  pose proof (Stop_range_clients_inv _ _ _ Hcloses) as (rets & _ & _ & Hfr & _).
  assert (Hfinal : ∀ x, x ∈ order →
            ∃ s2, consumers w2 !! x.2 = Some s2 ∧ consumers w' !! x.2 = Some (cc_Stop s2)).
  { intros x Hx. rewrite Forall_forall in Hstopped.
    destruct (Hstopped x) as (s2 & H1 & H2); [by apply Hsame|].
    exists s2. split; [done|]. rewrite Hcc, Hfr by apply not_elem_of_nil. done. }
  exists pre, np, post. split; [rewrite <-Hord; apply range_order_perm|].
  split; [by exists s|]. split.
  - intros x Hx. apply elem_of_app in Hx as [Hx|Hx].
    + rewrite Forall_forall in Hpre. destruct (Hpre x Hx) as (s1 & H1 & _ & H2).
      destruct (Hfinal x) as (s2 & H3 & H4).
      { rewrite Hord. apply elem_of_app. by left. }
      exists s1. split; [done|]. cbn in H2. congruence.
    + apply list_elem_of_singleton in Hx as ->.
      destruct (Hfinal np) as (s2 & H3 & H4).
      { rewrite Hord. apply elem_of_app. right. apply elem_of_cons. by left. }
      exists s. split; [done|]. cbn in Hnp. congruence.
  - intros x Hx. rewrite Forall_forall in Hpost.
    destruct (Hfinal x) as (s2 & H3 & H4).
    { rewrite Hord. apply elem_of_app. right. apply elem_of_cons. by right. }
    exists s2. rewrite <-(Hpost x Hx). done.
Qed.

(** X16. On a running coordinator in use in whose maps no consumer and no
    client has two names, [Stop()] leaves every registered consumer in
    the state in which its stop leaves it, and every owned client in the
    state in which its close leaves it. *)
Theorem Stop_leaves_all_stopped picks w :
  Reachable w →
  phase_of w = Util.Running →
  one_name_each (clusterConsumerMap (coord w)) →
  one_name_each (clusterToSaramaClientMap (coord w)) →
  ∃ w',
    Stop picks w = Some (tt, w')
    ∧ (∀ name cc s,
         clusterConsumerMap (coord w) !! name = Some cc →
         consumers w !! cc = Some s →
         consumers w' !! cc = Some (cc_Stop s))
    ∧ (∀ name cl s,
         clusterToSaramaClientMap (coord w) !! name = Some cl →
         clients w !! cl = Some s →
         clients w' !! cl = Some (client_Close s).2).
Proof.
  intros Hreach Hph Hinj1 Hinj2. pose proof (Reachable_Inv w Hreach) as HInv.
  destruct (Stop_Inv picks w HInv) as (w' & Hrun & _).
  exists w'. split; [done|].
  assert (Htd : tears_down (phase_of w) = true) by by rewrite Hph.
  destruct (Stop_loops picks w w' Htd Hrun) as (w1 & w2 & Hstops & Hcloses & Hcc & Hcl).
  set (w0 := set_lifecycle (Util.to_phase Util.Stopping (lifecycle (coord w))) w) in *.
  destruct (Stop_range_consumers_states _ w0
              (range_order_NoDup_values _ (pick_consumers picks) Hinj1))
    as (w1' & Hstops' & Hstopped).
  { apply (range_order_Forall (λ _ cc, is_Some (consumers w !! cc))), HInv. }
  rewrite Hstops in Hstops'. injection Hstops' as <-.
  pose proof (Stop_range_consumers_inv _ _ _ Hstops) as (_ & _ & Hcl1 & _).
  destruct (Stop_range_clients_states _ w1
              (range_order_NoDup_values _ (pick_clients picks) Hinj2))
    as (w2' & Hcloses' & Hclosed).
  { apply Forall_forall. intros x Hx. rewrite Hcl1 by apply not_elem_of_nil. cbn.
    assert (Hlive : map_Forall (λ _ cl, is_Some (clients w !! cl))
                      (clusterToSaramaClientMap (coord w))) by apply HInv.
    apply (range_order_Forall (λ _ cl, is_Some (clients w !! cl)) _ (pick_clients picks))
      in Hlive.
    rewrite Forall_forall in Hlive. by apply (Hlive x). }
  rewrite Hcloses in Hcloses'. injection Hcloses' as <-.
  pose proof (Stop_range_clients_inv _ _ _ Hcloses) as (rets & _ & _ & Hfr & _).
  rewrite Forall_forall in Hstopped, Hclosed. split.
  - intros name cc s Hreg Hs.
    destruct (Hstopped (name, cc)) as (s' & Hs' & Hafter); [by apply range_order_elem|].
    cbn in Hs', Hafter. rewrite Hcc, Hfr by apply not_elem_of_nil. congruence.
  - intros name cl s Hreg Hs.
    destruct (Hclosed (name, cl)) as (s' & Hs' & Hafter); [by apply range_order_elem|].
    cbn in Hs', Hafter. rewrite Hcl1 in Hs' by apply not_elem_of_nil. cbn in Hs'.
    rewrite Hcl. congruence.
Qed.

End CoordinatorMore.

(** ** The further properties on the test doubles *)

Section MoreExamples.

Import Kafka Consumer.
#[local] Existing Instance Mock.collaborators.

Lemma Reachable_pair : Reachable Mock.pair.
Proof.
  apply reach_new. split; apply map_Forall_to_list; vm_compute; repeat constructor;
    eexists; reflexivity.
Qed.

Lemma Reachable_running : Reachable Mock.running.
Proof.
  apply (reach_call Mock.one (OpStart [] Mock.canonical)); [|by vm_compute].
  apply reach_new. split; apply map_Forall_to_list; vm_compute; repeat constructor;
    eexists; reflexivity.
Qed.

Lemma Reachable_failed : Reachable Mock.failed.
Proof.
  apply (reach_call Mock.two (OpStart [] Mock.canonical)); [|by vm_compute].
  apply reach_new. split; apply map_Forall_to_list; vm_compute; repeat constructor;
    eexists; reflexivity.
Qed.

Lemma one_name_each_pair : one_name_each (clusterConsumerMap (coord Mock.pair)).
Proof. apply one_name_each_NoDup, (bool_decide_unpack _). by vm_compute. Qed.

Lemma one_name_each_running :
  one_name_each (clusterConsumerMap (coord Mock.running))
  ∧ one_name_each (clusterToSaramaClientMap (coord Mock.running)).
Proof.
  split; apply one_name_each_NoDup, (bool_decide_unpack _); by vm_compute.
Qed.

(** The options of the caller after the error list has been attached. *)
Lemma PartialConstructionError_after_attach_witness :
  Forall (KafkaClient.live_option Mock.enable.2)
    Mock.options
  ∧ KafkaClient.h_lists Mock.enable.2 !! 1%positive
    = Some {| KafkaClient.cel_errs := Some ["unit-test"] |}
  ∧ ∃ h',
      KafkaClient.addPartialConstructionError Mock.options (Some 1%positive)
        Mock.enable.2 = Returns h'
      ∧ ∀ o, o ∈ Mock.options →
          KafkaClient.PartialConstructionError h' o
          = Returns (match o with
                     | KafkaClient.option_partialConstruction _ => Some ["unit-test"]
                     | _ => None
                     end).
Proof.
  assert (Forall (KafkaClient.live_option
                    Mock.enable.2) Mock.options) as Hlive.
  { repeat constructor. eexists. by vm_compute. }
  assert (KafkaClient.h_lists Mock.enable.2
            !! 1%positive = Some {| KafkaClient.cel_errs := Some ["unit-test"] |})
    as Hlist by by vm_compute.
  split; [exact Hlive|]. split; [exact Hlist|].
  exact (PartialConstructionError_after_attach Mock.options 1%positive
           {| KafkaClient.cel_errs := Some ["unit-test"] |}
           Mock.enable.2 Hlive Hlist).
Defined.

(** The errors written to the list after it has been attached to the
    options of the caller. *)
Lemma PartialConstructionError_sees_later_errors_witness :
  Forall (KafkaClient.live_option Mock.enable.2) Mock.options
  ∧ ∃ h',
      KafkaClient.addPartialConstructionError Mock.options (Some 1%positive)
        Mock.enable.2 = Returns h'
      ∧ ∀ el' o, o ∈ Mock.options →
          KafkaClient.PartialConstructionError
            {| KafkaClient.h_partial := KafkaClient.h_partial h';
               KafkaClient.h_lists := <[1%positive := el']> (KafkaClient.h_lists h') |} o
          = Returns (match o with
                     | KafkaClient.option_partialConstruction _ => KafkaClient.cel_errs el'
                     | _ => None
                     end).
Proof.
  assert (Forall (KafkaClient.live_option Mock.enable.2) Mock.options) as Hlive.
  { repeat constructor. eexists. by vm_compute. }
  split; [exact Hlive|].
  exact (PartialConstructionError_sees_later_errors Mock.options 1%positive
           Mock.enable.2 Hlive).
Defined.

(** A nil list and then the error list attached to the options of the
    caller. *)
Lemma addPartialConstructionError_last_wins_witness :
  Forall (KafkaClient.live_option Mock.enable.2) Mock.options
  ∧ ∃ h1 h2,
      KafkaClient.addPartialConstructionError Mock.options None Mock.enable.2
        = Returns h1
      ∧ KafkaClient.addPartialConstructionError Mock.options (Some 1%positive) h1
        = Returns h2
      ∧ KafkaClient.addPartialConstructionError Mock.options (Some 1%positive)
          Mock.enable.2 = Returns h2.
Proof.
  assert (Forall (KafkaClient.live_option Mock.enable.2) Mock.options) as Hlive.
  { repeat constructor. eexists. by vm_compute. }
  split; [exact Hlive|].
  exact (addPartialConstructionError_last_wins Mock.options None (Some 1%positive)
           Mock.enable.2 Hlive).
Defined.

(** The accessors after a start that fails and a stop. *)
Lemma constructed_accessors_stable_witness :
  valid_inputs {[ "cc1" := 1%positive; "cc2" := 2%positive ]}
    {[ "cc1" := 1%positive ]} Mock.env
  ∧ ∃ d w',
      run [OpStart [] Mock.canonical; OpStop Mock.canonical] Mock.pair = Some (tt, w')
      ∧ e_sig_chans Mock.env !! d = None
      ∧ Closed w' = Some (chan_struct d, w')
      ∧ Name w' = Some ("unit-test-cg", w')
      ∧ Topics w' = Some ([Mock.topic], w')
      ∧ Messages w' = Some (chan_Message 1%positive, w')
      ∧ (∀ ch, ch ≠ d → sig_chans w' !! ch = e_sig_chans Mock.env !! ch)
      ∧ msg_chans w' = e_msg_chans Mock.env.
Proof.
  assert (valid_inputs {[ "cc1" := 1%positive; "cc2" := 2%positive ]}
            {[ "cc1" := 1%positive ]} Mock.env) as Hvalid.
  { split; apply map_Forall_to_list; vm_compute; repeat constructor;
      eexists; reflexivity. }
  split; [exact Hvalid|].
  exact (constructed_accessors_stable "unit-test-cg" [Mock.topic]
           {[ "cc1" := 1%positive; "cc2" := 2%positive ]} {[ "cc1" := 1%positive ]}
           1%positive 1%positive 1%positive Mock.env
           [OpStart [] Mock.canonical; OpStop Mock.canonical] Hvalid).
Defined.

(** [MergeDLQ] on the coordinator that has no consumer for the DLQ cluster. *)
Lemma MergeDLQ_unregistered_DLQ_cluster_witness :
  clusterConsumerMap (coord Mock.pair) !! Cluster (DLQ Mock.topic) = None
  ∧ ∃ order ret w',
      MergeDLQ Mock.topic Mock.ranges [] Mock.pair = Some (ret, w')
      ∧ order ≡ₚ map_to_list Mock.ranges
      ∧ trace w' = trace Mock.pair
      ∧ consumers w' = consumers Mock.pair
      ∧ (ret = None ↔ Mock.ranges = ∅)
      ∧ ∀ err, ret = Some err →
          Error err
          = "DLQ merge failed for "
            +:+ strings_Join
                  (map (λ pr, partition_failure pr.1
                                (errors_New "no cluster consumer found")) order) ",".
Proof.
  assert (clusterConsumerMap (coord Mock.pair) !! Cluster (DLQ Mock.topic) = None)
    as Hreg by by vm_compute.
  split; [exact Hreg|].
  exact (MergeDLQ_unregistered_DLQ_cluster Mock.topic Mock.ranges [] Mock.pair Hreg).
Defined.

(** [MergeDLQ] on the coordinator whose consumer [cc1] serves the DLQ
    cluster. *)
Lemma MergeDLQ_drives_the_DLQ_consumer_witness :
  clusterConsumerMap (coord Mock.two) !! Cluster (DLQ Mock.topic) = Some 1%positive
  ∧ is_Some (consumers Mock.two !! 1%positive)
  ∧ ∃ order rets ret w',
      MergeDLQ Mock.topic Mock.ranges [] Mock.two = Some (ret, w')
      ∧ order ≡ₚ map_to_list Mock.ranges
      ∧ length rets = length order
      ∧ trace w' = trace Mock.two
          ++ zip_with (λ pr r, EvConsumerResetOffset 1%positive
                                 (Kafka.Name (DLQ Mock.topic)) pr.1 pr.2 r) order rets
      ∧ (∀ cc', cc' ≠ 1%positive → consumers w' !! cc' = consumers Mock.two !! cc')
      ∧ clients w' = clients Mock.two.
Proof.
  assert (clusterConsumerMap (coord Mock.two) !! Cluster (DLQ Mock.topic)
          = Some 1%positive) as Hreg by by vm_compute.
  assert (is_Some (consumers Mock.two !! 1%positive)) as Hlive
    by (eexists; by vm_compute).
  split; [exact Hreg|]. split; [exact Hlive|].
  exact (MergeDLQ_drives_the_DLQ_consumer Mock.topic Mock.ranges [] Mock.two
           1%positive Hreg Hlive).
Defined.

(** The events of the first [Start()] over [cc1] and the failing [cc2]. *)
Lemma Start_first_call_events_witness :
  Reachable Mock.pair
  ∧ phase_of Mock.pair = Util.NotStarted
  ∧ ∃ ret w' order,
      Start [] Mock.canonical Mock.pair = Some (ret, w')
      ∧ order ≡ₚ map_to_list (clusterConsumerMap (coord Mock.pair))
      ∧ match ret with
        | None =>
            trace w' = trace Mock.pair
              ++ map (λ np, EvConsumerStart np.2 None) order
              ++ [EvLogInfo (logger (coord Mock.pair)) "multicluster consumer started"
                    (groupName (coord Mock.pair)) (topics (coord Mock.pair));
                  EvCounterInc (scope (coord Mock.pair)) KafkaConsumerStarted]
        | Some e =>
            ∃ pre np post o1 o2 rets,
              order = pre ++ np :: post
              ∧ o1 ≡ₚ map_to_list (clusterConsumerMap (coord Mock.pair))
              ∧ o2 ≡ₚ map_to_list (clusterToSaramaClientMap (coord Mock.pair))
              ∧ length rets = length o2
              ∧ trace w' = trace Mock.pair
                  ++ map (λ np, EvConsumerStart np.2 None) pre
                  ++ [EvConsumerStart np.2 (Some e);
                      EvLogError (logger (coord Mock.pair))
                        "multicluster consumer start error" e np.1]
                  ++ teardown_events (coord Mock.pair) o1 o2 rets
        end.
Proof.
  split; [exact Reachable_pair|]. split; [reflexivity|].
  exact (Start_first_call_events [] Mock.canonical Mock.pair Reachable_pair eq_refl).
Defined.

(** A start that fails and a stop leave alone what the coordinator does
    not own. *)
Lemma calls_touch_nothing_else_witness :
  Reachable Mock.pair
  ∧ ∃ w',
      run [OpStart [] Mock.canonical; OpStop Mock.canonical] Mock.pair = Some (tt, w')
      ∧ coord w' = in_phase (phase_of w') (coord Mock.pair)
      ∧ (∀ cc, ¬ registered (clusterConsumerMap (coord Mock.pair)) cc →
               consumers w' !! cc = consumers Mock.pair !! cc)
      ∧ (∀ cl, ¬ registered (clusterToSaramaClientMap (coord Mock.pair)) cl →
               clients w' !! cl = clients Mock.pair !! cl)
      ∧ (∀ ch, ch ≠ doneC (coord Mock.pair) →
               sig_chans w' !! ch = sig_chans Mock.pair !! ch)
      ∧ msg_chans w' = msg_chans Mock.pair.
Proof.
  split; [exact Reachable_pair|].
  exact (calls_touch_nothing_else [OpStart [] Mock.canonical; OpStop Mock.canonical]
           Mock.pair Reachable_pair).
Defined.

(** The account of the coordinator torn down by a failed [Start()]: [cc2]
    failed, and the started counter was never incremented. *)
Lemma lifetime_account_witness :
  Reachable Mock.failed
  ∧ phase_of Mock.failed = Util.Stopped
  ∧ (∃ order, order ≡ₚ map_to_list (clusterConsumerMap (coord Mock.failed))
              ∧ (starts (trace Mock.failed) = map (λ np, (np.2, None)) order
                 ∧ counters (trace Mock.failed)
                   = [KafkaConsumerStarted; KafkaConsumerStopped]
                 ∨ ∃ pre np post e,
                     order = pre ++ np :: post
                     ∧ starts (trace Mock.failed)
                       = map (λ np, (np.2, None)) pre ++ [(np.2, Some e)]
                     ∧ counters (trace Mock.failed) = [KafkaConsumerStopped]))
  ∧ (∃ o1, o1 ≡ₚ map_to_list (clusterConsumerMap (coord Mock.failed))
           ∧ stops (trace Mock.failed) = o1.*2)
  ∧ (∃ o2, o2 ≡ₚ map_to_list (clusterToSaramaClientMap (coord Mock.failed))
           ∧ client_closes (trace Mock.failed) = o2.*2).
Proof.
  split; [exact Reachable_failed|]. split; [by vm_compute|].
  exact (lifetime_account Mock.failed Reachable_failed).
Defined.

(** Two stops of the running coordinator over [cc1]. *)
Lemma Stop_after_teardown_does_nothing_witness :
  Reachable Mock.running
  ∧ (∃ w1, Stop Mock.canonical Mock.running = Some (tt, w1)
           ∧ Stop Mock.canonical w1 = Some (tt, add_call CallStop w1))
  ∧ (∀ pick e w1,
       Start pick Mock.canonical Mock.running = Some (Some e, w1) →
       Stop Mock.canonical w1 = Some (tt, add_call CallStop w1)).
Proof.
  split; [exact Reachable_running|].
  exact (Stop_after_teardown_does_nothing Mock.canonical Mock.canonical Mock.running
           Reachable_running).
Defined.

(** The first [Start()] over [cc1] and the failing [cc2], each under one
    name. *)
Lemma Start_nil_iff_every_start_nil_witness :
  Reachable Mock.pair
  ∧ phase_of Mock.pair = Util.NotStarted
  ∧ one_name_each (clusterConsumerMap (coord Mock.pair))
  ∧ ∃ ret w',
      Start [] Mock.canonical Mock.pair = Some (ret, w')
      ∧ (ret = None ↔
         ∀ name cc s,
           clusterConsumerMap (coord Mock.pair) !! name = Some cc →
           consumers Mock.pair !! cc = Some s → (cc_Start s).1 = None)
      ∧ (ret = None →
         ∀ name cc s,
           clusterConsumerMap (coord Mock.pair) !! name = Some cc →
           consumers Mock.pair !! cc = Some s →
           consumers w' !! cc = Some (cc_Start s).2).
Proof.
  split; [exact Reachable_pair|]. split; [reflexivity|].
  split; [exact one_name_each_pair|].
  exact (Start_nil_iff_every_start_nil [] Mock.canonical Mock.pair
           Reachable_pair eq_refl one_name_each_pair).
Defined.

(** The failed [Start()] over [cc1] and [cc2] leaves both stopped. *)
Lemma Start_error_stops_unstarted_witness :
  Reachable Mock.pair
  ∧ phase_of Mock.pair = Util.NotStarted
  ∧ one_name_each (clusterConsumerMap (coord Mock.pair))
  ∧ ∃ ret w',
      Start [] Mock.canonical Mock.pair = Some (ret, w')
      ∧ ∀ e, ret = Some e →
          ∃ pre np post,
            pre ++ np :: post ≡ₚ map_to_list (clusterConsumerMap (coord Mock.pair))
            ∧ (∃ s, consumers Mock.pair !! np.2 = Some s ∧ (cc_Start s).1 = Some e)
            ∧ (∀ x, x ∈ pre ++ [np] →
                    ∃ s, consumers Mock.pair !! x.2 = Some s
                       ∧ consumers w' !! x.2 = Some (cc_Stop (cc_Start s).2))
            ∧ (∀ x, x ∈ post →
                    ∃ s, consumers Mock.pair !! x.2 = Some s
                       ∧ consumers w' !! x.2 = Some (cc_Stop s)).
Proof.
  split; [exact Reachable_pair|]. split; [reflexivity|].
  split; [exact one_name_each_pair|].
  exact (Start_error_stops_unstarted [] Mock.canonical Mock.pair
           Reachable_pair eq_refl one_name_each_pair).
Defined.

(** [Stop()] on the running coordinator over [cc1] and its client. *)
Lemma Stop_leaves_all_stopped_witness :
  Reachable Mock.running
  ∧ phase_of Mock.running = Util.Running
  ∧ one_name_each (clusterConsumerMap (coord Mock.running))
  ∧ one_name_each (clusterToSaramaClientMap (coord Mock.running))
  ∧ ∃ w',
      Stop Mock.canonical Mock.running = Some (tt, w')
      ∧ (∀ name cc s,
           clusterConsumerMap (coord Mock.running) !! name = Some cc →
           consumers Mock.running !! cc = Some s →
           consumers w' !! cc = Some (cc_Stop s))
      ∧ (∀ name cl s,
           clusterToSaramaClientMap (coord Mock.running) !! name = Some cl →
           clients Mock.running !! cl = Some s →
           clients w' !! cl = Some (client_Close s).2).
Proof.
  split; [exact Reachable_running|]. split; [by vm_compute|].
  split; [exact (proj1 one_name_each_running)|].
  split; [exact (proj2 one_name_each_running)|].
  exact (Stop_leaves_all_stopped Mock.canonical Mock.running Reachable_running
           eq_refl (proj1 one_name_each_running) (proj2 one_name_each_running)).
Defined.

End MoreExamples.
